(** * A vector-space search engine: TF-IDF weighting and cosine ranking

    Shallow embedding of the class [VectorSearchEngine] of
    [vector-space-indexing-engine.py] and the properties of its index,
    its weighting and its ranking.

    Conventions of the embedding.
    - A Python [int] is a [Z].
    - A Python [str] is a [string] whose characters are the code points
      below 256; the character classes are those of Python on that range.
    - A Python [dict] is an association list in insertion order with unique
      keys: iteration order is observable (order of the results of a
      search, order of the summations), so the order is part of the model.
    - A Python [float] is an element of a type [F] equipped with the
      operations the program uses ([Arith], [IntArith], [Numeric],
      [Rounding]).  Two arithmetics are given: exact arithmetic ([R]),
      where rounding, overflow and NaN do not exist, and [binary64], the
      IEEE 754 arithmetic of CPython, in which a square or a quotient out
      of range raises [OverflowError].  A theorem says which arithmetic it
      is about.
    - An exception is a value [Raise e] of [result]; [self] is threaded
      explicitly, and a method that assigns to [self] runs in the monad
      [M]. *)

From Stdlib Require Import ZArith List String Ascii Bool Lia Sorted Permutation.
From Stdlib Require Import Reals Lra.
From Stdlib Require PrimFloat SpecFloat FloatOps FloatAxioms Uint63.
Import ListNotations.

Local Open Scope string_scope.
Local Open Scope Z_scope.
Local Open Scope list_scope.

(** ** Exceptions and results *)

Inductive exn : Type :=
| ValueError (msg : string)
| ZeroDivisionError
| OverflowError
| KeyError.

Inductive result (A : Type) : Type :=
| Ok (a : A)
| Raise (e : exn).

Arguments Ok {A} a.
Arguments Raise {A} e.

Definition bind {A B : Type} (r : result A) (k : A -> result B) : result B :=
  match r with
  | Ok a => k a
  | Raise e => Raise e
  end.

Declare Scope result_scope.
Delimit Scope result_scope with result.
Notation "x <- r ;; k" := (bind r (fun x => k))
  (at level 61, r at next level, right associativity) : result_scope.
Notation "' p <- r ;; k" := (bind r (fun p => k))
  (at level 61, p pattern, r at next level, right associativity) : result_scope.

(** A loop whose body may raise: [for x in l: acc = body(acc, x)]. *)
Fixpoint for_each {A X : Type} (body : A -> X -> result A) (l : list X) (acc : A)
  : result A :=
  match l with
  | [] => Ok acc
  | x :: l' => bind (body acc x) (for_each body l')
  end.

(** ** Python objects reaching the public methods *)

Inductive pyobj : Type :=
| PStr (s : string)
| PInt (z : Z)
| PNone.

(** [isinstance(o, str)] *)
Definition isinstance_str (o : pyobj) : bool :=
  match o with
  | PStr _ => true
  | _ => false
  end.

(** Document identifiers: [Union[int, str]]. *)
Inductive doc_id : Type :=
| IdInt (z : Z)
| IdStr (s : string).

(** ** Decidable equality of dictionary keys *)

Class EqDec (K : Type) := eq_dec : forall x y : K, {x = y} + {x <> y}.

#[global] Instance string_EqDec : EqDec string := string_dec.

Definition doc_id_dec (x y : doc_id) : {x = y} + {x <> y}.
Proof.
  decide equality; [apply Z.eq_dec | apply string_dec].
Defined.

#[global] Instance doc_id_EqDec : EqDec doc_id := doc_id_dec.

(** ** Dictionaries *)

Section Dict.
Context {K V : Type} `{EqDec K}.

Definition dict : Type := list (K * V).

(** [d.get(k)] *)
Fixpoint dict_get (k : K) (d : dict) : option V :=
  match d with
  | [] => None
  | (k', v) :: d' => if eq_dec k k' then Some v else dict_get k d'
  end.

(** [d.get(k, default)] *)
Definition dict_get_default (k : K) (default : V) (d : dict) : V :=
  match dict_get k d with
  | Some v => v
  | None => default
  end.

(** [k in d] *)
Definition dict_mem (k : K) (d : dict) : bool :=
  match dict_get k d with
  | Some _ => true
  | None => false
  end.

(** [d[k] = v]: an existing key keeps its place, a new key goes last. *)
Fixpoint dict_set (k : K) (v : V) (d : dict) : dict :=
  match d with
  | [] => [(k, v)]
  | (k', v') :: d' =>
      if eq_dec k k' then (k, v) :: d' else (k', v') :: dict_set k v d'
  end.

(** [d[k]] *)
Definition dict_lookup (k : K) (d : dict) : result V :=
  match dict_get k d with
  | Some v => Ok v
  | None => Raise KeyError
  end.

Definition keys (d : dict) : list K := map fst d.
Definition values (d : dict) : list V := map snd d.

(** [len(d)] *)
Definition len (d : dict) : Z := Z.of_nat (List.length d).
End Dict.

Arguments dict K V : clear implicits.

(** ** Text *)

Definition ord (c : ascii) : N := N_of_ascii c.

(** [c.isspace()] on the code points below 256. *)
Definition isspace (c : ascii) : bool :=
  let n := ord c in
  ((9 <=? n) && (n <=? 13) || (28 <=? n) && (n <=? 32)
   || (n =? 133) || (n =? 160))%N.

(** The characters of [string.punctuation]. *)
Definition ispunct (c : ascii) : bool :=
  let n := ord c in
  ((33 <=? n) && (n <=? 47) || (58 <=? n) && (n <=? 64)
   || (91 <=? n) && (n <=? 96) || (123 <=? n) && (n <=? 126))%N.

(** [c.lower()] on the code points below 256. *)
Definition lower_char (c : ascii) : ascii :=
  let n := ord c in
  if ((65 <=? n) && (n <=? 90)
      || (192 <=? n) && (n <=? 222) && negb (n =? 215))%N
  then ascii_of_N (n + 32)
  else c.

Fixpoint map_string (f : ascii -> ascii) (s : string) : string :=
  match s with
  | EmptyString => EmptyString
  | String c s' => String (f c) (map_string f s')
  end.

(** [s.lower()] *)
Definition lower (s : string) : string := map_string lower_char s.

(** [re.sub('[' + re.escape(string.punctuation) + ']', ' ', s)] *)
Definition sub_punctuation (s : string) : string :=
  map_string (fun c => if ispunct c then " "%char else c) s.

Definition is_empty (s : string) : bool :=
  match s with
  | EmptyString => true
  | _ => false
  end.

(** [s.split()]: the maximal runs of characters that are not white space.
    [word] is the run being read. *)
Fixpoint split_from (word : string) (s : string) : list string :=
  match s with
  | EmptyString => if is_empty word then [] else [word]
  | String c s' =>
      if isspace c
      then (if is_empty word then split_from EmptyString s'
            else word :: split_from EmptyString s')
      else split_from (word ++ String c EmptyString)%string s'
  end.

Definition split (s : string) : list string := split_from EmptyString s.

Fixpoint lstrip (s : string) : string :=
  match s with
  | EmptyString => EmptyString
  | String c s' => if isspace c then lstrip s' else s
  end.

Fixpoint rstrip (s : string) : string :=
  match s with
  | EmptyString => EmptyString
  | String c s' =>
      let r := rstrip s' in
      if isspace c && is_empty r then EmptyString else String c r
  end.

(** [s.strip()] *)
Definition strip (s : string) : string := rstrip (lstrip s).

(** [s[:n]] for [n >= 0] *)
Definition prefix_of (n : nat) (s : string) : string := substring 0 n s.

(** ** The tokenizer *)

(** [preprocess_text]: lower-case, blank the punctuation, split on white
    space, keep the words that are not empty once stripped. *)
Definition preprocess_text (text : pyobj) : result (list string) :=
  match text with
  | PStr s =>
      let text := lower s in
      let text := sub_punctuation text in
      Ok (map strip (filter (fun word => negb (is_empty (strip word))) (split text)))
  | _ => Raise (ValueError "Input must be a string")
  end.

(** [Counter(tokens)]: each token is counted under its first occurrence. *)
Definition Counter (tokens : list string) : dict string Z :=
  fold_left (fun c w => dict_set w (dict_get_default w 0 c + 1) c) tokens [].

(** [create_concordance] *)
Definition create_concordance (text : pyobj) : result (dict string Z) :=
  (tokens <- preprocess_text text ;;
   Ok (Counter tokens))%result.

(** ** Floating-point arithmetic *)

(** The operations on [float] used by the vector functions:
    [0.0], [+], [*], [/], [math.sqrt], [==] and [<]; and the test for an
    infinity, by which an overflow shows. *)
Class Arith (F : Type) : Type := {
  fzero : F;
  fadd : F -> F -> F;
  fmul : F -> F -> F;
  fdiv : F -> F -> F;
  fsqrt : F -> F;
  feqb : F -> F -> bool;
  fltb : F -> F -> bool;
  fis_inf : F -> bool
}.

(** The operations that take ints to floats, used by the weighting and
    the statistics: [float(n)] and the float nearest to the quotient of two
    ints. *)
Class IntArith (F : Type) : Type := {
  int_arith :: Arith F;
  of_int : Z -> F;
  int_quotient : Z -> Z -> F
}.

(** The weighting uses [math.log] as well. *)
Class Numeric (F : Type) : Type := {
  numeric_ints :: IntArith F;
  flog : F -> F
}.

(** [round(x, 2)] on floats. *)
Class Rounding (F : Type) : Type := {
  fround2 : F -> F
}.

Section Operators.
Context {F : Type}.

(** [x ** 2]: the square; the square of a finite float that is out of
    range raises.  (CPython calls [pow] of the C library, which is exact
    wherever the square is representable.) *)
Definition pow2 `{Arith F} (x : F) : result F :=
  let square := fmul x x in
  if fis_inf square && negb (fis_inf x) then Raise OverflowError else Ok square.

(** [math.sqrt(x)]: raises on the negative numbers. *)
Definition math_sqrt `{Arith F} (x : F) : result F :=
  if fltb x fzero then Raise (ValueError "math domain error") else Ok (fsqrt x).

(** [x / y] on floats: a zero divisor raises. *)
Definition truediv `{Arith F} (x y : F) : result F :=
  if feqb y fzero then Raise ZeroDivisionError else Ok (fdiv x y).

(** [a / b] on ints: true division.  A zero divisor raises, and so does a
    quotient that is too large for a float. *)
Definition int_truediv `{IntArith F} (a b : Z) : result F :=
  if (b =? 0)%Z then Raise ZeroDivisionError
  else
    let quotient := int_quotient a b in
    if fis_inf quotient then Raise OverflowError else Ok quotient.

(** [math.log(x)]: raises outside the positive numbers. *)
Definition math_log `{Numeric F} (x : F) : result F :=
  if fltb fzero x then Ok (flog x) else Raise (ValueError "math domain error").

(** The sum of a list of floats, from [0], left to right. *)
Definition fsum `{Arith F} (xs : list F) : F := fold_left fadd xs fzero.
End Operators.

(** [sum(xs)] on ints. *)
Definition sum (xs : list Z) : Z := fold_left Z.add xs 0.

(** *** Exact arithmetic *)

Definition Reqb (x y : R) : bool := if Req_dec_T x y then true else false.
Definition Rltb (x y : R) : bool := if Rlt_dec x y then true else false.

#[global] Instance R_Arith : Arith R := {|
  fzero := 0%R;
  fadd := Rplus;
  fmul := Rmult;
  fdiv := Rdiv;
  fsqrt := R_sqrt.sqrt;
  feqb := Reqb;
  fltb := Rltb;
  fis_inf := fun _ => false
|}.

#[global] Instance R_Numeric : Numeric R := {|
  numeric_ints := {|
    int_arith := R_Arith;
    of_int := IZR;
    int_quotient := fun a b => (IZR a / IZR b)%R
  |};
  flog := ln
|}.

(** *** IEEE 754 binary64 arithmetic *)

#[global] Instance binary64 : Arith PrimFloat.float := {|
  fzero := PrimFloat.zero;
  fadd := PrimFloat.add;
  fmul := PrimFloat.mul;
  fdiv := PrimFloat.div;
  fsqrt := PrimFloat.sqrt;
  feqb := PrimFloat.eqb;
  fltb := PrimFloat.ltb;
  fis_inf := PrimFloat.is_infinity
|}.

(** An int as an unrounded float: mantissa [n], exponent [0]. *)
Definition Z2SF (n : Z) : SpecFloat.spec_float :=
  match n with
  | Z0 => SpecFloat.S754_zero false
  | Zpos p => SpecFloat.S754_finite false p 0
  | Zneg p => SpecFloat.S754_finite true p 0
  end.

(** [float(n)]: the float nearest to [n], ties to even.  (The program
    converts no int but [0].) *)
Definition float_of_int (n : Z) : PrimFloat.float :=
  FloatOps.SF2Prim (SpecFloat.binary_normalize FloatOps.prec FloatOps.emax n 0 false).

(** The float nearest to [a / b], ties to even: the exact quotient is
    rounded once, as the true division of CPython does; a quotient out of
    range gives an infinity. *)
Definition float_quotient (a b : Z) : PrimFloat.float :=
  FloatOps.SF2Prim
    (SpecFloat.SFdiv FloatOps.prec FloatOps.emax (Z2SF a) (Z2SF b)).

#[global] Instance binary64_IntArith : IntArith PrimFloat.float := {|
  int_arith := binary64;
  of_int := float_of_int;
  int_quotient := float_quotient
|}.

(** The integer nearest to [p / d], ties to the even one, for [0 <= p] and
    [0 < d]. *)
Definition nearest_even (p d : Z) : Z :=
  let q := p / d in
  let r := p mod d in
  match 2 * r ?= d with
  | Lt => q
  | Gt => q + 1
  | Eq => if Z.even q then q else q + 1
  end.

(** The integer nearest to [100 * m * 2 ^ e], ties to the even one. *)
Definition hundredths (m : positive) (e : Z) : Z :=
  if 0 <=? e then 100 * Z.pos m * 2 ^ e
  else nearest_even (100 * Z.pos m) (2 ^ (- e)).

(** A float with the sign bit set or cleared. *)
Definition with_sign (s : bool) (x : PrimFloat.float) : PrimFloat.float :=
  if s then PrimFloat.opp x else x.

(** [round(x, 2)] on a float: CPython writes the exact value of [x] in
    decimal with two digits after the point, correctly rounded with ties
    to even, and reads that decimal back as the nearest float; zeros,
    infinities and NaN round to themselves. *)
Definition round2 (x : PrimFloat.float) : PrimFloat.float :=
  match FloatOps.Prim2SF x with
  | SpecFloat.S754_finite s m e => with_sign s (float_quotient (hundredths m e) 100)
  | _ => x
  end.

#[global] Instance binary64_Rounding : Rounding PrimFloat.float := {|
  fround2 := round2
|}.

(** ** Sparse vectors *)

Section Vectors.
Context {F : Type} `{Arith F}.

Definition vector : Type := dict string F.

(** [vector_magnitude]: the Euclidean norm of the values.  [sum] adds the
    squares from [0], left to right, as the generator produces them, so the
    first square out of range ends the call.  (CPython 3.12 and later
    compensate the rounding errors of the additions; nothing changes where
    the additions are exact.) *)
Definition vector_magnitude (vector : vector) : result F :=
  (total <-
     for_each
       (fun total value => square <- pow2 value ;; Ok (fadd total square))
       (values vector) fzero ;;
   math_sqrt total)%result.

(** The dot product over the terms of [vec1] that are keys of [vec2]. *)
Definition dot_product (vec1 vec2 : vector) : F :=
  fold_left
    (fun dot '(term, x) =>
       match dict_get term vec2 with
       | Some y => fadd dot (fmul x y)
       | None => dot
       end)
    vec1 fzero.

(** [cosine_similarity] *)
Definition cosine_similarity (vec1 vec2 : vector) : result F :=
  let dot := dot_product vec1 vec2 in
  (mag1 <- vector_magnitude vec1 ;;
   mag2 <- vector_magnitude vec2 ;;
   if feqb mag1 fzero || feqb mag2 fzero then Ok fzero
   else truediv dot (fmul mag1 mag2))%result.
End Vectors.

Arguments vector F : clear implicits.

(** ** The engine *)

Record Engine : Type := mkEngine {
  documents : dict doc_id string;
  index : dict doc_id (dict string Z);
  document_frequencies : dict string Z;
  total_documents : Z
}.

(** [__init__] *)
Definition init : Engine := {|
  documents := [];
  index := [];
  document_frequencies := [];
  total_documents := 0
|}.

(** *** Methods that assign to [self] *)

(** A method body: from the state of [self] to its new state and the
    outcome.  A raised exception keeps the assignments made before it. *)
Definition M (A : Type) : Type := Engine -> Engine * result A.

Definition ret {A : Type} (a : A) : M A := fun self => (self, Ok a).

Definition raise {A : Type} (e : exn) : M A := fun self => (self, Raise e).

Definition bindM {A B : Type} (m : M A) (k : A -> M B) : M B :=
  fun self =>
    match m self with
    | (self', Ok a) => k a self'
    | (self', Raise e) => (self', Raise e)
    end.

Definition lift {A : Type} (r : result A) : M A := fun self => (self, r).

Definition assign (f : Engine -> Engine) : M unit := fun self => (f self, Ok tt).

Declare Scope method_scope.
Delimit Scope method_scope with method.
Notation "x <- m ;; k" := (bindM m (fun x => k))
  (at level 61, m at next level, right associativity) : method_scope.
Notation "m ;; k" := (bindM m (fun _ => k))
  (at level 61, right associativity) : method_scope.

(** [for x in l: body(x)] *)
Fixpoint for_eachM {X : Type} (body : X -> M unit) (l : list X) : M unit :=
  match l with
  | [] => ret tt
  | x :: l' => (body x ;; for_eachM body l')%method
  end.

(** [self.documents[doc_id] = text] *)
Definition set_document (doc_id : doc_id) (text : string) (self : Engine) : Engine :=
  {| documents := dict_set doc_id text (documents self);
     index := index self;
     document_frequencies := document_frequencies self;
     total_documents := total_documents self |}.

(** [self.document_frequencies[word] += 1], on a [defaultdict(int)] *)
Definition bump_frequency (word : string) (self : Engine) : Engine :=
  {| documents := documents self;
     index := index self;
     document_frequencies :=
       dict_set word (dict_get_default word 0 (document_frequencies self) + 1)
         (document_frequencies self);
     total_documents := total_documents self |}.

(** [self.index[doc_id] = concordance] *)
Definition set_index (doc_id : doc_id) (concordance : dict string Z) (self : Engine)
  : Engine :=
  {| documents := documents self;
     index := dict_set doc_id concordance (index self);
     document_frequencies := document_frequencies self;
     total_documents := total_documents self |}.

(** [self.total_documents = len(self.documents)] *)
Definition set_total_documents (self : Engine) : Engine :=
  {| documents := documents self;
     index := index self;
     document_frequencies := document_frequencies self;
     total_documents := len (documents self) |}.

(** [add_document] *)
Definition add_document (doc_id : doc_id) (text : pyobj) : M unit :=
  match text with
  | PStr s =>
      (assign (set_document doc_id s) ;;
       concordance <- lift (create_concordance text) ;;
       for_eachM (fun word => assign (bump_frequency word)) (keys concordance) ;;
       assign (set_index doc_id concordance) ;;
       assign set_total_documents)%method
  | _ => raise (ValueError "Document text must be a string")
  end.

(** The state of [self] after a call, whatever its outcome. *)
Definition after {A : Type} (m : M A) (self : Engine) : Engine := fst (m self).

(** The states of an engine: a fresh one, and any state left by a call of
    [add_document]. *)
Inductive reachable : Engine -> Prop :=
| reachable_init : reachable init
| reachable_add self doc_id text :
    reachable self -> reachable (after (add_document doc_id text) self).

(** Adding a sequence of documents, first to last. *)
Definition add_documents (docs : list (doc_id * string)) (self : Engine) : Engine :=
  fold_left (fun self '(doc_id, text) => after (add_document doc_id (PStr text)) self)
    docs self.

(** *** Methods that only read [self] *)

(** [l[:stop]]: a negative [stop] counts from the end. *)
Definition slice_to {A : Type} (stop : Z) (l : list A) : list A :=
  if (stop <? 0)%Z
  then firstn (Z.to_nat (Z.of_nat (List.length l) + stop)) l
  else firstn (Z.to_nat stop) l.

Section Ranking.
Context {F : Type} `{Arith F}.

(** A result of a search: [(score, doc_id, preview)]. *)
Definition hit : Type := F * doc_id * string.

Definition score (h : hit) : F := fst (fst h).

(** [results.sort(reverse=True, key=lambda x: x[0])]: decreasing scores,
    hits of equal score in their original order. *)
Fixpoint insert_desc (h : hit) (sorted : list hit) : list hit :=
  match sorted with
  | [] => [h]
  | h' :: rest =>
      if fltb (score h) (score h') then h' :: insert_desc h rest
      else h :: sorted
  end.

Definition sort_desc (results : list hit) : list hit :=
  fold_right insert_desc [] results.
End Ranking.

Arguments hit F : clear implicits.

(** The dictionary returned by [get_document_stats]. *)
Record stats (F : Type) : Type := mkStats {
  stats_total_documents : Z;
  stats_unique_terms : Z;
  stats_avg_doc_length : F
}.

Arguments mkStats {F} _ _ _.
Arguments stats_total_documents {F} _.
Arguments stats_unique_terms {F} _.
Arguments stats_avg_doc_length {F} _.

Section Queries.
Context {F : Type} `{Numeric F}.
Variable self : Engine.

(** [calculate_tf_idf] *)
Definition calculate_tf_idf (term_freq doc_length doc_freq : Z) : result F :=
  if (doc_freq =? 0)%Z then Ok fzero
  else
    (tf <- (if (0 <? doc_length)%Z then int_truediv term_freq doc_length
            else Ok (of_int 0)) ;;
     idf <- (if (0 <? doc_freq)%Z
             then (ratio <- int_truediv (total_documents self) doc_freq ;;
                   math_log ratio)
             else Ok (of_int 0)) ;;
     Ok (fmul tf idf))%result.

(** [create_tfidf_vector] *)
Definition create_tfidf_vector (concordance : dict string Z) : result (vector F) :=
  let doc_length := sum (values concordance) in
  for_each
    (fun tfidf_vector '(term, freq) =>
       let doc_freq := dict_get_default term 0 (document_frequencies self) in
       (weight <- calculate_tf_idf freq doc_length doc_freq ;;
        Ok (dict_set term weight tfidf_vector))%result)
    concordance [].

(** The query vector of [search]: plain term frequencies of the terms
    known to the corpus. *)
Definition query_vector_of (query_concordance : dict string Z) : result (vector F) :=
  let total_query_terms := sum (values query_concordance) in
  for_each
    (fun query_vector '(term, freq) =>
       if dict_mem term (document_frequencies self)
       then (weight <- int_truediv freq total_query_terms ;;
             Ok (dict_set term weight query_vector))%result
       else Ok query_vector)
    query_concordance [].

(** The preview of a document: its first 100 characters. *)
Definition preview_of (text : string) : string :=
  let preview := prefix_of 100 text in
  if (100 <? String.length text)%nat then (preview ++ "...")%string else preview.

(** The scoring loop of [search]. *)
Definition score_documents (query_vector : vector F) : result (list (hit F)) :=
  for_each
    (fun results '(doc_id, concordance) =>
       (doc_vector <- create_tfidf_vector concordance ;;
        similarity <- cosine_similarity query_vector doc_vector ;;
        if fltb fzero similarity
        then (text <- dict_lookup doc_id (documents self) ;;
              Ok (results ++ [(similarity, doc_id, preview_of text)])%list)
        else Ok results)%result)
    (index self) [].

(** [search] *)
Definition search (query : pyobj) (max_results : Z) : result (list (hit F)) :=
  match query with
  | PStr q =>
      if is_empty (strip q)
      then Raise (ValueError "Query must be a non-empty string")
      else
        match documents self with
        | [] => Ok []
        | _ :: _ =>
            (query_concordance <- create_concordance query ;;
             query_vector <- query_vector_of query_concordance ;;
             results <- score_documents query_vector ;;
             Ok (slice_to max_results (sort_desc results)))%result
        end
  | _ => Raise (ValueError "Query must be a non-empty string")
  end.
End Queries.

Section Statistics.
Context {F : Type} `{IntArith F} `{Rounding F}.
Variable self : Engine.

(** [get_document_stats] *)
Definition get_document_stats : result (stats F) :=
  match documents self with
  | [] => Ok (mkStats 0 0 (of_int 0))
  | _ :: _ =>
      (total_terms <-
         for_each
           (fun total doc =>
              concordance <- create_concordance (PStr doc) ;;
              Ok (total + len concordance)%Z)
           (values (documents self)) 0%Z ;;
       avg_length <- int_truediv total_terms (len (documents self)) ;;
       Ok (mkStats (total_documents self)
             (len (document_frequencies self))
             (fround2 avg_length)))%result
  end.
End Statistics.

(** ** Notions used in the statements *)

(** The tokens of a text: what [preprocess_text] returns on a [str]. *)
Definition tokens_of (text : string) : list string :=
  match preprocess_text (PStr text) with
  | Ok tokens => tokens
  | Raise _ => []
  end.

(** Whether the tokenized text contains the term. *)
Definition mentions (term : string) (text : string) : bool :=
  existsb (String.eqb term) (tokens_of text).

(** [self.document_frequencies.get(term, 0)]: the corpus document
    frequency of a term. *)
Definition document_frequency (self : Engine) (term : string) : Z :=
  dict_get_default term 0 (document_frequencies self).

(** The number of documents in the store whose term-frequency map
    contains the term. *)
Definition documents_containing (self : Engine) (term : string) : Z :=
  Z.of_nat
    (List.length
       (filter
          (fun doc_id =>
             match dict_get doc_id (index self) with
             | Some concordance => dict_mem term concordance
             | None => false
             end)
          (keys (documents self)))).

(** The number of texts of a list of documents that contain the term. *)
Definition texts_containing (term : string) (docs : list (doc_id * string)) : Z :=
  Z.of_nat (List.length (filter (fun '(_, text) => mentions term text) docs)).

(** The document frequencies once each of [terms] has been counted. *)
Definition count_terms (terms : list string) (df : dict string Z) : dict string Z :=
  fold_left (fun df word => dict_set word (dict_get_default word 0 df + 1) df) terms df.

(** The state in which [doc_id] is fully indexed with [text]. *)
Definition indexed (doc_id : doc_id) (text : string) (self : Engine) : Engine :=
  let concordance := Counter (tokens_of text) in
  {| documents := dict_set doc_id text (documents self);
     index := dict_set doc_id concordance (index self);
     document_frequencies := count_terms (keys concordance) (document_frequencies self);
     total_documents := len (dict_set doc_id text (documents self)) |}.

(** Scores in non-increasing order. *)
Definition non_increasing (results : list (hit R)) : Prop :=
  StronglySorted (fun h h' => (score h' <= score h)%R) results.

(** What holds of every state of an engine. *)
Record consistent (self : Engine) : Prop := {
  total_is_len : total_documents self = len (documents self);
  index_keys : keys (index self) = keys (documents self);
  index_concordances :
    forall doc_id concordance,
      In (doc_id, concordance) (index self) ->
      exists text, concordance = Counter (tokens_of text)
}.

(** The number of distinct terms of a text. *)
Definition distinct_terms (text : string) : Z :=
  Z.of_nat (List.length (nodup string_dec (tokens_of text))).

(** The engine after [add_document(1, "a")] twice. *)
Definition overwritten : Engine :=
  add_documents [(IdInt 1, "a"); (IdInt 1, "a")] init.

(** The engine holding ["cat dog cat"] as [a] and ["dog bird"] as [b]. *)
Definition cat_dog : Engine :=
  add_documents [(IdStr "a", "cat dog cat"); (IdStr "b", "dog bird")] init.

(** [vec.get(term, 0)]: the weight of a term in a sparse vector. *)
Definition weight_in (vec : vector R) (term : string) : R :=
  dict_get_default term 0%R vec.

(** A dictionary without the item of a key. *)
Fixpoint dict_without {K V : Type} `{EqDec K} (k : K) (d : dict K V) : dict K V :=
  match d with
  | [] => []
  | (k', v) :: d' => if eq_dec k k' then d' else (k', v) :: dict_without k d'
  end.

(** The square of a real number. *)
Definition square (x : R) : R := (x * x)%R.

(** The sum of the squares of the weights. *)
Definition sum_squares (vec : vector R) : R := fsum (map square (values vec)).

(** The Euclidean norm of a vector of real weights. *)
Definition norm (vec : vector R) : R := R_sqrt.sqrt (sum_squares vec).

(** The squares of the weights that [vec2] gives to the terms of [vec1]. *)
Definition matched_squares (vec1 vec2 : vector R) : R :=
  fsum (map (fun item => square (weight_in vec2 (fst item))) vec1).

(** The value of a float: [m * 2 ^ e] with its sign, and [0] for the
    zeros and for what is not a number. *)
Definition float_value (x : PrimFloat.float) : R :=
  match FloatOps.Prim2SF x with
  | SpecFloat.S754_finite s m e =>
      ((if s then -1 else 1) * IZR (Z.pos m) * powerRZ 2 e)%R
  | _ => 0%R
  end.

(** A float that is a zero, a finite number or an infinity with the sign
    bit clear. *)
Definition nonneg_SF (y : SpecFloat.spec_float) : Prop :=
  match y with
  | SpecFloat.S754_zero s | SpecFloat.S754_infinity s
  | SpecFloat.S754_finite s _ _ => s = false
  | SpecFloat.S754_nan => False
  end.

(** The engine holding ["cat dog"], ["cat"] and ["bird"]: four distinct
    terms in three documents. *)
Definition cat_dog_bird : Engine :=
  add_documents [(IdInt 1, "cat dog"); (IdInt 2, "cat"); (IdInt 3, "bird")] init.

(** An engine of forty documents, three of them ["cat dog"] and the others
    ["cat"]: forty-three distinct terms in all. *)
Definition forty_documents : Engine :=
  add_documents
    (map (fun n => (IdInt (Z.of_nat n), if (n <? 3)%nat then "cat dog" else "cat"))
       (seq 0 40))
    init.

(** Whether every character of a string satisfies a test. *)
Fixpoint all_chars (p : ascii -> bool) (s : string) : bool :=
  match s with
  | EmptyString => true
  | String c s' => p c && all_chars p s'
  end.

(** A character that may occur in a token: no white space, no punctuation,
    and in lower case. *)
Definition token_char (c : ascii) : bool :=
  negb (isspace c) && negb (ispunct c) && (ord (lower_char c) =? ord c)%N.

(** [" ".join(words)] *)
Fixpoint join_words (words : list string) : string :=
  match words with
  | [] => EmptyString
  | [w] => w
  | w :: ws => (w ++ String " "%char (join_words ws))%string
  end.

(** The identifier of a hit. *)
Definition hit_id {F : Type} (h : hit F) : doc_id := snd (fst h).

(** The preview of a hit. *)
Definition hit_preview {F : Type} (h : hit F) : string := snd h.

(** * Properties *)

(** ** Dictionaries *)

Section DictFacts.
Context {K V : Type} `{EqDec K}.
Implicit Types (d : dict K V) (k : K) (v : V).

Lemma dict_get_set_same k v d : dict_get k (dict_set k v d) = Some v.
Proof.
  induction d as [|[k' v'] d IH]; simpl.
  - destruct (eq_dec k k); congruence.
  - destruct (eq_dec k k') as [->|Hne]; simpl.
    + destruct (eq_dec k' k'); congruence.
    + destruct (eq_dec k k'); congruence.
Qed.

Lemma dict_get_set_other k k' v d :
  k <> k' -> dict_get k (dict_set k' v d) = dict_get k d.
Proof.
  intros Hne. induction d as [|[k0 v0] d IH]; simpl.
  - destruct (eq_dec k k'); congruence.
  - destruct (eq_dec k' k0) as [->|Hne0]; simpl.
    + destruct (eq_dec k k0); congruence.
    + destruct (eq_dec k k0); congruence.
Qed.

Lemma dict_get_None k d : dict_get k d = None <-> ~ In k (keys d).
Proof.
  induction d as [|[k' v'] d IH]; simpl.
  - tauto.
  - destruct (eq_dec k k') as [->|Hne].
    + split; [discriminate | intros Hn; exfalso; apply Hn; now left].
    + rewrite IH. split; [intros Hn [Heq|Hin]; congruence | tauto].
Qed.

Lemma dict_mem_In k d : dict_mem k d = true <-> In k (keys d).
Proof.
  unfold dict_mem. destruct (dict_get k d) eqn:Hget.
  - split; [intros _ | reflexivity].
    destruct (in_dec eq_dec k (keys d)) as [Hin|Hnin]; [assumption|].
    apply dict_get_None in Hnin. congruence.
  - split; [discriminate|]. intros Hin. apply dict_get_None in Hget. contradiction.
Qed.

(** Assigning to a key that is absent appends the item. *)
Lemma dict_set_fresh k v d : ~ In k (keys d) -> dict_set k v d = d ++ [(k, v)].
Proof.
  induction d as [|[k' v'] d IH]; simpl; intros Hnin.
  - reflexivity.
  - destruct (eq_dec k k') as [->|Hne].
    + exfalso. apply Hnin. now left.
    + rewrite IH by tauto. reflexivity.
Qed.

Lemma keys_dict_set k v d :
  keys (dict_set k v d) = if dict_mem k d then keys d else keys d ++ [k].
Proof.
  unfold dict_mem. induction d as [|[k' v'] d IH]; simpl.
  - reflexivity.
  - destruct (eq_dec k k') as [->|Hne]; simpl.
    + reflexivity.
    + rewrite IH. destruct (dict_get k d); reflexivity.
Qed.

Lemma In_keys_dict_set k k' v d :
  In k' (keys (dict_set k v d)) <-> k' = k \/ In k' (keys d).
Proof.
  rewrite keys_dict_set. destruct (dict_mem k d) eqn:Hmem.
  - apply dict_mem_In in Hmem. split; [tauto|]. intros [->|Hin]; assumption.
  - rewrite in_app_iff. simpl. intuition congruence.
Qed.

Lemma NoDup_keys_dict_set k v d : NoDup (keys d) -> NoDup (keys (dict_set k v d)).
Proof.
  intros Hnd. rewrite keys_dict_set. destruct (dict_mem k d) eqn:Hmem.
  - assumption.
  - assert (Hnin : ~ In k (keys d)).
    { intros Hin. apply dict_mem_In in Hin. congruence. }
    clear Hmem. induction Hnd as [|k0 ks Hk0 Hnd IH]; simpl.
    + constructor; [tauto | constructor].
    + constructor.
      * rewrite in_app_iff. simpl in *. intuition congruence.
      * apply IH. simpl in Hnin. tauto.
Qed.

(** With unique keys, every item is found under its key. *)
Lemma dict_get_In k v d : NoDup (keys d) -> In (k, v) d -> dict_get k d = Some v.
Proof.
  induction d as [|[k' v'] d IH]; simpl; intros Hnd Hin.
  - contradiction.
  - inversion Hnd as [|? ? Hk' Hnd']; subst.
    destruct Hin as [Heq|Hin].
    + inversion Heq; subst. destruct (eq_dec k k); congruence.
    + destruct (eq_dec k k') as [->|Hne].
      * exfalso. apply Hk'. change (In (fst (k', v)) (map fst d)). now apply in_map.
      * now apply IH.
Qed.
End DictFacts.

(** ** The tokenizer and the concordance *)

Lemma preprocess_text_str text : preprocess_text (PStr text) = Ok (tokens_of text).
Proof. reflexivity. Qed.

Lemma create_concordance_str text :
  create_concordance (PStr text) = Ok (Counter (tokens_of text)).
Proof. reflexivity. Qed.

Lemma mentions_In term text : mentions term text = true <-> In term (tokens_of text).
Proof.
  unfold mentions. rewrite existsb_exists. split.
  - intros [w [Hin Heq]]. apply String.eqb_eq in Heq. now subst.
  - intros Hin. exists term. split; [assumption | apply String.eqb_refl].
Qed.

(** Counting tokens into a dictionary keeps the keys unique and adds
    exactly the tokens. *)
Lemma Counter_acc_keys tokens (c : dict string Z) :
  let c' := fold_left (fun c w => dict_set w (dict_get_default w 0 c + 1) c) tokens c in
  (NoDup (keys c) -> NoDup (keys c'))
  /\ (forall t, In t (keys c') <-> In t (keys c) \/ In t tokens).
Proof.
  revert c. induction tokens as [|w tokens IH]; intros c; simpl.
  - split; [auto | tauto].
  - destruct (IH (dict_set w (dict_get_default w 0 c + 1) c)) as [Hnd Hin].
    split.
    + intros Hc. apply Hnd. now apply NoDup_keys_dict_set.
    + intros t. rewrite Hin, In_keys_dict_set. intuition congruence.
Qed.

Lemma NoDup_keys_Counter tokens : NoDup (keys (Counter tokens)).
Proof. apply (Counter_acc_keys tokens []). constructor. Qed.

Lemma In_keys_Counter tokens t : In t (keys (Counter tokens)) <-> In t tokens.
Proof.
  unfold Counter. rewrite (proj2 (Counter_acc_keys tokens [])). simpl. tauto.
Qed.

Lemma dict_mem_Counter tokens t :
  dict_mem t (Counter tokens) = existsb (String.eqb t) tokens.
Proof.
  apply eq_true_iff_eq. rewrite dict_mem_In, In_keys_Counter, existsb_exists.
  split.
  - intros Hin. exists t. split; [assumption | apply String.eqb_refl].
  - intros [w [Hin Heq]]. apply String.eqb_eq in Heq. now subst.
Qed.

(** ** The document frequencies *)

Lemma get_count_terms_notin terms df t :
  ~ In t terms -> dict_get_default t 0 (count_terms terms df) = dict_get_default t 0 df.
Proof.
  revert df. induction terms as [|w terms IH]; intros df Hnin; simpl.
  - reflexivity.
  - rewrite IH by (simpl in Hnin; tauto).
    unfold dict_get_default. rewrite dict_get_set_other; [reflexivity|].
    simpl in Hnin. intuition congruence.
Qed.

(** Counting a list of distinct terms adds one to each of them. *)
Lemma get_count_terms terms df t :
  NoDup terms ->
  dict_get_default t 0 (count_terms terms df)
  = dict_get_default t 0 df + (if in_dec string_dec t terms then 1 else 0).
Proof.
  intros Hnd. revert df. induction Hnd as [|w terms Hw Hnd IH]; intros df; simpl.
  - lia.
  - destruct (string_dec w t) as [->|Hne].
    + rewrite get_count_terms_notin by assumption.
      unfold dict_get_default at 1. rewrite dict_get_set_same. reflexivity.
    + rewrite IH. unfold dict_get_default at 1.
      rewrite dict_get_set_other by congruence.
      fold (dict_get_default t 0 df).
      destruct (in_dec string_dec t terms); reflexivity.
Qed.

(** ** [add_document] *)

Lemma for_eachM_assign {X : Type} (f : X -> Engine -> Engine) (l : list X) self :
  for_eachM (fun x => assign (f x)) l self
  = (fold_left (fun self x => f x self) l self, Ok tt).
Proof.
  revert self. induction l as [|x l IH]; intros self; simpl.
  - reflexivity.
  - unfold bindM, assign at 1. apply IH.
Qed.

Lemma bump_frequencies terms self :
  fold_left (fun self word => bump_frequency word self) terms self
  = {| documents := documents self;
       index := index self;
       document_frequencies := count_terms terms (document_frequencies self);
       total_documents := total_documents self |}.
Proof.
  revert self. induction terms as [|w terms IH]; intros self; simpl.
  - now destruct self.
  - rewrite IH. reflexivity.
Qed.

(** A call with a [str] runs to its end and leaves the fully indexed state. *)
Lemma add_document_str doc_id text self :
  add_document doc_id (PStr text) self = (indexed doc_id text self, Ok tt).
Proof.
  unfold add_document, bindM. simpl.
  rewrite for_eachM_assign, bump_frequencies. reflexivity.
Qed.

Lemma add_document_not_a_str doc_id text self :
  isinstance_str text = false ->
  add_document doc_id text self
  = (self, Raise (ValueError "Document text must be a string")).
Proof. destruct text; [discriminate | reflexivity | reflexivity]. Qed.

Lemma document_frequency_indexed doc_id text self term :
  document_frequency (indexed doc_id text self) term
  = document_frequency self term + (if mentions term text then 1 else 0).
Proof.
  unfold document_frequency. simpl.
  rewrite get_count_terms by apply NoDup_keys_Counter.
  destruct (in_dec string_dec term (keys (Counter (tokens_of text)))) as [Hin|Hnin];
    rewrite In_keys_Counter in *.
  - apply mentions_In in Hin. now rewrite Hin.
  - destruct (mentions term text) eqn:Hm; [|reflexivity].
    apply mentions_In in Hm. contradiction.
Qed.

Lemma after_add_document_str doc_id text self :
  after (add_document doc_id (PStr text)) self = indexed doc_id text self.
Proof. unfold after. now rewrite add_document_str. Qed.

Lemma after_add_document doc_id text self :
  after (add_document doc_id text) self
  = match text with
    | PStr s => indexed doc_id s self
    | _ => self
    end.
Proof. destruct text; [apply after_add_document_str | reflexivity | reflexivity]. Qed.

(** C7: a call of [add_document] with a [str] applies the whole mutation
    (text stored, term-frequency map stored, one more document counted for
    each of its terms, total recomputed from the store) and returns; a call
    with anything else raises the [ValueError] of the type check and leaves
    [self] as it was. *)
Theorem add_document_atomic self doc_id text :
  (forall s, text = PStr s ->
     exists self',
       add_document doc_id text self = (self', Ok tt)
       /\ documents self' = dict_set doc_id s (documents self)
       /\ (exists concordance,
              create_concordance text = Ok concordance
              /\ index self' = dict_set doc_id concordance (index self))
       /\ (forall term,
              document_frequency self' term
              = document_frequency self term + (if mentions term s then 1 else 0))
       /\ total_documents self' = len (documents self'))
  /\ (isinstance_str text = false ->
      add_document doc_id text self
      = (self, Raise (ValueError "Document text must be a string"))).
Proof.
  split.
  - intros s ->. exists (indexed doc_id s self).
    split; [apply add_document_str|].
    split; [reflexivity|].
    split; [exists (Counter (tokens_of s)); split; reflexivity|].
    split; [intros term; apply document_frequency_indexed | reflexivity].
  - apply add_document_not_a_str.
Qed.

Lemma add_document_atomic_witness :
  add_document (IdInt 0) (PInt 7) init
  = (init, Raise (ValueError "Document text must be a string"))
  /\ exists self',
       add_document (IdStr "a") (PStr "cat dog cat") init = (self', Ok tt)
       /\ documents self' = [(IdStr "a", "cat dog cat")]
       /\ total_documents self' = 1.
Proof.
  split.
  - apply (proj2 (add_document_atomic init (IdInt 0) (PInt 7))). reflexivity.
  - destruct (proj1 (add_document_atomic init (IdStr "a") (PStr "cat dog cat"))
                _ eq_refl) as [self' [Hrun [Hdocs [_ [_ Htotal]]]]].
    exists self'. split; [exact Hrun|]. split; [exact Hdocs|].
    rewrite Htotal, Hdocs. reflexivity.
Defined.

(** The count of a term never goes down. *)
Lemma document_frequency_monotone self doc_id text term :
  document_frequency self term
  <= document_frequency (after (add_document doc_id text) self) term.
Proof.
  rewrite after_add_document. destruct text; try lia.
  rewrite document_frequency_indexed. destruct (mentions term s); lia.
Qed.

(** C1: the document frequency of a term is the number of stored documents
    whose term-frequency map contains it.  Re-adding an identifier breaks
    it: after [add_document(1, "a")] twice the store holds one document and
    the frequency of ["a"] is 2. *)
Theorem add_document_overwrite_miscounts :
  let self := add_documents [(IdInt 1, "a"); (IdInt 1, "a")] init in
  reachable self
  /\ documents self = [(IdInt 1, "a")]
  /\ index self = [(IdInt 1, [("a", 1)])]
  /\ document_frequency self "a" = 2
  /\ documents_containing self "a" = 1
  /\ total_documents self = 1.
Proof.
  split; [|repeat split; reflexivity].
  apply (reachable_add _ (IdInt 1) (PStr "a")).
  apply (reachable_add _ (IdInt 1) (PStr "a")).
  apply reachable_init.
Qed.

(** ** Documents with distinct identifiers *)

Lemma add_documents_cons doc_id text docs self :
  add_documents ((doc_id, text) :: docs) self
  = add_documents docs (indexed doc_id text self).
Proof. unfold add_documents. cbn [fold_left]. now rewrite after_add_document_str. Qed.

Lemma texts_containing_cons term doc_id text docs :
  texts_containing term ((doc_id, text) :: docs)
  = (if mentions term text then 1 else 0) + texts_containing term docs.
Proof.
  unfold texts_containing. cbn [filter].
  destruct (mentions term text); cbn [List.length]; lia.
Qed.

(** Each call counts its document once, whatever the identifiers. *)
Lemma document_frequency_add_documents docs self term :
  document_frequency (add_documents docs self) term
  = document_frequency self term + texts_containing term docs.
Proof.
  revert self. induction docs as [|[doc_id text] docs IH]; intros self.
  - unfold texts_containing. simpl. lia.
  - rewrite add_documents_cons, IH, document_frequency_indexed, texts_containing_cons.
    lia.
Qed.

Lemma texts_containing_bounds term docs :
  0 <= texts_containing term docs <= Z.of_nat (List.length docs).
Proof.
  unfold texts_containing. split; [lia|].
  apply inj_le. apply filter_length_le.
Qed.

Lemma texts_containing_pos term docs :
  (exists d, In d docs /\ mentions term (snd d) = true) ->
  1 <= texts_containing term docs.
Proof.
  intros [[doc_id text] [Hin Hm]]. simpl in Hm.
  induction docs as [|[doc_id' text'] docs IH]; [contradiction|].
  rewrite texts_containing_cons.
  pose proof (texts_containing_bounds term docs) as Hb.
  destruct Hin as [Heq|Hin].
  - inversion Heq; subst. rewrite Hm. lia.
  - specialize (IH Hin). destruct (mentions term text'); lia.
Qed.

(** New identifiers append to the store and to the index, in order. *)
Lemma store_add_documents docs self :
  NoDup (map fst docs) ->
  (forall doc_id, In doc_id (map fst docs) -> ~ In doc_id (keys (documents self))) ->
  (forall doc_id, In doc_id (map fst docs) -> ~ In doc_id (keys (index self))) ->
  documents (add_documents docs self) = documents self ++ docs
  /\ index (add_documents docs self)
     = index self ++ map (fun '(doc_id, text) => (doc_id, Counter (tokens_of text))) docs.
Proof.
  revert self. induction docs as [|[doc_id text] docs IH]; intros self Hnd Hdocs Hindex.
  - simpl. now rewrite !app_nil_r.
  - rewrite add_documents_cons. simpl in Hnd. inversion Hnd as [|? ? Hfresh Hnd']; subst.
    destruct (IH (indexed doc_id text self) Hnd') as [IHd IHi].
    + intros id Hin. simpl. rewrite In_keys_dict_set. intros [->|Hold].
      * contradiction.
      * apply (Hdocs id); [now right | assumption].
    + intros id Hin. simpl. rewrite In_keys_dict_set. intros [->|Hold].
      * contradiction.
      * apply (Hindex id); [now right | assumption].
    + rewrite IHd, IHi. simpl.
      rewrite !dict_set_fresh by (first [apply Hdocs | apply Hindex]; now left).
      rewrite <- !app_assoc. split; reflexivity.
Qed.

Lemma total_documents_add_documents docs self :
  total_documents self = len (documents self) ->
  total_documents (add_documents docs self) = len (documents (add_documents docs self)).
Proof.
  revert self. induction docs as [|[doc_id text] docs IH]; intros self Hself.
  - exact Hself.
  - rewrite add_documents_cons. apply IH. reflexivity.
Qed.

(** C4: after adding N documents with pairwise distinct identifiers to a
    fresh engine, the store holds these N documents, and the document
    frequency of every term occurring in one of them lies between 1 and N
    and is the number of those documents whose tokenized text contains the
    term. *)
Theorem document_frequency_distinct_documents docs term :
  NoDup (map fst docs) ->
  (exists d, In d docs /\ mentions term (snd d) = true) ->
  let self := add_documents docs init in
  let N := Z.of_nat (List.length docs) in
  documents self = docs
  /\ total_documents self = N
  /\ 1 <= document_frequency self term <= N
  /\ document_frequency self term = texts_containing term docs.
Proof.
  intros Hnd Hterm self N.
  assert (Hdocs : documents self = docs).
  { destruct (store_add_documents docs init Hnd) as [Hd _]; simpl; auto. }
  assert (Hdf : document_frequency self term = texts_containing term docs).
  { unfold self. rewrite document_frequency_add_documents. reflexivity. }
  split; [exact Hdocs|].
  split.
  - unfold self. rewrite total_documents_add_documents by reflexivity.
    fold self. rewrite Hdocs. reflexivity.
  - rewrite Hdf. split; [|reflexivity].
    pose proof (texts_containing_bounds term docs).
    pose proof (texts_containing_pos term docs Hterm). unfold N. lia.
Qed.

Lemma document_frequency_distinct_documents_witness :
  let docs := [(IdStr "a", "cat dog cat"); (IdStr "b", "dog bird")] in
  document_frequency (add_documents docs init) "dog" = 2
  /\ texts_containing "dog" docs = 2.
Proof.
  intros docs.
  assert (Hnd : NoDup (map fst docs)).
  { repeat constructor; simpl; intuition discriminate. }
  assert (Hterm : exists d, In d docs /\ mentions "dog" (snd d) = true).
  { exists (IdStr "a", "cat dog cat"). split; [now left | reflexivity]. }
  destruct (document_frequency_distinct_documents docs "dog" Hnd Hterm)
    as [_ [_ [_ Hdf]]].
  split; [rewrite Hdf|]; reflexivity.
Defined.

(** ** Loops *)

Lemma for_each_invariant {A X : Type} (P : A -> Prop) (body : A -> X -> result A) l :
  (forall acc x acc', In x l -> P acc -> body acc x = Ok acc' -> P acc') ->
  forall acc r, P acc -> for_each body l acc = Ok r -> P r.
Proof.
  induction l as [|x l IH]; intros Hbody acc r Hacc Hrun; simpl in Hrun.
  - now inversion Hrun; subst.
  - destruct (body acc x) as [acc'|e] eqn:Hstep; simpl in Hrun; [|discriminate].
    apply (IH (fun acc0 x0 acc1 Hin => Hbody acc0 x0 acc1 (or_intror Hin)) acc');
      [|assumption].
    apply (Hbody acc x); [now left | assumption | assumption].
Qed.

Lemma for_each_returns {A X : Type} (body : A -> X -> result A) l :
  (forall acc x, In x l -> exists acc', body acc x = Ok acc') ->
  forall acc, exists r, for_each body l acc = Ok r.
Proof.
  induction l as [|x l IH]; intros Hbody acc; simpl.
  - now exists acc.
  - destruct (Hbody acc x (or_introl eq_refl)) as [acc' ->]. simpl.
    apply IH. intros acc0 x0 Hin. apply Hbody. now right.
Qed.

(** ** Slices *)

Lemma slice_to_firstn {A : Type} stop (l : list A) :
  exists n, slice_to stop l = firstn n l.
Proof. unfold slice_to. destruct (stop <? 0); eauto. Qed.

Lemma slice_to_length {A : Type} stop (l : list A) :
  0 <= stop -> Z.of_nat (List.length (slice_to stop l)) <= stop.
Proof.
  intros Hstop. unfold slice_to.
  destruct (Z.ltb_spec stop 0) as [Hneg|_]; [lia|].
  rewrite length_firstn. lia.
Qed.

Lemma Forall_firstn_of {A : Type} (P : A -> Prop) n (l : list A) :
  Forall P l -> Forall P (firstn n l).
Proof.
  intros Hall. revert n. induction Hall as [|x l Hx Hall IH]; intros [|n]; simpl;
    constructor; auto.
Qed.

Lemma StronglySorted_firstn {A : Type} (R : A -> A -> Prop) n (l : list A) :
  StronglySorted R l -> StronglySorted R (firstn n l).
Proof.
  intros Hs. revert n. induction Hs as [|x l Hs IH Hx]; intros [|n]; simpl;
    constructor; auto using Forall_firstn_of.
Qed.

(** ** The empty index *)

(** C3, as amended: on an engine without documents, [search] returns the
    empty list for every query that is not empty once stripped; and a query
    that is empty once stripped raises the error of an invalid query in
    every state, the one without documents included.  Both hold in any
    arithmetic. *)
Theorem search_empty_index {F : Type} `{Numeric F} self query max_results :
  (documents self = [] ->
   is_empty (strip query) = false ->
   search (F := F) self (PStr query) max_results = Ok [])
  /\ (is_empty (strip query) = true ->
      search (F := F) self (PStr query) max_results
      = Raise (ValueError "Query must be a non-empty string")).
Proof.
  split.
  - intros Hdocs Hquery. unfold search. rewrite Hquery, Hdocs. reflexivity.
  - intros Hquery. unfold search. rewrite Hquery. reflexivity.
Qed.

Lemma search_empty_index_witness :
  search (F := R) init (PStr "free software") 10 = Ok []
  /\ search (F := R) init (PStr (String (ascii_of_nat 9) " ")) 10
     = Raise (ValueError "Query must be a non-empty string")
  /\ search (F := R) cat_dog (PStr "") 10
     = Raise (ValueError "Query must be a non-empty string").
Proof.
  split; [|split].
  - apply (proj1 (search_empty_index (F := R) init "free software" 10)); reflexivity.
  - apply (proj2 (search_empty_index (F := R) init (String (ascii_of_nat 9) " ") 10)).
    reflexivity.
  - apply (proj2 (search_empty_index (F := R) cat_dog "" 10)). reflexivity.
Defined.

(** C3, as stated, fails on a blank query: the check of the query comes
    first and raises, also when the index is empty. *)
Lemma search_empty_index_blank_query :
  documents init = []
  /\ search (F := R) init (PStr "  ") 10
     = Raise (ValueError "Query must be a non-empty string")
  /\ search (F := R) init (PStr "  ") 10 <> Ok [].
Proof. repeat split. discriminate. Qed.

(** ** Exact arithmetic *)

Lemma Reqb_true x y : x = y -> Reqb x y = true.
Proof. intros Heq. unfold Reqb. destruct (Req_dec_T x y); congruence. Qed.

Lemma Reqb_false x y : x <> y -> Reqb x y = false.
Proof. intros Hne. unfold Reqb. destruct (Req_dec_T x y); congruence. Qed.

Lemma Rltb_true x y : (x < y)%R -> Rltb x y = true.
Proof. intros Hlt. unfold Rltb. destruct (Rlt_dec x y); [reflexivity | contradiction]. Qed.

Lemma Rltb_false x y : (y <= x)%R -> Rltb x y = false.
Proof. intros Hle. unfold Rltb. destruct (Rlt_dec x y); [lra | reflexivity]. Qed.

Lemma Rltb_lt x y : Rltb x y = true -> (x < y)%R.
Proof. unfold Rltb. destruct (Rlt_dec x y); [auto | discriminate]. Qed.

Lemma Rltb_ge x y : Rltb x y = false -> (y <= x)%R.
Proof. unfold Rltb. destruct (Rlt_dec x y); [discriminate | lra]. Qed.

Lemma int_truediv_R a b : b <> 0 -> int_truediv (F := R) a b = Ok (IZR a / IZR b)%R.
Proof.
  intros Hb. unfold int_truediv. destruct (Z.eqb_spec b 0); [contradiction | reflexivity].
Qed.

Lemma math_log_R x : (0 < x)%R -> math_log (F := R) x = Ok (ln x).
Proof. intros Hx. unfold math_log. simpl. now rewrite Rltb_true. Qed.

Lemma ratio_pos a b : 0 < a -> 0 < b -> (0 < IZR a / IZR b)%R.
Proof.
  intros Ha Hb. apply Rdiv_lt_0_compat; apply IZR_lt; assumption.
Qed.

(** ** The weight of a term *)



(** ** Cosine similarity *)

(** The magnitudes are computed before the test for zero: what the
    computation of a magnitude raises, the similarity raises. *)
Lemma cosine_similarity_raises_first {F : Type} `{Arith F} (vec1 vec2 : vector F) e :
  vector_magnitude vec1 = Raise e -> cosine_similarity vec1 vec2 = Raise e.
Proof. intros Hmag. unfold cosine_similarity. now rewrite Hmag. Qed.

Lemma cosine_similarity_raises_second {F : Type} `{Arith F} (vec1 vec2 : vector F) mag1 e :
  vector_magnitude vec1 = Ok mag1 -> vector_magnitude vec2 = Raise e ->
  cosine_similarity vec1 vec2 = Raise e.
Proof. intros Hmag1 Hmag2. unfold cosine_similarity. now rewrite Hmag1, Hmag2. Qed.

(** Against a vector of magnitude 0 the similarity is 0, in any
    arithmetic. *)
Lemma cosine_similarity_zero_magnitude {F : Type} `{Arith F} (vec1 vec2 : vector F)
    mag1 mag2 :
  vector_magnitude vec1 = Ok mag1 -> vector_magnitude vec2 = Ok mag2 ->
  feqb mag1 fzero || feqb mag2 fzero = true ->
  cosine_similarity vec1 vec2 = Ok fzero.
Proof.
  intros Hmag1 Hmag2 Hzero. unfold cosine_similarity.
  rewrite Hmag1, Hmag2. cbn [bind]. now rewrite Hzero.
Qed.

Lemma fold_Rplus_shift (xs : list R) (acc : R) :
  fold_left Rplus xs acc = (acc + fold_left Rplus xs 0)%R.
Proof.
  revert acc. induction xs as [|x xs IH]; intros acc; simpl.
  - lra.
  - rewrite IH, (IH (0 + x)%R). lra.
Qed.

Lemma fsum_cons (x : R) xs : fsum (x :: xs) = (x + fsum xs)%R.
Proof. unfold fsum. simpl. rewrite fold_Rplus_shift. lra. Qed.

Lemma sum_squares_nonneg (xs : list R) : (0 <= fsum (map square xs))%R.
Proof.
  induction xs as [|x xs IH].
  - unfold fsum. simpl. lra.
  - simpl map. rewrite fsum_cons. change (square x) with (x * x)%R. nra.
Qed.

Lemma sum_squares_zeros (xs : list R) :
  Forall (fun x => x = 0%R) xs -> fsum (map square xs) = 0%R.
Proof.
  induction 1 as [|x xs Hx _ IH].
  - reflexivity.
  - simpl map. rewrite fsum_cons, IH, Hx. change (square 0%R) with (0 * 0)%R. lra.
Qed.

(** In exact arithmetic no square is out of range and no sum of squares is
    negative: [vector_magnitude] returns the Euclidean norm. *)
Lemma pow2_R (x : R) : pow2 x = Ok (square x).
Proof. reflexivity. Qed.

Lemma sum_of_squares_R (xs : list R) (acc : R) :
  for_each (fun total value => square <- pow2 value ;; Ok (fadd total square))%result
    xs acc
  = Ok (fold_left Rplus (map square xs) acc).
Proof.
  revert acc. induction xs as [|x xs IH]; intros acc; [reflexivity|].
  cbn [for_each map fold_left]. rewrite pow2_R. cbn [bind]. apply IH.
Qed.

Lemma vector_magnitude_R (vec : vector R) : vector_magnitude vec = Ok (norm vec).
Proof.
  unfold vector_magnitude. rewrite sum_of_squares_R. cbn [bind].
  unfold math_sqrt. change (fold_left Rplus (map square (values vec)) fzero)
    with (sum_squares vec).
  change (fltb (sum_squares vec) fzero) with (Rltb (sum_squares vec) 0).
  unfold Rltb. destruct (Rlt_dec (sum_squares vec) 0) as [Hneg|_]; [|reflexivity].
  pose proof (sum_squares_nonneg (values vec)) as Hpos.
  unfold sum_squares in Hneg. lra.
Qed.

Lemma cosine_similarity_R (vec1 vec2 : vector R) :
  cosine_similarity vec1 vec2
  = if Reqb (norm vec1) 0 || Reqb (norm vec2) 0 then Ok 0%R
    else truediv (dot_product vec1 vec2) (norm vec1 * norm vec2)%R.
Proof. unfold cosine_similarity. now rewrite !vector_magnitude_R. Qed.

Lemma cosine_similarity_zero_norm (vec1 vec2 : vector R) :
  Reqb (norm vec1) 0 || Reqb (norm vec2) 0 = true ->
  cosine_similarity vec1 vec2 = Ok 0%R.
Proof. intros Hzero. rewrite cosine_similarity_R. now rewrite Hzero. Qed.

Lemma norm_zeros (vec : vector R) :
  Forall (fun x => x = 0%R) (values vec) -> norm vec = 0%R.
Proof.
  intros Hzero. unfold norm, sum_squares.
  rewrite sum_squares_zeros by assumption. apply sqrt_0.
Qed.

(** The dot product of a vector with itself is its sum of squares. *)
Lemma dot_product_items (items vec : vector R) acc :
  (forall term x, In (term, x) items -> dict_get term vec = Some x) ->
  fold_left
    (fun dot '(term, x) =>
       match dict_get term vec with
       | Some y => fadd dot (fmul x y)
       | None => dot
       end)
    items acc
  = fold_left Rplus (map square (values items)) acc.
Proof.
  revert acc. induction items as [|[term x] items IH]; intros acc Hget; simpl.
  - reflexivity.
  - rewrite (Hget term x) by now left.
    apply IH. intros term' x' Hin. apply Hget. now right.
Qed.

Lemma dot_product_self (vec : vector R) :
  NoDup (keys vec) -> dot_product vec vec = sum_squares vec.
Proof.
  intros Hnd. unfold dot_product, sum_squares, fsum. apply dot_product_items.
  intros term x Hin. now apply dict_get_In.
Qed.

Lemma cosine_similarity_self (vec : vector R) :
  NoDup (keys vec) -> norm vec <> 0%R -> cosine_similarity vec vec = Ok 1%R.
Proof.
  intros Hnd Hmag. rewrite cosine_similarity_R.
  rewrite dot_product_self by assumption. unfold norm in *.
  set (S := sum_squares vec) in *.
  pose proof (sum_squares_nonneg (values vec)) as HS. fold (sum_squares vec) in HS.
  fold S in HS.
  rewrite (Reqb_false (R_sqrt.sqrt S) 0) by assumption. simpl.
  unfold truediv. simpl. rewrite sqrt_sqrt by assumption.
  assert (HS0 : S <> 0%R).
  { intros Habs. apply Hmag. rewrite Habs. apply sqrt_0. }
  rewrite Reqb_false by assumption. f_equal. now field.
Qed.

Section Binary64.
Import PrimFloat.

(** In binary64 a vector whose weights are all zeros, of either sign, has
    magnitude [0.0]. *)
Lemma sum_of_squares_zeros_binary64 (xs : list float) :
  Forall (fun x => x = 0%float \/ x = (-0)%float) xs ->
  for_each (fun total value => square <- pow2 value ;; Ok (fadd total square))%result
    xs 0%float
  = Ok 0%float.
Proof.
  induction 1 as [|x xs Hx _ IH]; [reflexivity|].
  cbn [for_each]. destruct Hx as [-> | ->]; exact IH.
Qed.

Lemma vector_magnitude_zeros_binary64 (zero : vector float) :
  Forall (fun x => x = 0%float \/ x = (-0)%float) (values zero) ->
  vector_magnitude zero = Ok 0%float.
Proof.
  intros Hzero. unfold vector_magnitude.
  change (@fzero float binary64) with 0%float.
  now rewrite sum_of_squares_zeros_binary64.
Qed.

(** C9, as amended.  In exact arithmetic the magnitude of every vector is
    computed, the similarity of a vector of nonzero magnitude with itself
    is 1, and the similarity of every vector with a vector whose weights
    are all 0 is 0, on either side.  In any arithmetic, the magnitudes are
    computed first: if that raises, the similarity raises the same error,
    and if one of the two magnitudes is 0 the similarity is exactly 0.  In
    binary64 a vector whose weights are all zeros has magnitude 0, so the
    similarity with it is exactly 0 for every vector whose own magnitude
    is computed. *)
Theorem cosine_similarity_self_and_zero :
  (forall vec : vector R, exists mag : R, vector_magnitude vec = Ok mag)
  /\ (forall (vec : vector R) (mag : R),
        NoDup (keys vec) -> vector_magnitude vec = Ok mag -> mag <> 0%R ->
        cosine_similarity vec vec = Ok 1%R)
  /\ (forall vec zero : vector R,
        Forall (fun x => x = 0%R) (values zero) ->
        vector_magnitude zero = Ok 0%R
        /\ cosine_similarity vec zero = Ok 0%R
        /\ cosine_similarity zero vec = Ok 0%R)
  /\ (forall (F : Type) (arith : Arith F) (vec1 vec2 : vector F),
        (forall e,
            vector_magnitude vec1 = Raise e ->
            cosine_similarity vec1 vec2 = Raise e)
        /\ (forall mag1 e,
              vector_magnitude vec1 = Ok mag1 -> vector_magnitude vec2 = Raise e ->
              cosine_similarity vec1 vec2 = Raise e)
        /\ (forall mag1 mag2,
              vector_magnitude vec1 = Ok mag1 -> vector_magnitude vec2 = Ok mag2 ->
              feqb mag1 fzero || feqb mag2 fzero = true ->
              cosine_similarity vec1 vec2 = Ok fzero))
  /\ (forall (vec zero : vector float) (mag : float),
        Forall (fun x => x = 0%float \/ x = (-0)%float) (values zero) ->
        vector_magnitude vec = Ok mag ->
        vector_magnitude zero = Ok 0%float
        /\ cosine_similarity vec zero = Ok 0%float
        /\ cosine_similarity zero vec = Ok 0%float).
Proof.
  split; [|split; [|split; [|split]]].
  - intros vec. exists (norm vec). apply vector_magnitude_R.
  - intros vec mag Hnd Hmag Hnz. rewrite vector_magnitude_R in Hmag.
    apply cosine_similarity_self; [assumption | congruence].
  - intros vec zero Hzero. apply norm_zeros in Hzero.
    split; [now rewrite vector_magnitude_R, Hzero|].
    split; apply cosine_similarity_zero_norm; rewrite Hzero, (Reqb_true 0 0) by reflexivity.
    + apply orb_true_r.
    + reflexivity.
  - intros F arith vec1 vec2. split; [|split].
    + apply cosine_similarity_raises_first.
    + apply cosine_similarity_raises_second.
    + apply cosine_similarity_zero_magnitude.
  - intros vec zero mag Hzero Hmag.
    apply vector_magnitude_zeros_binary64 in Hzero.
    split; [exact Hzero|].
    split.
    + apply (cosine_similarity_zero_magnitude vec zero mag 0%float Hmag Hzero).
      apply orb_true_r.
    + now apply (cosine_similarity_zero_magnitude zero vec 0%float mag Hzero Hmag).
Qed.

Lemma cosine_similarity_self_and_zero_witness :
  cosine_similarity [("cat", 3%R); ("dog", 4%R)] [("cat", 3%R); ("dog", 4%R)] = Ok 1%R
  /\ cosine_similarity [("cat", 3%R); ("dog", 4%R)] [("cat", 0%R)] = Ok 0%R
  /\ cosine_similarity [("cat", 0x1p+700%float)] [("cat", 0%float)]
     = Raise OverflowError
  /\ cosine_similarity [("cat", 3%float); ("dog", 4%float)] [("cat", (-0)%float)]
     = Ok 0%float.
Proof.
  assert (Hmag : vector_magnitude [("cat", 3%R); ("dog", 4%R)] = Ok 5%R).
  { rewrite vector_magnitude_R. f_equal. unfold norm, sum_squares, fsum, square. simpl.
    replace (0 + 3 * 3 + 4 * 4)%R with (5 * 5)%R by lra.
    apply sqrt_square. lra. }
  destruct cosine_similarity_self_and_zero
    as [_ [Hself [Hzero [Hany Hfloat]]]].
  split; [|split; [|split]].
  - apply (Hself [("cat", 3%R); ("dog", 4%R)] 5%R).
    + repeat constructor; simpl; intuition discriminate.
    + exact Hmag.
    + lra.
  - apply (Hzero [("cat", 3%R); ("dog", 4%R)] [("cat", 0%R)]).
    repeat constructor.
  - apply (proj1 (Hany float binary64 [("cat", 0x1p+700%float)] [("cat", 0%float)])).
    reflexivity.
  - apply (Hfloat [("cat", 3%float); ("dog", 4%float)] [("cat", (-0)%float)] 5%float).
    + apply Forall_cons; [now right | apply Forall_nil].
    + reflexivity.
Defined.

(** C9, as stated, fails in binary64 arithmetic.  The vector
    [{"x": 1.0, "y": 1.0}] has magnitude [sqrt(2.0)], whose square is above
    2, and its similarity with itself is [0.9999999999999998]; and the
    square of the weight [2.0 ** 700] is out of range, so the similarity of
    [{"x": 2.0 ** 700}] with the zero vector [{"x": 0.0}] is not 0 but an
    [OverflowError], on either side. *)
Lemma cosine_similarity_self_binary64 :
  let vec : vector float := [("x", 1%float); ("y", 1%float)] in
  let large : vector float := [("x", 0x1p+700%float)] in
  let zero : vector float := [("x", 0%float)] in
  vector_magnitude vec = Ok 0x1.6a09e667f3bcdp+0%float
  /\ cosine_similarity vec vec = Ok 0x1.ffffffffffffep-1%float
  /\ PrimFloat.eqb 0x1.ffffffffffffep-1%float 1%float = false
  /\ vector_magnitude zero = Ok 0%float
  /\ cosine_similarity large zero = Raise OverflowError
  /\ cosine_similarity zero large = Raise OverflowError.
Proof. vm_compute. repeat split. Qed.

Example vector_magnitude_binary64 :
  vector_magnitude [("x", 3%float); ("y", 4%float)] = Ok 5%float.
Proof. vm_compute. reflexivity. Qed.
End Binary64.

(** ** The states of an engine *)

Lemma dict_mem_same_keys {K V W : Type} `{EqDec K} (d : dict K V) (d' : dict K W) k :
  keys d = keys d' -> dict_mem k d = dict_mem k d'.
Proof.
  intros Hkeys. apply eq_true_iff_eq. now rewrite !dict_mem_In, Hkeys.
Qed.

Lemma In_dict_set {K V : Type} `{EqDec K} (d : dict K V) k v k' v' :
  In (k', v') (dict_set k v d) -> (k', v') = (k, v) \/ In (k', v') d.
Proof.
  induction d as [|[k0 v0] d IH]; simpl.
  - intros [Heq|[]]. now left.
  - destruct (eq_dec k k0) as [->|Hne]; simpl.
    + intros [Heq|Hin]; [now left | right; now right].
    + intros [Heq|Hin]; [right; now left|].
      destruct (IH Hin) as [Heq|Hin']; [now left | right; now right].
Qed.

Lemma indexed_consistent doc_id text self :
  consistent self -> consistent (indexed doc_id text self).
Proof.
  intros [Htotal Hkeys Hconc]. constructor; simpl.
  - reflexivity.
  - rewrite !keys_dict_set, Hkeys.
    now rewrite (dict_mem_same_keys (index self) (documents self)).
  - intros id concordance Hin. apply In_dict_set in Hin as [Heq|Hin].
    + inversion Heq; subst. now exists text.
    + now apply (Hconc id).
Qed.

Lemma reachable_consistent self : reachable self -> consistent self.
Proof.
  induction 1 as [|self doc_id text _ IH].
  - constructor; simpl; [reflexivity | reflexivity | contradiction].
  - rewrite after_add_document. destruct text; auto using indexed_consistent.
Qed.

Lemma reachable_add_documents docs self :
  reachable self -> reachable (add_documents docs self).
Proof.
  revert self. induction docs as [|[doc_id text] docs IH]; intros self Hself.
  - exact Hself.
  - unfold add_documents. cbn [fold_left]. apply IH. now constructor.
Qed.

Lemma total_documents_pos self :
  consistent self -> documents self <> [] -> 1 <= total_documents self.
Proof.
  intros [Htotal _ _] Hdocs. rewrite Htotal. unfold len.
  destruct (documents self); [contradiction | simpl; lia].
Qed.

(** ** The weights of a document *)

Lemma calculate_tf_idf_weight self term_freq doc_length doc_freq :
  1 <= doc_freq -> 1 <= total_documents self -> 0 < doc_length ->
  calculate_tf_idf (F := R) self term_freq doc_length doc_freq
  = Ok (IZR term_freq / IZR doc_length
        * ln (IZR (total_documents self) / IZR doc_freq))%R.
Proof.
  intros Hdf Htotal Hlen. unfold calculate_tf_idf.
  destruct (Z.eqb_spec doc_freq 0); [lia|].
  destruct (Z.ltb_spec 0 doc_length); [|lia].
  destruct (Z.ltb_spec 0 doc_freq); [|lia].
  rewrite !int_truediv_R by lia. simpl.
  rewrite math_log_R by (apply ratio_pos; lia). reflexivity.
Qed.

Lemma calculate_tf_idf_returns self term_freq doc_length doc_freq :
  1 <= total_documents self ->
  exists weight, calculate_tf_idf (F := R) self term_freq doc_length doc_freq = Ok weight.
Proof.
  intros Htotal. unfold calculate_tf_idf.
  destruct (Z.eqb_spec doc_freq 0); [eauto|].
  assert (Htf : exists tf,
    (if 0 <? doc_length then int_truediv (F := R) term_freq doc_length
     else Ok (of_int 0)) = Ok tf).
  { destruct (Z.ltb_spec 0 doc_length); [|eauto].
    rewrite int_truediv_R by lia. eauto. }
  destruct Htf as [tf ->]. simpl.
  destruct (Z.ltb_spec 0 doc_freq).
  - rewrite int_truediv_R by lia. simpl.
    rewrite math_log_R by (apply ratio_pos; lia). simpl. eauto.
  - simpl. eauto.
Qed.

Lemma create_tfidf_vector_returns self concordance :
  1 <= total_documents self ->
  exists doc_vector, create_tfidf_vector (F := R) self concordance = Ok doc_vector.
Proof.
  intros Htotal. unfold create_tfidf_vector. apply for_each_returns.
  intros acc [term freq] _.
  destruct (calculate_tf_idf_returns self freq (sum (values concordance))
              (dict_get_default term 0 (document_frequencies self)) Htotal)
    as [weight ->].
  simpl. eauto.
Qed.

(** In exact arithmetic the similarity is always defined. *)
Lemma cosine_similarity_returns (vec1 vec2 : vector R) :
  exists similarity, cosine_similarity vec1 vec2 = Ok similarity.
Proof.
  rewrite cosine_similarity_R. unfold truediv.
  set (mag1 := norm vec1). set (mag2 := norm vec2).
  change (feqb mag1 fzero) with (Reqb mag1 0).
  change (feqb mag2 fzero) with (Reqb mag2 0).
  change (feqb (fmul mag1 mag2) fzero) with (Reqb (mag1 * mag2) 0).
  destruct (Req_dec_T mag1 0) as [Hz1|Hn1].
  { rewrite (Reqb_true mag1) by assumption. simpl. eauto. }
  destruct (Req_dec_T mag2 0) as [Hz2|Hn2].
  { rewrite (Reqb_true mag2) by assumption. rewrite orb_true_r. eauto. }
  rewrite (Reqb_false mag1), (Reqb_false mag2) by assumption. simpl.
  rewrite Reqb_false; [eauto|].
  intros Hz. apply Rmult_integral in Hz. tauto.
Qed.

(** ** Counts of a concordance *)

Lemma Forall_values_dict_set {K V : Type} `{EqDec K} (P : V -> Prop) (d : dict K V) k v :
  P v -> Forall P (values d) -> Forall P (values (dict_set k v d)).
Proof.
  intros Hv. induction d as [|[k' v'] d IH]; simpl; intros Hall.
  - now constructor.
  - inversion Hall; subst. destruct (eq_dec k k'); simpl; constructor; auto.
Qed.

Lemma Forall_values_get {K V : Type} `{EqDec K} (P : V -> Prop) (d : dict K V) k v :
  Forall P (values d) -> dict_get k d = Some v -> P v.
Proof.
  induction d as [|[k' v'] d IH]; simpl; intros Hall Hget; [discriminate|].
  inversion Hall; subst. destruct (eq_dec k k'); [congruence | auto].
Qed.

(** Every term of a concordance occurs at least once. *)
Lemma Counter_counts_pos tokens : Forall (fun n => 1 <= n) (values (Counter tokens)).
Proof.
  unfold Counter.
  assert (Hacc : forall c : dict string Z,
    Forall (fun n => 1 <= n) (values c) ->
    Forall (fun n => 1 <= n)
      (values (fold_left (fun c w => dict_set w (dict_get_default w 0 c + 1) c) tokens c))).
  { induction tokens as [|w tokens IH]; intros c Hc; simpl; [assumption|].
    apply IH. apply Forall_values_dict_set; [|assumption].
    unfold dict_get_default. destruct (dict_get w c) as [n|] eqn:Hget; [|lia].
    pose proof (Forall_values_get _ c w n Hc Hget). simpl in *. lia. }
  apply Hacc. constructor.
Qed.

Lemma sum_shift xs acc : fold_left Z.add xs acc = acc + sum xs.
Proof.
  unfold sum. revert acc. induction xs as [|x xs IH]; intros acc; simpl.
  - lia.
  - rewrite IH, (IH x). lia.
Qed.

Lemma sum_pos xs : Forall (fun n => 1 <= n) xs -> xs <> [] -> 0 < sum xs.
Proof.
  intros Hall Hne. destruct Hall as [|x xs Hx Hall]; [contradiction|].
  unfold sum. simpl. rewrite sum_shift.
  assert (0 <= sum xs); [|lia].
  clear Hne Hx. induction Hall as [|y ys Hy _ IH]; [reflexivity|].
  unfold sum. simpl. rewrite sum_shift. lia.
Qed.

(** ** The query vector *)

(** The total of a concordance divides the counts of its terms only when
    there is a term: the loop never divides by zero. *)
Lemma query_vector_of_returns self tokens :
  exists query_vector, query_vector_of (F := R) self (Counter tokens) = Ok query_vector.
Proof.
  unfold query_vector_of. apply for_each_returns.
  intros acc [term freq] Hin.
  destruct (dict_mem term (document_frequencies self)); [|eauto].
  rewrite int_truediv_R; [simpl; eauto|].
  assert (0 < sum (values (Counter tokens))); [|lia].
  apply sum_pos; [apply Counter_counts_pos|].
  destruct (Counter tokens); [contradiction | discriminate].
Qed.

(** ** Scoring *)

Lemma score_documents_returns self (query_vector : vector R) :
  consistent self -> documents self <> [] ->
  exists results, score_documents self query_vector = Ok results.
Proof.
  intros Hself Hdocs. pose proof (total_documents_pos self Hself Hdocs) as Htotal.
  unfold score_documents. apply for_each_returns.
  intros acc [doc_id concordance] Hin.
  destruct (create_tfidf_vector_returns self concordance Htotal) as [doc_vector ->].
  simpl.
  destruct (cosine_similarity_returns query_vector doc_vector) as [similarity ->].
  simpl. destruct (Rltb 0 similarity); [|eauto].
  unfold dict_lookup. destruct (dict_get doc_id (documents self)) eqn:Hget.
  - simpl. eauto.
  - exfalso. apply dict_get_None in Hget. apply Hget.
    rewrite <- (index_keys self Hself).
    change (In (fst (doc_id, concordance)) (map fst (index self))). now apply in_map.
Qed.

(** Only the documents of positive similarity are kept. *)
Lemma score_documents_positive self (query_vector : vector R) results :
  score_documents self query_vector = Ok results ->
  Forall (fun h => (0 < score h)%R) results.
Proof.
  unfold score_documents.
  apply (for_each_invariant (fun results => Forall (fun h => (0 < score h)%R) results));
    [|constructor].
  intros acc [doc_id concordance] acc' _ Hacc Hbody.
  destruct (create_tfidf_vector self concordance) as [doc_vector|]; [|discriminate].
  simpl in Hbody.
  destruct (cosine_similarity query_vector doc_vector) as [similarity|]; [|discriminate].
  simpl in Hbody.
  destruct (Rltb 0 similarity) eqn:Hpos.
  - destruct (dict_lookup doc_id (documents self)) as [text|]; [|discriminate].
    simpl in Hbody. inversion Hbody; subst.
    apply Forall_app. split; [assumption|].
    constructor; [|constructor]. simpl. now apply Rltb_lt.
  - now inversion Hbody; subst.
Qed.

(** ** Ranking *)

Lemma Forall_insert_desc (P : hit R -> Prop) h sorted :
  P h -> Forall P sorted -> Forall P (insert_desc h sorted).
Proof.
  intros Hh. induction 1 as [|h' rest Hh' Hrest IH]; simpl.
  - now constructor.
  - destruct (Rltb (score h) (score h')); repeat constructor; auto.
Qed.

Lemma insert_desc_non_increasing h sorted :
  non_increasing sorted -> non_increasing (insert_desc h sorted).
Proof.
  unfold non_increasing.
  induction 1 as [|h' rest Hsorted IH Hh']; simpl.
  - repeat constructor.
  - destruct (Rltb (score h) (score h')) eqn:Hlt.
    + apply Rltb_lt in Hlt. constructor; [assumption|].
      apply Forall_insert_desc; [lra | assumption].
    + apply Rltb_ge in Hlt. constructor; [now constructor|].
      constructor; [assumption|].
      eapply Forall_impl; [|exact Hh']. simpl. intros. lra.
Qed.

Lemma sort_desc_non_increasing (results : list (hit R)) : non_increasing (sort_desc results).
Proof.
  induction results as [|h results IH]; simpl.
  - constructor.
  - now apply insert_desc_non_increasing.
Qed.

Lemma Forall_sort_desc (P : hit R -> Prop) results :
  Forall P results -> Forall P (sort_desc results).
Proof.
  induction 1 as [|h results Hh _ IH]; simpl.
  - constructor.
  - now apply Forall_insert_desc.
Qed.

(** The list that a completed search returns. *)
Lemma search_returned self query max_results (returned : list (hit R)) :
  search self query max_results = Ok returned ->
  returned = []
  \/ exists query_vector results,
       score_documents self query_vector = Ok results
       /\ returned = slice_to max_results (sort_desc results).
Proof.
  unfold search. destruct query as [q| |]; try discriminate.
  destruct (is_empty (strip q)); [discriminate|].
  destruct (documents self); [intros Hret; inversion Hret; now left|].
  destruct (create_concordance (PStr q)) as [concordance|]; [|discriminate].
  simpl. destruct (query_vector_of self concordance) as [query_vector|]; [|discriminate].
  simpl. destruct (score_documents self query_vector) as [results|] eqn:Hscore;
    [|discriminate].
  simpl. intros Hret. inversion Hret; subst. right. eauto.
Qed.

Lemma search_returns self query max_results :
  reachable self -> is_empty (strip query) = false ->
  exists returned : list (hit R), search self (PStr query) max_results = Ok returned.
Proof.
  intros Hself Hquery. apply reachable_consistent in Hself.
  unfold search. rewrite Hquery.
  destruct (documents self) as [|d docs] eqn:Hdocs; [eauto|].
  rewrite create_concordance_str. simpl.
  destruct (query_vector_of_returns self (tokens_of query)) as [query_vector ->].
  simpl.
  destruct (score_documents_returns self query_vector Hself) as [results ->];
    [rewrite Hdocs; discriminate|].
  simpl. eauto.
Qed.

(** C5, as amended: the list that [search] returns is in non-increasing
    order of score, holds only positive scores, and, for a [max_results]
    that is not negative, has at most [max_results] entries; and in every
    state of an engine [search] does return a list for a query that is not
    empty once stripped. *)
Theorem search_ranking self query max_results :
  (forall returned : list (hit R),
      search self query max_results = Ok returned ->
      non_increasing returned
      /\ Forall (fun h => (0 < score h)%R) returned
      /\ (0 <= max_results -> Z.of_nat (List.length returned) <= max_results))
  /\ (reachable self ->
      forall q, query = PStr q -> is_empty (strip q) = false ->
      exists returned : list (hit R), search self query max_results = Ok returned).
Proof.
  split.
  - intros returned Hsearch.
    apply search_returned in Hsearch as [->|[query_vector [results [Hscore ->]]]].
    + repeat split; [constructor | constructor | simpl; lia].
    + apply score_documents_positive in Hscore.
      destruct (slice_to_firstn max_results (sort_desc results)) as [n Hslice].
      split; [|split].
      * rewrite Hslice. apply StronglySorted_firstn, sort_desc_non_increasing.
      * rewrite Hslice. now apply Forall_firstn_of, Forall_sort_desc.
      * apply slice_to_length.
  - intros Hself q -> Hquery. now apply search_returns.
Qed.

(** C5, as stated, fails for a negative [max_results], which the slice
    counts from the end: the returned list is not shorter than
    [max_results]. *)
Lemma search_negative_max_results :
  search (F := R) init (PStr "cat") (-1) = Ok []
  /\ ~ Z.of_nat (List.length (@nil (hit R))) <= -1.
Proof. split; [reflexivity | simpl; lia]. Qed.

(** ** Queries without tokens *)

Lemma for_each_skips {A X : Type} (body : A -> X -> result A) l acc :
  (forall x, In x l -> body acc x = Ok acc) -> for_each body l acc = Ok acc.
Proof.
  induction l as [|x l IH]; intros Hbody; simpl.
  - reflexivity.
  - rewrite Hbody by now left. simpl. apply IH. intros x' Hin. apply Hbody. now right.
Qed.

Lemma norm_empty : norm [] = 0%R.
Proof. unfold norm, fsum. simpl. apply sqrt_0. Qed.

(** C10: in a state with at least one document, a query that is not empty
    once stripped but has no token is answered by the empty list: its
    concordance and its vector are empty, nothing is divided by the zero
    total of the query terms, and no document has a positive similarity. *)
Theorem search_token_free_query self query max_results :
  reachable self ->
  documents self <> [] ->
  is_empty (strip query) = false ->
  tokens_of query = [] ->
  create_concordance (PStr query) = Ok []
  /\ query_vector_of (F := R) self [] = Ok []
  /\ search (F := R) self (PStr query) max_results = Ok [].
Proof.
  intros Hself Hdocs Hquery Htokens. apply reachable_consistent in Hself.
  pose proof (total_documents_pos self Hself Hdocs) as Htotal.
  assert (Hconc : create_concordance (PStr query) = Ok []).
  { rewrite create_concordance_str, Htokens. reflexivity. }
  split; [exact Hconc|]. split; [reflexivity|].
  unfold search. rewrite Hquery.
  destruct (documents self) as [|d docs]; [contradiction|].
  rewrite Hconc. simpl.
  assert (Hscore : score_documents (F := R) self [] = Ok []).
  { unfold score_documents. apply for_each_skips.
    intros [doc_id concordance] _.
    destruct (create_tfidf_vector_returns self concordance Htotal) as [doc_vector ->].
    simpl.
    rewrite (cosine_similarity_zero_norm [] doc_vector).
    - simpl. now rewrite Rltb_false by lra.
    - change (Reqb (norm []) 0
              || Reqb (norm doc_vector) 0 = true).
      rewrite norm_empty, Reqb_true by reflexivity. reflexivity. }
  unfold query_vector_of. simpl. rewrite Hscore. simpl.
  unfold slice_to. destruct (max_results <? 0); now rewrite firstn_nil.
Qed.

Lemma search_token_free_query_witness :
  search (F := R)
    (add_documents [(IdStr "a", "cat dog cat"); (IdStr "b", "dog bird")] init)
    (PStr "?!... ") 5
  = Ok [].
Proof.
  apply search_token_free_query.
  - apply reachable_add_documents, reachable_init.
  - discriminate.
  - reflexivity.
  - reflexivity.
Defined.

(** ** Statistics *)

Lemma len_Counter tokens :
  len (Counter tokens) = Z.of_nat (List.length (nodup string_dec tokens)).
Proof.
  unfold len. f_equal.
  replace (List.length (Counter tokens)) with (List.length (keys (Counter tokens)))
    by apply length_map.
  apply Nat.le_antisymm; apply NoDup_incl_length.
  - apply NoDup_keys_Counter.
  - intros t Ht. apply nodup_In. now apply In_keys_Counter.
  - apply NoDup_nodup.
  - intros t Ht. apply In_keys_Counter. now apply nodup_In in Ht.
Qed.

Lemma count_distinct_terms texts acc :
  for_each
    (fun total doc =>
       (concordance <- create_concordance (PStr doc) ;;
        Ok (total + len concordance))%result)
    texts acc
  = Ok (acc + sum (map distinct_terms texts)).
Proof.
  revert acc. induction texts as [|text texts IH]; intros acc; simpl.
  - unfold sum. simpl. f_equal. lia.
  - rewrite IH. f_equal. unfold sum at 2. simpl. rewrite sum_shift.
    rewrite len_Counter. unfold distinct_terms, tokens_of. simpl. lia.
Qed.

Lemma sum_distinct_terms_nonneg texts : 0 <= sum (map distinct_terms texts).
Proof.
  induction texts as [|text texts IH]; [unfold sum; simpl; lia|].
  unfold sum. simpl. rewrite sum_shift. unfold distinct_terms at 1. lia.
Qed.

(** *** Rounding to two decimals *)

Lemma nearest_even_spec p d :
  0 <= p -> 0 < d ->
  0 <= nearest_even p d
  /\ 2 * Z.abs (p - nearest_even p d * d) <= d
  /\ (2 * Z.abs (p - nearest_even p d * d) = d -> Z.even (nearest_even p d) = true).
Proof.
  intros Hp Hd. unfold nearest_even.
  pose proof (Z.div_mod p d ltac:(lia)) as Hdiv.
  pose proof (Z.mod_pos_bound p d Hd) as Hmod.
  pose proof (Z.div_pos p d Hp Hd) as Hq.
  set (q := p / d) in *. set (r := p mod d) in *.
  destruct (Z.compare_spec (2 * r) d) as [Heq|Hlt|Hgt].
  - destruct (Z.even q) eqn:Heven.
    + split; [lia|]. split; [nia|]. intros _. exact Heven.
    + split; [lia|]. split; [nia|]. intros _.
      rewrite Z.even_add, Heven. reflexivity.
  - split; [lia|]. split; [nia|]. intros Habs. exfalso. nia.
  - split; [lia|]. split; [nia|]. intros Habs. exfalso. nia.
Qed.

Lemma powerRZ_2_nonneg e : 0 <= e -> powerRZ 2 e = IZR (2 ^ e).
Proof.
  intros He. destruct e as [|p|p]; [reflexivity | | lia].
  simpl powerRZ. rewrite pow_IZR. f_equal. now rewrite positive_nat_Z.
Qed.

Lemma powerRZ_2_neg e : e < 0 -> powerRZ 2 e = (/ IZR (2 ^ (- e)))%R.
Proof.
  intros He. destruct e as [|p|p]; [lia | lia |].
  simpl powerRZ. rewrite pow_IZR. f_equal. f_equal. now rewrite positive_nat_Z.
Qed.

Lemma hundredths_spec m e :
  let k := hundredths m e in
  let distance := Rabs (100 * (IZR (Z.pos m) * powerRZ 2 e) - IZR k) in
  0 <= k
  /\ (distance <= 1 / 2)%R
  /\ (distance = (1 / 2)%R -> Z.even k = true).
Proof.
  unfold hundredths. destruct (Z.leb_spec 0 e) as [He|He]; cbv zeta.
  - rewrite powerRZ_2_nonneg by assumption.
    assert (Hpow : 0 < 2 ^ e) by (apply Z.pow_pos_nonneg; lia).
    replace (100 * (IZR (Z.pos m) * IZR (2 ^ e)) - IZR (100 * Z.pos m * 2 ^ e))%R
      with 0%R by (rewrite !mult_IZR; lra).
    rewrite Rabs_R0. split; [nia|]. split; [lra|]. intros Habs. exfalso. lra.
  - rewrite powerRZ_2_neg by assumption.
    set (d := 2 ^ (- e)). assert (Hd : 0 < d) by (apply Z.pow_pos_nonneg; lia).
    destruct (nearest_even_spec (100 * Z.pos m) d ltac:(lia) Hd) as [Hk [Hnear Htie]].
    set (k := nearest_even (100 * Z.pos m) d) in *.
    assert (HdR : (0 < IZR d)%R) by now apply IZR_lt.
    assert (Hdiff :
      (100 * (IZR (Z.pos m) * / IZR d) - IZR k
       = IZR (100 * Z.pos m - k * d) / IZR d)%R).
    { rewrite minus_IZR, !mult_IZR. field. lra. }
    rewrite Hdiff. unfold Rdiv. rewrite Rabs_mult, (Rabs_right (/ IZR d)).
    2:{ apply Rle_ge. left. now apply Rinv_0_lt_compat. }
    rewrite <- abs_IZR.
    set (a := Z.abs (100 * Z.pos m - k * d)) in *.
    assert (Ha : (2 * IZR a <= IZR d)%R).
    { rewrite <- mult_IZR. now apply IZR_le. }
    split; [exact Hk|]. split.
    + apply Rmult_le_reg_r with (IZR d); [assumption|].
      rewrite Rmult_assoc, Rinv_l by lra. lra.
    + intros Heq. apply Htie.
      assert (HaR : (2 * IZR a = IZR d)%R).
      { apply (f_equal (fun x => x * IZR d)%R) in Heq.
        rewrite Rmult_assoc, Rinv_l in Heq by lra. lra. }
      rewrite <- mult_IZR in HaR. now apply eq_IZR in HaR.
Qed.

(** *** The sign of a quotient of ints *)

Section SpecFloatFacts.
Import SpecFloat.
Variables prec emax : Z.

Lemma shr_1_nonneg mrs : 0 <= shr_m mrs -> 0 <= shr_m (shr_1 mrs).
Proof.
  destruct mrs as [m r s]. simpl. intros Hm.
  destruct m as [|[p|p|]|[p|p|]]; simpl; lia.
Qed.

Lemma iter_shr_1_nonneg p mrs :
  0 <= shr_m mrs -> 0 <= shr_m (iter_pos shr_1 p mrs).
Proof.
  revert mrs. induction p as [p IH|p IH|]; intros mrs Hm; simpl.
  - apply IH, IH. now apply shr_1_nonneg.
  - now apply IH, IH.
  - now apply shr_1_nonneg.
Qed.

Lemma shr_fexp_nonneg m e l :
  0 <= m -> 0 <= shr_m (fst (shr_fexp prec emax m e l)).
Proof.
  intros Hm. unfold shr_fexp, shr.
  assert (Hrec : 0 <= shr_m (shr_record_of_loc m l)).
  { destruct l as [|[]]; exact Hm. }
  destruct (_ - e) as [|p|p]; simpl; try assumption.
  now apply iter_shr_1_nonneg.
Qed.

Lemma round_nearest_even_nonneg m l : 0 <= m -> 0 <= round_nearest_even m l.
Proof.
  intros Hm. destruct l as [|[]]; simpl; try lia.
  destruct (Z.even m); lia.
Qed.

Lemma binary_round_aux_nonneg m e l :
  0 <= m -> nonneg_SF (binary_round_aux prec emax false m e l).
Proof.
  intros Hm. unfold binary_round_aux.
  pose proof (shr_fexp_nonneg m e l Hm) as H1.
  destruct (shr_fexp prec emax m e l) as [mrs' e']. simpl in H1.
  pose proof (shr_fexp_nonneg
                (round_nearest_even (shr_m mrs') (loc_of_shr_record mrs')) e' loc_Exact
                (round_nearest_even_nonneg _ _ H1)) as H2.
  destruct (shr_fexp prec emax _ e' loc_Exact) as [mrs'' e'']. simpl in H2.
  destruct (shr_m mrs'') as [|p|p]; simpl; [reflexivity | | lia].
  destruct (e'' <=? emax - prec); reflexivity.
Qed.

Lemma binary_round_nonneg m e : nonneg_SF (binary_round prec emax false m e).
Proof.
  unfold binary_round. destruct (shl_align _ _ _) as [mz ez].
  apply binary_round_aux_nonneg. lia.
Qed.

Lemma SFldexp_nonneg y e : nonneg_SF y -> nonneg_SF (SFldexp prec emax y e).
Proof.
  destruct y as [s|s| |s m e']; simpl; try tauto.
  intros ->. apply binary_round_nonneg.
Qed.

Lemma SFdiv_nonneg a b :
  0 <= a -> 0 < b -> nonneg_SF (SFdiv prec emax (Z2SF a) (Z2SF b)).
Proof.
  intros Ha Hb. destruct b as [|pb|pb]; try lia.
  destruct a as [|pa|pa]; try lia; [reflexivity|].
  unfold Z2SF, SFdiv. cbn [xorb].
  unfold SFdiv_core_binary.
  set (m' := match _ with Z.pos _ => _ | Z0 => _ | Z.neg _ => _ end).
  assert (Hm' : 0 <= m').
  { unfold m'. destruct (_ - _ - _) as [|s|s]; try lia.
    apply Z.shiftl_nonneg. lia. }
  pose proof (Z.div_pos m' (Z.pos pb) Hm' ltac:(lia)) as Hq.
  unfold Z.div in Hq.
  destruct (Z.div_eucl m' (Z.pos pb)) as [q r]. simpl in Hq.
  now apply binary_round_aux_nonneg.
Qed.
End SpecFloatFacts.

Lemma Prim2SF_SF2Prim_nonneg y :
  nonneg_SF y -> nonneg_SF (FloatOps.Prim2SF (FloatOps.SF2Prim y)).
Proof.
  destruct y as [s|s| |s m e]; simpl; try tauto.
  - intros ->. vm_compute. reflexivity.
  - intros ->. vm_compute. reflexivity.
  - intros ->. unfold FloatOps.Z.ldexp.
    rewrite FloatAxioms.ldshiftexp_spec. apply SFldexp_nonneg.
    rewrite FloatAxioms.of_uint63_spec.
    pose proof (Uint63.to_Z_bounded (Uint63.of_Z (Z.pos m))) as Hb.
    destruct (Uint63.to_Z _) as [|p|p]; simpl; [reflexivity | | lia].
    apply binary_round_nonneg.
Qed.

Lemma float_quotient_nonneg a b :
  0 <= a -> 0 < b -> nonneg_SF (FloatOps.Prim2SF (float_quotient a b)).
Proof.
  intros Ha Hb. apply Prim2SF_SF2Prim_nonneg. now apply SFdiv_nonneg.
Qed.

Lemma Prim2SF_infinity x s :
  FloatOps.Prim2SF x = SpecFloat.S754_infinity s -> PrimFloat.is_infinity x = true.
Proof.
  unfold FloatOps.Prim2SF.
  destruct (PrimFloat.is_nan x); [discriminate|].
  destruct (PrimFloat.is_zero x); [discriminate|].
  destruct (PrimFloat.is_infinity x); [reflexivity|].
  destruct (FloatOps.Z.frexp x) as [r exp].
  destruct (SpecFloat.shr_fexp _ _ _ _ _) as [shr e'].
  destruct (SpecFloat.shr_m shr); discriminate.
Qed.

Lemma Prim2SF_zero x :
  FloatOps.Prim2SF x = SpecFloat.S754_zero false -> x = PrimFloat.zero.
Proof.
  intros Hx. rewrite <- (FloatAxioms.SF2Prim_Prim2SF x), Hx. reflexivity.
Qed.

(** Rounding a float that is not negative and not infinite. *)
Lemma round2_nonneg x :
  nonneg_SF (FloatOps.Prim2SF x) -> PrimFloat.is_infinity x = false ->
  exists k : Z,
    round2 x = float_quotient k 100
    /\ (Rabs (100 * float_value x - IZR k) <= 1 / 2)%R
    /\ (Rabs (100 * float_value x - IZR k) = (1 / 2)%R -> Z.even k = true).
Proof.
  intros Hsign Hinf. unfold round2, float_value.
  destruct (FloatOps.Prim2SF x) as [s|s| |s m e] eqn:Hx; simpl in Hsign.
  - subst s. exists 0. rewrite (Prim2SF_zero x Hx).
    split; [reflexivity|].
    replace (100 * 0 - 0)%R with 0%R by lra. rewrite Rabs_R0.
    split; [lra|]. intros Habs. exfalso. lra.
  - apply Prim2SF_infinity in Hx. congruence.
  - contradiction.
  - subst s. exists (hundredths m e).
    destruct (hundredths_spec m e) as [_ [Hnear Htie]]. cbv zeta in *.
    split; [reflexivity|].
    replace (100 * (1 * IZR (Z.pos m) * powerRZ 2 e))%R
      with (100 * (IZR (Z.pos m) * powerRZ 2 e))%R by lra.
    split; assumption.
Qed.

Section Binary64Rounding.
Import PrimFloat.

(** C8: without documents [get_document_stats] returns zeros; otherwise it
    reports the number of documents, the size of the document-frequency
    map as [unique_terms] and, as [avg_doc_length], the mean over the
    stored documents of their numbers of distinct terms, rounded to 2
    decimal places.  In any arithmetic the statistics are those, with the
    mean the quotient of the total by the number of documents, passed to
    [round(., 2)]; a mean too large for a float raises.  In binary64 the
    mean is the float nearest to the exact mean, and [avg_doc_length] is
    the float nearest to [k / 100], where [k] is the integer nearest to
    100 times that float, the even one of the two at a tie. *)
Theorem get_document_stats_contract :
  (forall (F : Type) (ints : IntArith F) (rounding : Rounding F) (self : Engine),
      (documents self = [] ->
       get_document_stats (F := F) self = Ok (mkStats 0 0 (of_int (F := F) 0)))
      /\ (documents self <> [] ->
          let total_terms := sum (map distinct_terms (values (documents self))) in
          let mean := int_quotient (F := F) total_terms (len (documents self)) in
          get_document_stats (F := F) self
          = if fis_inf (F := F) mean then Raise OverflowError
            else Ok (mkStats (total_documents self)
                       (len (document_frequencies self))
                       (fround2 (F := F) mean))))
  /\ (forall self : Engine,
        documents self <> [] ->
        let total_terms := sum (map distinct_terms (values (documents self))) in
        let mean := float_quotient total_terms (len (documents self)) in
        is_infinity mean = false ->
        exists k : Z,
          get_document_stats (F := float) self
          = Ok (mkStats (total_documents self)
                  (len (document_frequencies self))
                  (float_quotient k 100))
          /\ (Rabs (100 * float_value mean - IZR k) <= 1 / 2)%R
          /\ (Rabs (100 * float_value mean - IZR k) = (1 / 2)%R -> Z.even k = true)).
Proof.
  assert (Hany :
    forall (F : Type) (ints : IntArith F) (rounding : Rounding F) (self : Engine),
      documents self <> [] ->
      get_document_stats (F := F) self
      = let mean :=
          int_quotient (F := F) (sum (map distinct_terms (values (documents self))))
            (len (documents self)) in
        if fis_inf (F := F) mean then Raise OverflowError
        else Ok (mkStats (total_documents self)
                   (len (document_frequencies self))
                   (fround2 (F := F) mean))).
  { intros F ints rounding self Hdocs. unfold get_document_stats.
    destruct (documents self) as [|d docs] eqn:Hstore; [contradiction|].
    rewrite count_distinct_terms. cbn [bind]. unfold int_truediv.
    destruct (Z.eqb_spec (len (d :: docs)) 0) as [Hlen|_].
    - unfold len in Hlen. simpl in Hlen. lia.
    - rewrite Z.add_0_l. cbv zeta. destruct (fis_inf _); reflexivity. }
  split.
  - intros F ints rounding self. split.
    + intros Hdocs. unfold get_document_stats. now rewrite Hdocs.
    + intros Hdocs. cbv zeta. now apply Hany.
  - intros self Hdocs total_terms mean Hinf.
    assert (Hsign : nonneg_SF (FloatOps.Prim2SF mean)).
    { apply float_quotient_nonneg; [apply sum_distinct_terms_nonneg|].
      destruct (documents self); [contradiction|]. unfold len. simpl. lia. }
    destruct (round2_nonneg mean Hsign Hinf) as [k [Hround Hnear]].
    exists k. split; [|exact Hnear].
    rewrite (Hany float binary64_IntArith binary64_Rounding self Hdocs).
    cbv zeta.
    change (int_quotient (F := float)
              (sum (map distinct_terms (values (documents self))))
              (len (documents self)))
      with mean.
    change (fis_inf (F := float) mean) with (is_infinity mean). rewrite Hinf.
    change (fround2 (F := float) mean) with (round2 mean).
    now rewrite Hround.
Qed.

(** Without documents the statistics are zeros; with the mean [4 / 3] of
    [cat_dog_bird] the average is [1.33], which is the float nearest to
    133 hundredths. *)
Lemma get_document_stats_contract_witness :
  get_document_stats (F := float) init = Ok (mkStats 0 0 0%float)
  /\ get_document_stats (F := float) cat_dog_bird
     = Ok (mkStats 3 3 0x1.547ae147ae148p+0%float)
  /\ float_quotient 133 100 = 0x1.547ae147ae148p+0%float
  /\ exists k : Z,
       get_document_stats (F := float) cat_dog_bird
       = Ok (mkStats 3 3 (float_quotient k 100))
       /\ (Rabs (100 * float_value (float_quotient 4 3) - IZR k) <= 1 / 2)%R.
Proof.
  destruct get_document_stats_contract as [Hany Hfloat].
  split; [|split; [|split]].
  - refine (proj1 (Hany float binary64_IntArith binary64_Rounding init) _). reflexivity.
  - rewrite (proj2 (Hany float binary64_IntArith binary64_Rounding cat_dog_bird));
      [|discriminate].
    vm_compute. reflexivity.
  - vm_compute. reflexivity.
  - destruct (Hfloat cat_dog_bird) as [k [Hstats [Hnear _]]];
      [discriminate | vm_compute; reflexivity |].
    exists k. split; [exact Hstats | exact Hnear].
Defined.

(** The rounding is that of CPython on the float, not on the exact mean:
    the exact mean [43 / 40] of [forty_documents] is the tie [1.075]; the
    float nearest to it is just below, and the average is [1.07]. *)
Example get_document_stats_tie :
  get_document_stats (F := float) forty_documents
  = Ok (mkStats 40 2 0x1.11eb851eb851fp+0%float)
  /\ float_quotient 43 40 = 0x1.1333333333333p+0%float
  /\ float_quotient 107 100 = 0x1.11eb851eb851fp+0%float.
Proof. vm_compute. repeat split. Qed.

Example round2_examples :
  round2 0.125%float = 0x1.eb851eb851eb8p-4%float
  /\ round2 0.375%float = 0x1.851eb851eb852p-2%float
  /\ round2 2%float = 2%float
  /\ round2 infinity = infinity
  /\ round2 (-0)%float = (-0)%float.
Proof. vm_compute. repeat split. Qed.
End Binary64Rounding.

(** ** Overwriting a document *)

Lemma cosine_similarity_opposite (x y : R) :
  (0 < x)%R -> (y < 0)%R ->
  cosine_similarity [("a", x)] [("a", y)] = Ok (-1)%R.
Proof.
  intros Hx Hy. rewrite cosine_similarity_R.
  unfold norm, sum_squares, dot_product, fsum, square. simpl.
  replace (0 + x * x)%R with (x * x)%R by lra.
  replace (0 + y * y)%R with (- y * - y)%R by lra.
  rewrite !sqrt_square by lra.
  rewrite !Reqb_false by lra. simpl.
  unfold truediv. simpl. rewrite Reqb_false by nra.
  f_equal. field. lra.
Qed.

Lemma ln_half_neg : (ln (1 / 2) < 0)%R.
Proof. rewrite <- ln_1. apply ln_increasing; lra. Qed.

Lemma overwritten_reachable : reachable overwritten.
Proof. apply reachable_add_documents, reachable_init. Qed.

Lemma overwritten_weight :
  create_tfidf_vector (F := R) overwritten [("a", 1)] = Ok [("a", (1 / 1 * ln (1 / 2))%R)].
Proof.
  unfold create_tfidf_vector. cbn [for_each values map snd sum fold_left].
  change (dict_get_default "a" 0 (document_frequencies overwritten)) with 2.
  change (0 + 1) with 1.
  rewrite calculate_tf_idf_weight; [reflexivity | lia | vm_compute; discriminate | lia].
Qed.

(** C2: the weights of an indexed document are not negative and its
    similarity with a query lies in [0, 1].  After [add_document(1, "a")]
    twice, the document frequency of ["a"] is 2 in a corpus of one
    document: the weight of ["a"] is [ln(1/2)], which is negative, the
    similarity of the document with the query ["a"] is -1, and the search
    for ["a"] finds nothing. *)
Theorem overwrite_negative_weight :
  let weight := (1 / 1 * ln (1 / 2))%R in
  reachable overwritten
  /\ index overwritten = [(IdInt 1, [("a", 1)])]
  /\ create_tfidf_vector (F := R) overwritten [("a", 1)] = Ok [("a", weight)]
  /\ (weight < 0)%R
  /\ query_vector_of (F := R) overwritten [("a", 1)] = Ok [("a", (1 / 1)%R)]
  /\ cosine_similarity [("a", (1 / 1)%R)] [("a", weight)] = Ok (-1)%R
  /\ search (F := R) overwritten (PStr "a") 10 = Ok [].
Proof.
  intros weight.
  assert (Hweight : (weight < 0)%R).
  { unfold weight. pose proof ln_half_neg. lra. }
  assert (Hcos : cosine_similarity [("a", (1 / 1)%R)] [("a", weight)] = Ok (-1)%R).
  { apply cosine_similarity_opposite; lra. }
  split; [apply overwritten_reachable|].
  split; [reflexivity|].
  split; [apply overwritten_weight|].
  split; [exact Hweight|].
  split; [reflexivity|].
  split; [exact Hcos|].
  unfold search. change (is_empty (strip "a")) with false. cbv iota.
  change (documents overwritten) with [(IdInt 1, "a")].
  change (create_concordance (PStr "a")) with (Ok [("a", 1)]).
  cbn [bind].
  change (query_vector_of (F := R) overwritten [("a", 1)]) with (Ok [("a", (1 / 1)%R)]).
  cbn [bind]. unfold score_documents.
  change (index overwritten) with [(IdInt 1, [("a", 1)])].
  cbn [for_each]. rewrite overwritten_weight. cbn [bind].
  change (@int_arith R (@numeric_ints R R_Numeric)) with R_Arith.
  unfold weight in Hcos. rewrite Hcos. cbn [bind].
  change (fltb fzero (-1)%R) with (Rltb 0 (-1)).
  rewrite Rltb_false by lra. reflexivity.
Qed.

(** ** Bounds of the similarity in exact arithmetic *)

Lemma sum_squares_cons term x (vec : vector R) :
  sum_squares ((term, x) :: vec) = (x * x + sum_squares vec)%R.
Proof. unfold sum_squares. simpl map. now rewrite fsum_cons. Qed.

Lemma sum_squares_pos (vec : vector R) : (0 <= sum_squares vec)%R.
Proof. apply sum_squares_nonneg. Qed.

Lemma norm_sqrt (vec : vector R) :
  norm vec = R_sqrt.sqrt (sum_squares vec).
Proof. reflexivity. Qed.

Lemma sum_squares_zero (vec : vector R) :
  sum_squares vec = 0%R -> Forall (fun x => x = 0%R) (values vec).
Proof.
  induction vec as [|[term x] vec IH]; intros Hsum.
  - constructor.
  - rewrite sum_squares_cons in Hsum. pose proof (sum_squares_pos vec).
    assert (Hx : (x * x = 0)%R) by nra.
    simpl. constructor.
    + apply Rmult_integral in Hx. tauto.
    + apply IH. nra.
Qed.

Lemma dot_product_cons term x (vec1 vec2 : vector R) :
  dot_product ((term, x) :: vec1) vec2
  = (x * weight_in vec2 term + dot_product vec1 vec2)%R.
Proof.
  unfold dot_product, weight_in, dict_get_default.
  assert (Hshift : forall (items : vector R) acc,
    fold_left
      (fun dot '(term, x) =>
         match dict_get term vec2 with
         | Some y => fadd dot (fmul x y)
         | None => dot
         end) items acc
    = (acc + fold_left
        (fun dot '(term, x) =>
           match dict_get term vec2 with
           | Some y => fadd dot (fmul x y)
           | None => dot
           end) items 0)%R).
  { induction items as [|[t y] items IH]; intros acc; simpl.
    - lra.
    - rewrite IH. symmetry. rewrite IH.
      destruct (dict_get t vec2); simpl; lra. }
  simpl. rewrite Hshift. destruct (dict_get term vec2); simpl; lra.
Qed.

Lemma weight_in_without term term' (vec : vector R) :
  term' <> term -> weight_in (dict_without term vec) term' = weight_in vec term'.
Proof.
  intros Hne. unfold weight_in, dict_get_default.
  induction vec as [|[t x] vec IH]; simpl; [reflexivity|].
  destruct (eq_dec term t) as [->|Hnt]; simpl.
  - destruct (eq_dec term' t); [contradiction | reflexivity].
  - destruct (eq_dec term' t); [reflexivity | assumption].
Qed.

Lemma sum_squares_without term (vec : vector R) :
  sum_squares vec
  = (weight_in vec term * weight_in vec term + sum_squares (dict_without term vec))%R.
Proof.
  unfold weight_in, dict_get_default.
  induction vec as [|[t x] vec IH]; simpl.
  - unfold sum_squares, fsum. simpl. lra.
  - destruct (eq_dec term t) as [->|Hnt].
    + now rewrite sum_squares_cons.
    + rewrite !sum_squares_cons, IH. lra.
Qed.

Lemma matched_squares_cons term x (vec1 vec2 : vector R) :
  matched_squares ((term, x) :: vec1) vec2
  = (weight_in vec2 term * weight_in vec2 term + matched_squares vec1 vec2)%R.
Proof. unfold matched_squares. simpl map. now rewrite fsum_cons. Qed.

Lemma matched_squares_without term (vec1 vec2 : vector R) :
  ~ In term (keys vec1) ->
  matched_squares vec1 (dict_without term vec2) = matched_squares vec1 vec2.
Proof.
  intros Hfresh. unfold matched_squares. f_equal.
  apply map_ext_in. intros [t y] Hin. simpl.
  rewrite weight_in_without; [reflexivity|].
  intros ->. apply Hfresh.
  change (In (fst (term, y)) (map fst vec1)). now apply in_map.
Qed.

(** The weights that [vec2] gives to the terms of [vec1], squared, sum to
    no more than the squares of [vec2]: distinct terms meet distinct items. *)
Lemma matched_squares_le (vec1 vec2 : vector R) :
  NoDup (keys vec1) -> (matched_squares vec1 vec2 <= sum_squares vec2)%R.
Proof.
  intros Hnd. revert vec2.
  induction vec1 as [|[term x] vec1 IH]; intros vec2.
  - unfold matched_squares, fsum. simpl. apply sum_squares_pos.
  - simpl in Hnd. inversion Hnd as [|? ? Hfresh Hnd']; subst.
    rewrite matched_squares_cons, (sum_squares_without term vec2).
    apply Rplus_le_compat_l.
    rewrite <- (matched_squares_without term vec1 vec2 Hfresh).
    now apply IH.
Qed.

(** The Cauchy-Schwarz inequality on the terms of [vec1]. *)
Lemma dot_product_square_le (vec1 vec2 : vector R) :
  (0 <= matched_squares vec1 vec2
   /\ dot_product vec1 vec2 * dot_product vec1 vec2
      <= sum_squares vec1 * matched_squares vec1 vec2)%R.
Proof.
  induction vec1 as [|[term x] vec1 [IHpos IH]].
  - unfold dot_product, matched_squares, fsum. simpl. split; lra.
  - rewrite matched_squares_cons, dot_product_cons, sum_squares_cons.
    set (y := weight_in vec2 term). set (a := dot_product vec1 vec2) in *.
    set (A := sum_squares vec1) in *. set (B := matched_squares vec1 vec2) in *.
    pose proof (sum_squares_pos vec1) as HA. fold A in HA.
    split; [nra|].
    assert (Hcross : (2 * (a * (x * y)) <= A * (y * y) + B * (x * x))%R).
    { destruct (Rle_or_lt (2 * (a * (x * y))) (A * (y * y) + B * (x * x)))
        as [Hle|Hgt]; [exact Hle | exfalso].
      assert (Hp : (0 <= A * (y * y))%R) by nra.
      assert (Hq : (0 <= B * (x * x))%R) by nra.
      assert (Hsq : ((a * (x * y)) * (a * (x * y))
                     <= (A * (y * y)) * (B * (x * x)))%R).
      { replace ((a * (x * y)) * (a * (x * y)))%R
          with ((a * a) * ((x * y) * (x * y)))%R by ring.
        replace ((A * (y * y)) * (B * (x * x)))%R
          with ((A * B) * ((x * y) * (x * y)))%R by ring.
        apply Rmult_le_compat_r; [nra | exact IH]. }
      set (u := (a * (x * y))%R) in *. set (p := (A * (y * y))%R) in *.
      set (q := (B * (x * x))%R) in *.
      assert (Hgap : (0 < (2 * u - (p + q)) * (2 * u + (p + q)))%R)
        by (apply Rmult_lt_0_compat; lra).
      pose proof (Rle_0_sqr (p - q)) as Hpq. unfold Rsqr in Hpq.
      nra. }
    nra.
Qed.

Lemma dot_product_le_magnitudes (vec1 vec2 : vector R) :
  NoDup (keys vec1) ->
  (dot_product vec1 vec2 <= norm vec1 * norm vec2)%R.
Proof.
  intros Hnd. rewrite !norm_sqrt.
  destruct (dot_product_square_le vec1 vec2) as [Hpos Hcs].
  pose proof (matched_squares_le vec1 vec2 Hnd) as Hmatched.
  pose proof (sum_squares_pos vec1) as H1. pose proof (sum_squares_pos vec2) as H2.
  rewrite <- sqrt_mult by assumption.
  set (dot := dot_product vec1 vec2) in *.
  destruct (Rle_or_lt dot 0) as [Hneg|Hdot].
  - pose proof (sqrt_pos (sum_squares vec1 * sum_squares vec2)). lra.
  - rewrite <- (sqrt_square dot) by lra.
    apply sqrt_le_1_alt. nra.
Qed.

Lemma dot_product_nonneg (vec1 vec2 : vector R) :
  Forall (fun x => 0 <= x)%R (values vec1) ->
  Forall (fun x => 0 <= x)%R (values vec2) ->
  (0 <= dot_product vec1 vec2)%R.
Proof.
  intros H1 H2. induction vec1 as [|[term x] vec1 IH].
  - unfold dot_product. simpl. lra.
  - rewrite dot_product_cons. simpl in H1. inversion H1; subst.
    assert (0 <= weight_in vec2 term)%R.
    { unfold weight_in, dict_get_default.
      destruct (dict_get term vec2) as [y|] eqn:Hget; [|lra].
      apply (Forall_values_get _ vec2 term y H2 Hget). }
    specialize (IH ltac:(assumption)). nra.
Qed.

(** The similarity of two vectors of non-negative weights lies in [0, 1]. *)
Lemma cosine_similarity_bounds (vec1 vec2 : vector R) :
  NoDup (keys vec1) ->
  Forall (fun x => 0 <= x)%R (values vec1) ->
  Forall (fun x => 0 <= x)%R (values vec2) ->
  exists similarity,
    cosine_similarity vec1 vec2 = Ok similarity /\ (0 <= similarity <= 1)%R.
Proof.
  intros Hnd H1 H2.
  pose proof (dot_product_le_magnitudes vec1 vec2 Hnd) as Hle.
  pose proof (dot_product_nonneg vec1 vec2 H1 H2) as Hdot.
  rewrite cosine_similarity_R. unfold truediv.
  set (mag1 := norm vec1) in *. set (mag2 := norm vec2) in *.
  set (dot := dot_product vec1 vec2) in *.
  assert (Hm1 : (0 <= mag1)%R) by apply sqrt_pos.
  assert (Hm2 : (0 <= mag2)%R) by apply sqrt_pos.
  change (feqb mag1 fzero) with (Reqb mag1 0).
  change (feqb mag2 fzero) with (Reqb mag2 0).
  change (feqb (fmul mag1 mag2) fzero) with (Reqb (mag1 * mag2) 0).
  destruct (Req_dec_T mag1 0) as [Hz1|Hn1].
  { rewrite (Reqb_true mag1) by assumption. simpl. exists 0%R. split; [reflexivity | lra]. }
  destruct (Req_dec_T mag2 0) as [Hz2|Hn2].
  { rewrite (Reqb_true mag2) by assumption. rewrite orb_true_r.
    exists 0%R. split; [reflexivity | lra]. }
  rewrite (Reqb_false mag1), (Reqb_false mag2) by assumption. simpl.
  assert (Hprod : (0 < mag1 * mag2)%R) by (apply Rmult_lt_0_compat; lra).
  rewrite Reqb_false by lra.
  exists (dot / (mag1 * mag2))%R. split; [reflexivity|]. split.
  - apply Rmult_le_pos; [assumption|]. left. now apply Rinv_0_lt_compat.
  - apply (Rmult_le_reg_r (mag1 * mag2)); [assumption|].
    unfold Rdiv. rewrite Rmult_assoc, Rinv_l by lra. lra.
Qed.

(** ** Weights and similarities without overwriting *)

Lemma ln_nonneg x : (1 <= x)%R -> (0 <= ln x)%R.
Proof.
  intros [Hlt|<-].
  - left. rewrite <- ln_1. apply ln_increasing; lra.
  - rewrite ln_1. lra.
Qed.

Lemma calculate_tf_idf_nonneg self term_freq doc_length doc_freq weight :
  0 <= term_freq ->
  0 <= doc_freq <= total_documents self ->
  calculate_tf_idf (F := R) self term_freq doc_length doc_freq = Ok weight ->
  (0 <= weight)%R.
Proof.
  intros Htf Hdf. unfold calculate_tf_idf.
  destruct (Z.eqb_spec doc_freq 0) as [_|Hnz].
  { intros Hw. inversion Hw. simpl. lra. }
  destruct (Z.ltb_spec 0 doc_freq) as [_|]; [|lia].
  rewrite (int_truediv_R (total_documents self)) by lia.
  assert (Hratio : (1 <= IZR (total_documents self) / IZR doc_freq)%R).
  { apply (Rmult_le_reg_r (IZR doc_freq)); [apply IZR_lt; lia|].
    unfold Rdiv. rewrite Rmult_assoc, Rinv_l by (apply not_0_IZR; lia).
    rewrite Rmult_1_l, Rmult_1_r. apply IZR_le. lia. }
  cbn [bind]. rewrite math_log_R by lra.
  pose proof (ln_nonneg _ Hratio) as Hidf.
  destruct (Z.ltb_spec 0 doc_length) as [Hlen|_].
  - rewrite int_truediv_R by lia. simpl. intros Hw. inversion Hw.
    apply Rmult_le_pos; [|assumption].
    apply Rmult_le_pos; [apply IZR_le; lia|].
    left. apply Rinv_0_lt_compat. apply IZR_lt. lia.
  - simpl. intros Hw. inversion Hw. lra.
Qed.

Lemma create_tfidf_vector_nonneg self concordance doc_vector :
  Forall (fun n => 1 <= n) (values concordance) ->
  (forall term, 0 <= document_frequency self term <= total_documents self) ->
  create_tfidf_vector (F := R) self concordance = Ok doc_vector ->
  Forall (fun x => 0 <= x)%R (values doc_vector).
Proof.
  intros Hcounts Hdf. unfold create_tfidf_vector.
  apply (for_each_invariant
           (fun vec : vector R => Forall (fun x => 0 <= x)%R (values vec)));
    [|constructor].
  intros acc [term freq] acc' Hin Hacc Hbody.
  destruct (calculate_tf_idf self freq (sum (values concordance))
              (dict_get_default term 0 (document_frequencies self)))
    as [weight|] eqn:Hw; [|discriminate].
  simpl in Hbody. inversion Hbody; subst.
  apply Forall_values_dict_set; [|assumption].
  assert (Hfreq : 1 <= freq).
  { rewrite Forall_forall in Hcounts. apply Hcounts.
    change (In (snd (term, freq)) (map snd concordance)). now apply in_map. }
  apply (calculate_tf_idf_nonneg self freq (sum (values concordance))
           (dict_get_default term 0 (document_frequencies self)));
    [lia | apply Hdf | exact Hw].
Qed.

Lemma query_vector_of_wf self tokens (query_vector : vector R) :
  query_vector_of self (Counter tokens) = Ok query_vector ->
  NoDup (keys query_vector) /\ Forall (fun x => 0 <= x)%R (values query_vector).
Proof.
  unfold query_vector_of.
  apply (for_each_invariant
           (fun vec : vector R =>
              NoDup (keys vec) /\ Forall (fun x => 0 <= x)%R (values vec)));
    [|split; constructor].
  intros acc [term freq] acc' Hin [Hnd Hacc] Hbody.
  destruct (dict_mem term (document_frequencies self));
    [|inversion Hbody; subst; now split].
  assert (Hfreq : 1 <= freq).
  { pose proof (Counter_counts_pos tokens) as Hcounts.
    rewrite Forall_forall in Hcounts. apply Hcounts.
    change (In (snd (term, freq)) (map snd (Counter tokens))). now apply in_map. }
  assert (Htotal : 0 < sum (values (Counter tokens))).
  { apply sum_pos; [apply Counter_counts_pos|].
    destruct (Counter tokens); [contradiction | discriminate]. }
  rewrite int_truediv_R in Hbody by lia. simpl in Hbody. inversion Hbody; subst.
  split; [now apply NoDup_keys_dict_set|].
  apply Forall_values_dict_set; [|assumption].
  apply Rmult_le_pos; [apply IZR_le; lia|].
  left. apply Rinv_0_lt_compat. apply IZR_lt. lia.
Qed.

Lemma document_frequency_le_total docs term :
  NoDup (map fst docs) ->
  let self := add_documents docs init in
  0 <= document_frequency self term <= total_documents self.
Proof.
  intros Hnd self.
  assert (Hdocs : documents self = docs).
  { destruct (store_add_documents docs init Hnd) as [Hd _]; simpl; auto. }
  unfold self. rewrite document_frequency_add_documents.
  rewrite total_documents_add_documents by reflexivity.
  fold self. rewrite Hdocs.
  pose proof (texts_containing_bounds term docs).
  unfold document_frequency, len. simpl. lia.
Qed.

(** Without overwriting, C2 holds: the weights of every indexed document
    are non-negative, and its similarity with the vector of any query lies
    in [0, 1]. *)
Lemma weights_and_similarity_without_overwrite docs query doc_id concordance :
  NoDup (map fst docs) ->
  let self := add_documents docs init in
  In (doc_id, concordance) (index self) ->
  exists (query_vector doc_vector : vector R) similarity,
    query_vector_of self (Counter (tokens_of query)) = Ok query_vector
    /\ create_tfidf_vector self concordance = Ok doc_vector
    /\ Forall (fun x => 0 <= x)%R (values doc_vector)
    /\ cosine_similarity query_vector doc_vector = Ok similarity
    /\ (0 <= similarity <= 1)%R.
Proof.
  intros Hnd self Hin.
  assert (Hself : consistent self).
  { apply reachable_consistent, reachable_add_documents, reachable_init. }
  assert (Hdocs : documents self <> []).
  { intros Hempty. pose proof (index_keys self Hself) as Hkeys.
    rewrite Hempty in Hkeys. destruct (index self); [contradiction | discriminate]. }
  pose proof (total_documents_pos self Hself Hdocs) as Htotal.
  destruct (query_vector_of_returns self (tokens_of query)) as [query_vector Hq].
  destruct (create_tfidf_vector_returns self concordance Htotal) as [doc_vector Hd].
  destruct (query_vector_of_wf self _ _ Hq) as [Hqnd Hqpos].
  assert (Hdpos : Forall (fun x => 0 <= x)%R (values doc_vector)).
  { apply (create_tfidf_vector_nonneg self concordance); [| |assumption].
    - destruct (index_concordances self Hself doc_id concordance Hin) as [text ->].
      apply Counter_counts_pos.
    - intros term. now apply document_frequency_le_total. }
  destruct (cosine_similarity_bounds query_vector doc_vector Hqnd Hqpos Hdpos)
    as [similarity [Hcos Hbounds]].
  exists query_vector, doc_vector, similarity. auto.
Qed.

(** ** The corpus of two documents *)

Lemma cosine_similarity_orthogonal (vec1 vec2 : vector R) :
  dot_product vec1 vec2 = 0%R -> cosine_similarity vec1 vec2 = Ok 0%R.
Proof.
  intros Hdot. destruct (cosine_similarity_returns vec1 vec2) as [similarity Hcos].
  rewrite Hcos. f_equal. revert Hcos. rewrite cosine_similarity_R. unfold truediv.
  rewrite Hdot.
  destruct (Reqb (norm vec1) 0 || Reqb (norm vec2) 0).
  - intros Heq. now inversion Heq.
  - destruct (feqb (norm vec1 * norm vec2)%R fzero);
      [discriminate|].
    intros Heq. inversion Heq. simpl. unfold Rdiv. ring.
Qed.

Lemma cosine_similarity_positive (vec1 vec2 : vector R) :
  NoDup (keys vec1) ->
  (0 < dot_product vec1 vec2)%R ->
  exists similarity, cosine_similarity vec1 vec2 = Ok similarity /\ (0 < similarity)%R.
Proof.
  intros Hnd Hdot. pose proof (dot_product_le_magnitudes vec1 vec2 Hnd) as Hle.
  rewrite cosine_similarity_R. unfold truediv.
  set (mag1 := norm vec1) in *. set (mag2 := norm vec2) in *.
  set (dot := dot_product vec1 vec2) in *.
  assert (Hm1 : (0 <= mag1)%R) by apply sqrt_pos.
  assert (Hm2 : (0 <= mag2)%R) by apply sqrt_pos.
  assert (Hn1 : mag1 <> 0%R) by (intros Hz; rewrite Hz in Hle; lra).
  assert (Hn2 : mag2 <> 0%R) by (intros Hz; rewrite Hz in Hle; lra).
  change (feqb mag1 fzero) with (Reqb mag1 0).
  change (feqb mag2 fzero) with (Reqb mag2 0).
  change (feqb (fmul mag1 mag2) fzero) with (Reqb (mag1 * mag2) 0).
  rewrite (Reqb_false mag1), (Reqb_false mag2) by assumption. simpl.
  rewrite Reqb_false by lra.
  exists (dot / (mag1 * mag2))%R. split; [reflexivity|].
  apply Rdiv_lt_0_compat; lra.
Qed.

Lemma ln_2_pos : (0 < ln (2 / 1))%R.
Proof. rewrite <- ln_1. apply ln_increasing; lra. Qed.

Lemma cat_dog_vector_a :
  create_tfidf_vector (F := R) cat_dog [("cat", 2); ("dog", 1)]
  = Ok [("cat", (2 / 3 * ln (2 / 1))%R); ("dog", (1 / 3 * ln (2 / 2))%R)].
Proof.
  unfold create_tfidf_vector. cbn [for_each values map snd].
  change (sum [2; 1]) with 3.
  change (dict_get_default "cat" 0 (document_frequencies cat_dog)) with 1.
  change (dict_get_default "dog" 0 (document_frequencies cat_dog)) with 2.
  rewrite !calculate_tf_idf_weight by (vm_compute; first [reflexivity | discriminate]).
  reflexivity.
Qed.

Lemma cat_dog_vector_b :
  create_tfidf_vector (F := R) cat_dog [("dog", 1); ("bird", 1)]
  = Ok [("dog", (1 / 2 * ln (2 / 2))%R); ("bird", (1 / 2 * ln (2 / 1))%R)].
Proof.
  unfold create_tfidf_vector. cbn [for_each values map snd].
  change (sum [1; 1]) with 2.
  change (dict_get_default "dog" 0 (document_frequencies cat_dog)) with 2.
  change (dict_get_default "bird" 0 (document_frequencies cat_dog)) with 1.
  rewrite !calculate_tf_idf_weight by (vm_compute; first [reflexivity | discriminate]).
  reflexivity.
Qed.

(** The scenario of the specification: in the corpus of ["cat dog cat"]
    and ["dog bird"], the query ["cat"] returns the first document only,
    with a positive score. *)
Lemma search_cat :
  exists similarity,
    (0 < similarity)%R
    /\ search (F := R) cat_dog (PStr "cat") 10
       = Ok [(similarity, IdStr "a", "cat dog cat")].
Proof.
  pose proof ln_2_pos as Hln.
  destruct (cosine_similarity_positive
              [("cat", (1 / 1)%R)]
              [("cat", (2 / 3 * ln (2 / 1))%R); ("dog", (1 / 3 * ln (2 / 2))%R)])
    as [similarity [Hcos Hpos]].
  { repeat constructor. simpl. tauto. }
  { rewrite dot_product_cons. unfold weight_in, dict_get_default, dot_product. simpl. lra. }
  assert (Hcos_b :
    cosine_similarity
      [("cat", (1 / 1)%R)]
      [("dog", (1 / 2 * ln (2 / 2))%R); ("bird", (1 / 2 * ln (2 / 1))%R)]
    = Ok 0%R).
  { apply cosine_similarity_orthogonal.
    rewrite dot_product_cons. unfold weight_in, dict_get_default, dot_product. simpl. lra. }
  exists similarity. split; [exact Hpos|].
  unfold search. change (is_empty (strip "cat")) with false. cbv iota.
  change (documents cat_dog) with [(IdStr "a", "cat dog cat"); (IdStr "b", "dog bird")].
  cbv iota.
  change (create_concordance (PStr "cat")) with (Ok [("cat", 1)]). cbn [bind].
  change (query_vector_of (F := R) cat_dog [("cat", 1)]) with (Ok [("cat", (1 / 1)%R)]).
  cbn [bind]. unfold score_documents.
  change (index cat_dog)
    with [(IdStr "a", [("cat", 2); ("dog", 1)]); (IdStr "b", [("dog", 1); ("bird", 1)])].
  cbn [for_each]. rewrite cat_dog_vector_a, cat_dog_vector_b. cbn [bind].
  change (@int_arith R (@numeric_ints R R_Numeric)) with R_Arith.
  rewrite Hcos. cbn [bind].
  change (fltb fzero similarity) with (Rltb 0 similarity).
  rewrite Rltb_true by assumption.
  change (dict_lookup (IdStr "a") (documents cat_dog)) with (Ok "cat dog cat").
  cbn [bind app]. rewrite Hcos_b. cbn [bind].
  change (fltb fzero 0%R) with (Rltb 0 0). rewrite Rltb_false by lra.
  reflexivity.
Qed.

Lemma length_insert_desc (h : hit R) sorted :
  List.length (insert_desc h sorted) = S (List.length sorted).
Proof.
  induction sorted as [|h' rest IH]; simpl; [reflexivity|].
  destruct (Rltb (score h) (score h')); simpl; [now rewrite IH | reflexivity].
Qed.

Lemma length_sort_desc (results : list (hit R)) :
  List.length (sort_desc results) = List.length results.
Proof.
  induction results as [|h results IH]; simpl; [reflexivity|].
  now rewrite length_insert_desc, IH.
Qed.

(** The query ["cat bird"] matches both documents: [search] ranks two
    hits of positive score and returns the slice of them. *)
Lemma search_cat_bird max_results :
  exists sim_a sim_b : R,
    (0 < sim_a)%R /\ (0 < sim_b)%R
    /\ search cat_dog (PStr "cat bird") max_results
       = Ok (slice_to max_results
               (sort_desc [(sim_a, IdStr "a", "cat dog cat");
                           (sim_b, IdStr "b", "dog bird")])).
Proof.
  pose proof ln_2_pos as Hln.
  set (query_vector := [("cat", (1 / 2)%R); ("bird", (1 / 2)%R)]).
  assert (Hnd : NoDup (keys query_vector)).
  { repeat constructor; simpl; intuition discriminate. }
  destruct (cosine_similarity_positive query_vector
              [("cat", (2 / 3 * ln (2 / 1))%R); ("dog", (1 / 3 * ln (2 / 2))%R)] Hnd)
    as [sim_a [Hcos_a Hpos_a]].
  { unfold query_vector. rewrite !dot_product_cons.
    unfold weight_in, dict_get_default, dot_product. simpl. lra. }
  destruct (cosine_similarity_positive query_vector
              [("dog", (1 / 2 * ln (2 / 2))%R); ("bird", (1 / 2 * ln (2 / 1))%R)] Hnd)
    as [sim_b [Hcos_b Hpos_b]].
  { unfold query_vector. rewrite !dot_product_cons.
    unfold weight_in, dict_get_default, dot_product. simpl. lra. }
  exists sim_a, sim_b. split; [exact Hpos_a|]. split; [exact Hpos_b|].
  unfold search. change (is_empty (strip "cat bird")) with false. cbv iota.
  change (documents cat_dog)
    with [(IdStr "a", "cat dog cat"); (IdStr "b", "dog bird")].
  cbv iota.
  change (create_concordance (PStr "cat bird")) with (Ok [("cat", 1); ("bird", 1)]).
  cbn [bind].
  change (query_vector_of (F := R) cat_dog [("cat", 1); ("bird", 1)])
    with (Ok query_vector).
  cbn [bind]. unfold score_documents.
  change (index cat_dog)
    with [(IdStr "a", [("cat", 2); ("dog", 1)]);
          (IdStr "b", [("dog", 1); ("bird", 1)])].
  cbn [for_each]. rewrite cat_dog_vector_a, cat_dog_vector_b. cbn [bind].
  change (@int_arith R (@numeric_ints R R_Numeric)) with R_Arith.
  rewrite Hcos_a. cbn [bind].
  change (fltb fzero sim_a) with (Rltb 0 sim_a). rewrite Rltb_true by assumption.
  change (dict_lookup (IdStr "a") (documents cat_dog)) with (Ok "cat dog cat").
  cbn [bind app]. rewrite Hcos_b. cbn [bind].
  change (fltb fzero sim_b) with (Rltb 0 sim_b). rewrite Rltb_true by assumption.
  change (dict_lookup (IdStr "b") (documents cat_dog)) with (Ok "dog bird").
  reflexivity.
Qed.

(** The number of hits that [search] returns for ["cat bird"]. *)
Lemma search_cat_bird_length max_results (returned : list (hit R)) :
  search cat_dog (PStr "cat bird") max_results = Ok returned ->
  List.length returned = List.length (slice_to max_results [tt; tt]).
Proof.
  destruct (search_cat_bird max_results) as [sim_a [sim_b [_ [_ Hsearch]]]].
  rewrite Hsearch. intros Hret.
  assert (Heq : returned
                = slice_to max_results
                    (sort_desc [(sim_a, IdStr "a", "cat dog cat");
                                (sim_b, IdStr "b", "dog bird")])) by congruence.
  rewrite Heq. unfold slice_to.
  destruct (max_results <? 0); rewrite !length_firstn, !length_sort_desc; reflexivity.
Qed.

(** With [max_results = -1] the query ["cat bird"], which matches both
    documents, returns all hits but the last: one hit. *)
Lemma search_cat_bird_all_but_last :
  exists returned : list (hit R),
    search cat_dog (PStr "cat bird") (-1) = Ok returned
    /\ List.length returned = 1%nat.
Proof.
  destruct (search_cat_bird (-1)) as [sim_a [sim_b [_ [_ Hsearch]]]].
  eexists. split; [exact Hsearch|].
  now rewrite (search_cat_bird_length (-1) _ Hsearch).
Qed.

(** The ranking of the two hits of ["cat bird"], whole and cut to one. *)
Lemma search_ranking_witness :
  exists returned returned1 : list (hit R),
    search cat_dog (PStr "cat bird") 10 = Ok returned
    /\ List.length returned = 2%nat
    /\ non_increasing returned
    /\ Forall (fun h => (0 < score h)%R) returned
    /\ Z.of_nat (List.length returned) <= 10
    /\ search cat_dog (PStr "cat bird") 1 = Ok returned1
    /\ List.length returned1 = 1%nat
    /\ non_increasing returned1
    /\ Forall (fun h => (0 < score h)%R) returned1
    /\ Z.of_nat (List.length returned1) <= 1.
Proof.
  assert (Hself : reachable cat_dog) by apply reachable_add_documents, reachable_init.
  destruct (proj2 (search_ranking cat_dog (PStr "cat bird") 10) Hself
              "cat bird" eq_refl eq_refl) as [returned Hsearch].
  destruct (proj2 (search_ranking cat_dog (PStr "cat bird") 1) Hself
              "cat bird" eq_refl eq_refl) as [returned1 Hsearch1].
  exists returned, returned1.
  destruct (proj1 (search_ranking cat_dog (PStr "cat bird") 10) returned Hsearch)
    as [Hsorted [Hpos Hlen]].
  destruct (proj1 (search_ranking cat_dog (PStr "cat bird") 1) returned1 Hsearch1)
    as [Hsorted1 [Hpos1 Hlen1]].
  split; [exact Hsearch|].
  split; [exact (search_cat_bird_length 10 returned Hsearch)|].
  split; [exact Hsorted|]. split; [exact Hpos|]. split; [apply Hlen; lia|].
  split; [exact Hsearch1|].
  split; [exact (search_cat_bird_length 1 returned1 Hsearch1)|].
  split; [exact Hsorted1|]. split; [exact Hpos1|]. apply Hlen1; lia.
Defined.

(** ** The embedding on small inputs *)

Example preprocess_text_example :
  preprocess_text (PStr "MySQL Backups: Done  Easily.")
  = Ok ["mysql"; "backups"; "done"; "easily"].
Proof. reflexivity. Qed.

Example preprocess_text_punctuation :
  preprocess_text (PStr " ?!... ") = Ok [].
Proof. reflexivity. Qed.

Example preprocess_text_not_str :
  preprocess_text (PInt 3) = Raise (ValueError "Input must be a string").
Proof. reflexivity. Qed.

Example create_concordance_example :
  create_concordance (PStr "cat dog, CAT!") = Ok [("cat", 2); ("dog", 1)].
Proof. reflexivity. Qed.

Example add_document_example :
  cat_dog
  = {| documents := [(IdStr "a", "cat dog cat"); (IdStr "b", "dog bird")];
       index := [(IdStr "a", [("cat", 2); ("dog", 1)]);
                 (IdStr "b", [("dog", 1); ("bird", 1)])];
       document_frequencies := [("cat", 1); ("dog", 2); ("bird", 1)];
       total_documents := 2 |}.
Proof. reflexivity. Qed.

Example add_document_not_str :
  add_document (IdInt 0) (PInt 7) init
  = (init, Raise (ValueError "Document text must be a string")).
Proof. reflexivity. Qed.

Example slice_to_examples :
  slice_to 2 [1; 2; 3] = [1; 2]
  /\ slice_to 5 [1; 2; 3] = [1; 2; 3]
  /\ slice_to (-1) [1; 2; 3] = [1; 2]
  /\ slice_to (-5) [1; 2; 3] = [].
Proof. repeat split. Qed.

(** Hits of equal score keep their order. *)
Example sort_desc_example :
  sort_desc [(1%R, IdStr "a", ""); (2%R, IdStr "b", ""); (1%R, IdStr "c", "")]
  = [(2%R, IdStr "b", ""); (1%R, IdStr "a", ""); (1%R, IdStr "c", "")].
Proof.
  assert (H21 : fltb 2%R 1%R = false) by (apply Rltb_false; lra).
  assert (H12 : fltb 1%R 2%R = true) by (apply Rltb_true; lra).
  assert (H11 : fltb 1%R 1%R = false) by (apply Rltb_false; lra).
  unfold sort_desc. cbn [fold_right insert_desc score fst].
  rewrite H21. cbn [insert_desc score fst]. now rewrite H12, H11.
Qed.

(** ** Previews *)

Lemma prefix_of_short n text : (String.length text <= n)%nat -> prefix_of n text = text.
Proof.
  unfold prefix_of. revert n. induction text as [|c text IH]; intros [|n] Hlen; simpl in *;
    try reflexivity; try lia.
  f_equal. apply IH. lia.
Qed.

Lemma prefix_of_length n text :
  (n <= String.length text)%nat -> String.length (prefix_of n text) = n.
Proof.
  unfold prefix_of. revert n. induction text as [|c text IH]; intros [|n] Hlen; simpl in *;
    try reflexivity; try lia.
  f_equal. apply IH. lia.
Qed.

Lemma length_append (s s' : string) :
  String.length (s ++ s') = (String.length s + String.length s')%nat.
Proof. induction s as [|c s IH]; simpl; [reflexivity | now rewrite IH]. Qed.

(** A text of at most 100 characters is its own preview; a longer one is
    cut to 100 characters and marked. *)
Lemma preview_of_spec text :
  ((String.length text <= 100)%nat -> preview_of text = text)
  /\ ((100 < String.length text)%nat ->
      preview_of text = (prefix_of 100 text ++ "...")%string
      /\ String.length (preview_of text) = 103%nat).
Proof.
  unfold preview_of. split; intros Hlen.
  - destruct (Nat.ltb_spec 100 (String.length text)); [lia|].
    now apply prefix_of_short.
  - destruct (Nat.ltb_spec 100 (String.length text)); [|lia].
    split; [reflexivity|].
    rewrite length_append, prefix_of_length by lia. reflexivity.
Qed.

(** * Further properties *)

(** ** Tokens *)

Lemma all_chars_app p (s s' : string) :
  all_chars p (s ++ s')%string = all_chars p s && all_chars p s'.
Proof.
  induction s as [|c s IH]; simpl; [reflexivity|].
  now rewrite IH, andb_assoc.
Qed.

Lemma all_chars_In p s :
  all_chars p s = true <-> forall c, In c (list_ascii_of_string s) -> p c = true.
Proof.
  induction s as [|c s IH]; simpl.
  - split; [intros _ c [] | reflexivity].
  - rewrite andb_true_iff, IH. split.
    + intros [Hc Hs] c' [<-|Hin]; auto.
    + intros Hall. split; [apply Hall; now left | intros c' Hin; apply Hall; now right].
Qed.

Lemma all_chars_map_string p f s :
  (forall c, p (f c) = true) -> all_chars p (map_string f s) = true.
Proof.
  intros Hf. induction s as [|c s IH]; simpl; [reflexivity|].
  now rewrite Hf, IH.
Qed.

(** The words of a split are not empty and hold no white space; their
    characters are characters of the text. *)
Lemma split_from_words p word s :
  all_chars (fun c => negb (isspace c) && p c) word = true ->
  all_chars (fun c => isspace c || p c) s = true ->
  Forall (fun w => is_empty w = false
                   /\ all_chars (fun c => negb (isspace c) && p c) w = true)
    (split_from word s).
Proof.
  revert word. induction s as [|c s IH]; intros word Hword Hs; simpl in *.
  - destruct word; simpl; repeat constructor. exact Hword.
  - apply andb_true_iff in Hs as [Hc Hs].
    destruct (isspace c) eqn:Hsp.
    + destruct word as [|c' word']; simpl.
      * now apply IH.
      * constructor; [split; [reflexivity | exact Hword]|]. now apply IH.
    + apply IH; [|assumption]. simpl in Hc.
      rewrite all_chars_app, Hword. simpl. now rewrite Hsp, Hc.
Qed.

Lemma lstrip_no_space s :
  all_chars (fun c => negb (isspace c)) s = true -> lstrip s = s.
Proof.
  destruct s as [|c s]; simpl; [reflexivity|].
  destruct (isspace c); [discriminate | reflexivity].
Qed.

Lemma rstrip_no_space s :
  all_chars (fun c => negb (isspace c)) s = true -> rstrip s = s.
Proof.
  induction s as [|c s IH]; simpl; [reflexivity|].
  destruct (isspace c); [discriminate|]. simpl. intros Hs. now rewrite IH.
Qed.

Lemma strip_no_space s :
  all_chars (fun c => negb (isspace c)) s = true -> strip s = s.
Proof.
  intros Hs. unfold strip. rewrite lstrip_no_space by assumption.
  now apply rstrip_no_space.
Qed.

Lemma all_chars_weaken (p q : ascii -> bool) s :
  (forall c, p c = true -> q c = true) -> all_chars p s = true -> all_chars q s = true.
Proof.
  intros Hpq. induction s as [|c s IH]; simpl; [reflexivity|].
  rewrite !andb_true_iff. intros [Hc Hs]. auto.
Qed.

(** Stripping the words of a split changes nothing and drops nothing. *)
Lemma strip_split_words (words : list string) :
  Forall (fun w => is_empty w = false
                   /\ all_chars (fun c => negb (isspace c)) w = true) words ->
  map strip (filter (fun word => negb (is_empty (strip word))) words) = words.
Proof.
  induction 1 as [|w words [Hne Hw] _ IH]; simpl; [reflexivity|].
  rewrite (strip_no_space w Hw), Hne. simpl.
  now rewrite (strip_no_space w Hw), IH.
Qed.

(** The character that the normalization of a text leaves for [c]. *)
Lemma normalized_char c :
  let c' := if ispunct (lower_char c) then " "%char else lower_char c in
  isspace c' || token_char c' = true.
Proof.
  destruct c as [[] [] [] [] [] [] [] []]; reflexivity.
Qed.

Lemma sub_punctuation_lower s :
  sub_punctuation (lower s)
  = map_string (fun c => if ispunct (lower_char c) then " "%char else lower_char c) s.
Proof.
  unfold sub_punctuation, lower. induction s as [|c s IH]; simpl; [reflexivity|].
  now rewrite IH.
Qed.

Lemma tokens_of_words text :
  Forall (fun w => is_empty w = false
                   /\ all_chars (fun c => negb (isspace c) && token_char c) w = true)
    (split (sub_punctuation (lower text))).
Proof.
  unfold split. apply split_from_words; [reflexivity|].
  rewrite sub_punctuation_lower.
  apply (all_chars_map_string (fun c => isspace c || token_char c)).
  apply normalized_char.
Qed.

(** The tokens are the words that [split] finds in the normalized text:
    the filter on stripped words never removes or changes a word. *)
Lemma tokens_of_split text : tokens_of text = split (sub_punctuation (lower text)).
Proof.
  unfold tokens_of, preprocess_text. apply strip_split_words.
  eapply Forall_impl; [|apply tokens_of_words].
  intros w [Hne Hw]. split; [exact Hne|].
  eapply all_chars_weaken; [|exact Hw].
  intros c Hc. now apply andb_true_iff in Hc as [Hc _].
Qed.

(** X1: every token that [preprocess_text] returns is a non-empty string
    without white space and without punctuation, and is in lower case. *)
Theorem preprocess_text_tokens text tokens token :
  preprocess_text (PStr text) = Ok tokens ->
  In token tokens ->
  token <> EmptyString
  /\ forall c, In c (list_ascii_of_string token) ->
       isspace c = false /\ ispunct c = false /\ lower_char c = c.
Proof.
  intros Hrun Hin.
  assert (Htokens : tokens = tokens_of text).
  { rewrite preprocess_text_str in Hrun. now inversion Hrun. }
  subst tokens. rewrite tokens_of_split in Hin.
  pose proof (tokens_of_words text) as Hwords.
  rewrite Forall_forall in Hwords. destruct (Hwords token Hin) as [Hne Hchars].
  split.
  - intros ->. discriminate.
  - intros c Hc. rewrite all_chars_In in Hchars. specialize (Hchars c Hc).
    apply andb_true_iff in Hchars as [Hsp Htoken]. unfold token_char in Htoken.
    apply andb_true_iff in Htoken as [Htoken Hlow].
    apply andb_true_iff in Htoken as [_ Hpunct].
    repeat split.
    + now apply negb_true_iff.
    + now apply negb_true_iff.
    + apply N.eqb_eq in Hlow. unfold ord in Hlow.
      rewrite <- (ascii_N_embedding (lower_char c)), Hlow. apply ascii_N_embedding.
Qed.

Lemma preprocess_text_tokens_witness :
  "mysql"%string <> EmptyString
  /\ forall c, In c (list_ascii_of_string "mysql") ->
       isspace c = false /\ ispunct c = false /\ lower_char c = c.
Proof.
  apply (preprocess_text_tokens "MySQL Backups: Done  Easily."
           ["mysql"; "backups"; "done"; "easily"] "mysql").
  - reflexivity.
  - now left.
Defined.

Lemma map_string_ext f g s :
  (forall c, f c = g c) -> map_string f s = map_string g s.
Proof.
  intros Hfg. induction s as [|c s IH]; simpl; [reflexivity|].
  now rewrite Hfg, IH.
Qed.

Lemma map_string_map_string f g s :
  map_string f (map_string g s) = map_string (fun c => f (g c)) s.
Proof. induction s as [|c s IH]; simpl; [reflexivity | now rewrite IH]. Qed.

Lemma normalize_lower_char c :
  (if ispunct (lower_char (lower_char c)) then " "%char else lower_char (lower_char c))
  = (if ispunct (lower_char c) then " "%char else lower_char c).
Proof. destruct c as [[] [] [] [] [] [] [] []]; reflexivity. Qed.

Lemma normalize_normalized_char c :
  let c' := if ispunct (lower_char c) then " "%char else lower_char c in
  (if ispunct (lower_char c') then " "%char else lower_char c') = c'.
Proof. destruct c as [[] [] [] [] [] [] [] []]; reflexivity. Qed.

(** X2: [preprocess_text] ignores case, and a text that is already
    normalized (lower case, punctuation blanked) has the tokens of the raw
    text. *)
Theorem preprocess_text_normalized text :
  preprocess_text (PStr (lower text)) = preprocess_text (PStr text)
  /\ preprocess_text (PStr (sub_punctuation (lower text))) = preprocess_text (PStr text).
Proof.
  rewrite !preprocess_text_str, !tokens_of_split, !sub_punctuation_lower.
  split; f_equal; f_equal.
  - unfold lower. rewrite map_string_map_string.
    apply map_string_ext, normalize_lower_char.
  - rewrite map_string_map_string.
    apply map_string_ext. intros c. apply (normalize_normalized_char c).
Qed.

(** ** Joining tokens *)

Lemma append_empty_r (s : string) : (s ++ EmptyString)%string = s.
Proof. induction s as [|c s IH]; simpl; [reflexivity | now rewrite IH]. Qed.

Lemma append_char (s w : string) c :
  ((s ++ String c EmptyString) ++ w)%string = (s ++ String c w)%string.
Proof. induction s as [|c' s IH]; simpl; [reflexivity | now rewrite IH]. Qed.

Lemma split_from_word word w rest :
  all_chars (fun c => negb (isspace c)) w = true ->
  split_from word (w ++ rest)%string = split_from (word ++ w)%string rest.
Proof.
  revert word. induction w as [|c w IH]; intros word Hw; simpl in *.
  - now rewrite append_empty_r.
  - apply andb_true_iff in Hw as [Hc Hw]. apply negb_true_iff in Hc.
    rewrite Hc, IH by assumption. now rewrite append_char.
Qed.

Lemma split_join_words (words : list string) :
  Forall (fun w => is_empty w = false
                   /\ all_chars (fun c => negb (isspace c)) w = true) words ->
  split (join_words words) = words.
Proof.
  unfold split. induction 1 as [|w words [Hne Hw] Hwords IH]; [reflexivity|].
  destruct words as [|w' words].
  - simpl. rewrite <- (append_empty_r w) at 1.
    rewrite split_from_word by assumption. simpl. now rewrite Hne.
  - change (join_words (w :: w' :: words))
      with (w ++ String " "%char (join_words (w' :: words)))%string.
    rewrite split_from_word by assumption.
    cbn [append split_from]. change (isspace " "%char) with true. cbv iota.
    rewrite Hne. f_equal. exact IH.
Qed.

Lemma all_chars_join_words p (words : list string) :
  p " "%char = true ->
  Forall (fun w => all_chars p w = true) words ->
  all_chars p (join_words words) = true.
Proof.
  intros Hsp. induction 1 as [|w words Hw Hwords IH]; [reflexivity|].
  destruct words as [|w' words]; [exact Hw|].
  change (join_words (w :: w' :: words))
    with (w ++ String " "%char (join_words (w' :: words)))%string.
  rewrite all_chars_app, Hw. cbn [all_chars andb]. now rewrite Hsp, IH.
Qed.

Lemma map_string_fixed f p s :
  (forall c, p c = true -> f c = c) -> all_chars p s = true -> map_string f s = s.
Proof.
  intros Hf. induction s as [|c s IH]; simpl; [reflexivity|].
  rewrite andb_true_iff. intros [Hc Hs]. now rewrite Hf, IH.
Qed.

Lemma normalize_fixed c :
  (ord c =? 32)%N || token_char c = true ->
  (if ispunct (lower_char c) then " "%char else lower_char c) = c.
Proof. destruct c as [[] [] [] [] [] [] [] []]; (reflexivity || discriminate). Qed.

(** X3: joining the tokens of a text with single spaces and tokenizing
    again gives the same tokens. *)
Theorem preprocess_text_join text :
  preprocess_text (PStr (join_words (tokens_of text))) = preprocess_text (PStr text).
Proof.
  rewrite !preprocess_text_str. f_equal.
  rewrite (tokens_of_split (join_words (tokens_of text))), sub_punctuation_lower.
  pose proof (tokens_of_words text) as Hwords. rewrite <- tokens_of_split in Hwords.
  rewrite (map_string_fixed _ (fun c => (ord c =? 32)%N || token_char c)).
  - apply split_join_words. eapply Forall_impl; [|exact Hwords].
    intros w [Hne Hw]. split; [exact Hne|].
    eapply all_chars_weaken; [|exact Hw].
    intros c Hc. now apply andb_true_iff in Hc as [Hc _].
  - apply normalize_fixed.
  - apply all_chars_join_words; [reflexivity|].
    eapply Forall_impl; [|exact Hwords].
    intros w [_ Hw]. eapply all_chars_weaken; [|exact Hw].
    intros c Hc. apply andb_true_iff in Hc as [_ Hc]. rewrite Hc. apply orb_true_r.
Qed.

(** ** Concordances *)

Lemma Counter_acc_get tokens (c : dict string Z) term :
  dict_get_default term 0
    (fold_left (fun c w => dict_set w (dict_get_default w 0 c + 1) c) tokens c)
  = dict_get_default term 0 c + Z.of_nat (count_occ string_dec tokens term).
Proof.
  revert c. induction tokens as [|w tokens IH]; intros c; simpl.
  - lia.
  - rewrite IH. unfold dict_get_default at 1.
    destruct (string_dec w term) as [->|Hne].
    + rewrite dict_get_set_same. lia.
    + rewrite dict_get_set_other by congruence.
      fold (dict_get_default term 0 c). lia.
Qed.

(** X4: the concordance of a text has one entry per distinct token, and
    the entry of a token is the number of its occurrences in the tokenized
    text; a term that is no token has no entry. *)
Theorem create_concordance_counts text concordance :
  create_concordance (PStr text) = Ok concordance ->
  NoDup (keys concordance)
  /\ forall term,
       dict_get term concordance
       = if in_dec string_dec term (tokens_of text)
         then Some (Z.of_nat (count_occ string_dec (tokens_of text) term))
         else None.
Proof.
  rewrite create_concordance_str. intros Hc. inversion Hc; subst. clear Hc.
  split; [apply NoDup_keys_Counter|].
  intros term.
  pose proof (Counter_acc_get (tokens_of text) [] term) as Hget.
  fold (Counter (tokens_of text)) in Hget.
  unfold dict_get_default in Hget. simpl in Hget.
  destruct (in_dec string_dec term (tokens_of text)) as [Hin|Hnin].
  - destruct (dict_get term (Counter (tokens_of text))) as [n|] eqn:Hterm.
    + now subst.
    + apply dict_get_None in Hterm. rewrite In_keys_Counter in Hterm. contradiction.
  - apply dict_get_None. now rewrite In_keys_Counter.
Qed.

Lemma create_concordance_counts_witness :
  dict_get "cat" [("cat", 2); ("dog", 1)] = Some 2
  /\ dict_get "bird" [("cat", 2); ("dog", 1)] = None.
Proof.
  destruct (create_concordance_counts "cat dog, CAT!" [("cat", 2); ("dog", 1)] eq_refl)
    as [_ Hget].
  split; [apply (Hget "cat") | apply (Hget "bird")].
Defined.

Lemma sum_cons x xs : sum (x :: xs) = x + sum xs.
Proof. unfold sum. simpl. now rewrite sum_shift. Qed.

Lemma sum_values_dict_set (d : dict string Z) k v :
  sum (values (dict_set k v d)) = sum (values d) - dict_get_default k 0 d + v.
Proof.
  unfold dict_get_default. induction d as [|[k' v'] d IH]; simpl.
  - unfold sum. simpl. lia.
  - destruct (eq_dec k k') as [->|Hne]; simpl.
    + rewrite !sum_cons. lia.
    + rewrite !sum_cons, IH. lia.
Qed.

(** X5: the counts of a concordance add up to the number of tokens of the
    text: the document length used by the weighting is the token count. *)
Theorem create_concordance_total text concordance :
  create_concordance (PStr text) = Ok concordance ->
  sum (values concordance) = Z.of_nat (List.length (tokens_of text)).
Proof.
  rewrite create_concordance_str. intros Hc. inversion Hc; subst. clear Hc.
  unfold Counter.
  assert (Hacc : forall tokens (c : dict string Z),
    sum (values (fold_left (fun c w => dict_set w (dict_get_default w 0 c + 1) c)
                   tokens c))
    = sum (values c) + Z.of_nat (List.length tokens)).
  { induction tokens as [|w tokens IH]; intros c; cbn [fold_left List.length].
    - lia.
    - rewrite IH, sum_values_dict_set. lia. }
  rewrite Hacc. reflexivity.
Qed.

Lemma create_concordance_total_witness :
  sum (values [("cat", 2); ("dog", 1)]) = Z.of_nat (List.length (tokens_of "cat dog, CAT!")).
Proof. apply (create_concordance_total "cat dog, CAT!"). reflexivity. Defined.

(** ** The store and the index *)

Lemma indexed_get_documents doc_id text self doc_id' :
  dict_get doc_id' (documents (indexed doc_id text self))
  = if doc_id_dec doc_id' doc_id then Some text else dict_get doc_id' (documents self).
Proof.
  simpl. destruct (doc_id_dec doc_id' doc_id) as [->|Hne].
  - apply dict_get_set_same.
  - now apply dict_get_set_other.
Qed.

Lemma indexed_get_index doc_id text self doc_id' :
  dict_get doc_id' (index (indexed doc_id text self))
  = if doc_id_dec doc_id' doc_id then Some (Counter (tokens_of text))
    else dict_get doc_id' (index self).
Proof.
  simpl. destruct (doc_id_dec doc_id' doc_id) as [->|Hne].
  - apply dict_get_set_same.
  - now apply dict_get_set_other.
Qed.

(** X6: after [add_document(doc_id, text)] the store returns [text] and
    the index returns the concordance of [text] under [doc_id], also when
    the identifier was already in use, and every other identifier keeps its
    text and its concordance. *)
Theorem add_document_lookup self doc_id text :
  let self' := after (add_document doc_id (PStr text)) self in
  dict_lookup doc_id (documents self') = Ok text
  /\ dict_lookup doc_id (index self') = create_concordance (PStr text)
  /\ forall doc_id',
       doc_id' <> doc_id ->
       dict_get doc_id' (documents self') = dict_get doc_id' (documents self)
       /\ dict_get doc_id' (index self') = dict_get doc_id' (index self).
Proof.
  intros self'. unfold self'. rewrite after_add_document_str. unfold dict_lookup.
  rewrite indexed_get_documents, indexed_get_index.
  destruct (doc_id_dec doc_id doc_id) as [_|Hne]; [|contradiction].
  repeat split.
  - rewrite indexed_get_documents. now destruct (doc_id_dec doc_id' doc_id).
  - rewrite indexed_get_index. now destruct (doc_id_dec doc_id' doc_id).
Qed.

Lemma add_document_lookup_witness :
  dict_get (IdStr "a") (documents (after (add_document (IdStr "b") (PStr "bird")) cat_dog))
  = Some "cat dog cat".
Proof.
  destruct (add_document_lookup cat_dog (IdStr "b") "bird") as [_ [_ Hother]].
  destruct (Hother (IdStr "a")) as [Hdocs _]; [discriminate|].
  rewrite Hdocs. reflexivity.
Defined.

(** X7: in every state of an engine the identifiers of the store are
    distinct and are those of the index, in the same order, the total is
    the size of the store, and the term-frequency map of every stored
    document is the concordance of its stored text. *)
Theorem store_index_agree self :
  reachable self ->
  NoDup (keys (documents self))
  /\ keys (index self) = keys (documents self)
  /\ total_documents self = len (documents self)
  /\ forall doc_id text,
       dict_get doc_id (documents self) = Some text ->
       dict_get doc_id (index self) = Some (Counter (tokens_of text)).
Proof.
  intros Hself. pose proof (reachable_consistent self Hself) as [Htotal Hkeys _].
  split; [|split; [exact Hkeys | split; [exact Htotal|]]].
  - clear Htotal Hkeys. induction Hself as [|self doc_id text _ IH].
    + constructor.
    + rewrite after_add_document. destruct text; try exact IH.
      simpl. now apply NoDup_keys_dict_set.
  - clear Htotal Hkeys. induction Hself as [|self doc_id text _ IH].
    + discriminate.
    + rewrite after_add_document. destruct text as [s| |]; try exact IH.
      intros doc_id' text'.
      rewrite indexed_get_documents, indexed_get_index.
      destruct (doc_id_dec doc_id' doc_id); [congruence | apply IH].
Qed.

Lemma store_index_agree_witness :
  dict_get (IdStr "b") (index cat_dog) = Some (Counter (tokens_of "dog bird")).
Proof.
  assert (Hself : reachable cat_dog) by apply reachable_add_documents, reachable_init.
  destruct (store_index_agree cat_dog Hself) as [_ [_ [_ Hindex]]].
  apply Hindex. reflexivity.
Defined.

(** ** Frequencies and totals after any sequence of calls *)

Lemma documents_keys_NoDup self : reachable self -> NoDup (keys (documents self)).
Proof.
  induction 1 as [|self doc_id text _ IH].
  - constructor.
  - rewrite after_add_document. destruct text; try exact IH.
    simpl. now apply NoDup_keys_dict_set.
Qed.

Lemma documents_keys_add_documents docs self doc_id :
  In doc_id (keys (documents (add_documents docs self)))
  <-> In doc_id (keys (documents self)) \/ In doc_id (map fst docs).
Proof.
  revert self. induction docs as [|[id text] docs IH]; intros self.
  - simpl. tauto.
  - rewrite add_documents_cons, IH. simpl. rewrite In_keys_dict_set.
    intuition congruence.
Qed.

(** X8: after any sequence of [add_document] calls on a fresh engine, with
    or without repeated identifiers, the document frequency of a term is
    the number of calls whose text contains it, and [total_documents] is
    the number of distinct identifiers. *)
Theorem frequencies_count_calls docs term :
  let self := add_documents docs init in
  document_frequency self term = texts_containing term docs
  /\ total_documents self = Z.of_nat (List.length (nodup doc_id_dec (map fst docs))).
Proof.
  intros self. split.
  - unfold self. rewrite document_frequency_add_documents. reflexivity.
  - unfold self. rewrite total_documents_add_documents by reflexivity.
    fold self. unfold len. f_equal.
    replace (List.length (documents self)) with (List.length (keys (documents self)))
      by apply length_map.
    assert (Hnd : NoDup (keys (documents self))).
    { apply documents_keys_NoDup, reachable_add_documents, reachable_init. }
    apply Nat.le_antisymm; apply NoDup_incl_length.
    + exact Hnd.
    + intros id Hin. apply nodup_In.
      apply documents_keys_add_documents in Hin as [[]|Hin]. exact Hin.
    + apply NoDup_nodup.
    + intros id Hin. apply nodup_In in Hin.
      apply documents_keys_add_documents. now right.
Qed.

Lemma document_frequency_nonneg self term :
  reachable self -> 0 <= document_frequency self term.
Proof.
  induction 1 as [|self doc_id text _ IH].
  - unfold document_frequency. simpl. unfold dict_get_default. simpl. lia.
  - pose proof (document_frequency_monotone self doc_id text term). lia.
Qed.

(** X9: in every state of an engine, every term of every indexed
    term-frequency map has a document frequency of at least 1: the weight
    of an indexed term never comes from the [doc_freq == 0] branch. *)
Theorem indexed_terms_are_counted self doc_id concordance term :
  reachable self ->
  In (doc_id, concordance) (index self) ->
  In term (keys concordance) ->
  1 <= document_frequency self term.
Proof.
  intros Hself. revert doc_id concordance.
  induction Hself as [|self id text Hself IH]; intros doc_id concordance Hin Hterm.
  - contradiction.
  - pose proof (document_frequency_monotone self id text term) as Hmono.
    rewrite after_add_document in *. destruct text as [s| |]; eauto.
    simpl in Hin. apply In_dict_set in Hin as [Heq|Hin].
    + inversion Heq; subst. rewrite document_frequency_indexed.
      apply In_keys_Counter, mentions_In in Hterm. rewrite Hterm.
      pose proof (document_frequency_nonneg self term Hself). lia.
    + specialize (IH doc_id concordance Hin Hterm). lia.
Qed.

Lemma indexed_terms_are_counted_witness : 1 <= document_frequency overwritten "a".
Proof.
  apply (indexed_terms_are_counted overwritten (IdInt 1) [("a", 1)] "a").
  - apply overwritten_reachable.
  - now left.
  - now left.
Defined.

(** ** Errors and monotony of the weight *)



(** X11: at equal term frequency and document length, the rarer term
    weighs at least as much: the weight does not increase with the
    document frequency. *)
Theorem rarer_terms_weigh_more self term_freq doc_length doc_freq doc_freq' :
  1 <= total_documents self ->
  0 <= term_freq ->
  0 < doc_length ->
  1 <= doc_freq <= doc_freq' ->
  exists weight weight',
    calculate_tf_idf (F := R) self term_freq doc_length doc_freq = Ok weight
    /\ calculate_tf_idf (F := R) self term_freq doc_length doc_freq' = Ok weight'
    /\ (weight' <= weight)%R.
Proof.
  intros Htotal Htf Hlen Hdf.
  rewrite !calculate_tf_idf_weight by lia.
  eexists. eexists. split; [reflexivity|]. split; [reflexivity|].
  apply Rmult_le_compat_l.
  - apply Rmult_le_pos; [apply IZR_le; lia|].
    left. apply Rinv_0_lt_compat. apply IZR_lt. lia.
  - assert (Hpos : (0 < IZR (total_documents self) / IZR doc_freq')%R)
      by (apply ratio_pos; lia).
    assert (Hle : (IZR (total_documents self) / IZR doc_freq'
                   <= IZR (total_documents self) / IZR doc_freq)%R).
    { unfold Rdiv. apply Rmult_le_compat_l; [apply IZR_le; lia|].
      apply Rinv_le_contravar; [apply IZR_lt; lia | apply IZR_le; lia]. }
    destruct Hle as [Hlt|Heq].
    + left. now apply ln_increasing.
    + rewrite Heq. lra.
Qed.

Lemma rarer_terms_weigh_more_witness :
  exists weight weight',
    calculate_tf_idf (F := R) cat_dog 1 3 1 = Ok weight
    /\ calculate_tf_idf (F := R) cat_dog 1 3 2 = Ok weight'
    /\ (weight' <= weight)%R.
Proof.
  apply rarer_terms_weigh_more; [vm_compute; discriminate | lia | lia | lia].
Defined.

(** ** Vectors *)

(** X12: in exact arithmetic [vector_magnitude] returns for every vector;
    the magnitude is never negative, and it is 0 exactly when every weight
    of the vector is 0 (in particular for the empty vector). *)
Theorem vector_magnitude_zero_iff (vec : vector R) :
  exists magnitude : R,
    vector_magnitude vec = Ok magnitude
    /\ (0 <= magnitude)%R
    /\ (magnitude = 0%R <-> Forall (fun x => x = 0%R) (values vec)).
Proof.
  exists (norm vec). split; [apply vector_magnitude_R|].
  split; [apply sqrt_pos|]. rewrite norm_sqrt. split.
  - intros Hmag. apply sum_squares_zero.
    apply sqrt_eq_0; [apply sum_squares_pos | exact Hmag].
  - intros Hzero. unfold sum_squares. rewrite sum_squares_zeros by assumption.
    apply sqrt_0.
Qed.

Lemma weight_in_cons term x (vec : vector R) term' :
  weight_in ((term, x) :: vec) term'
  = if string_dec term' term then x else weight_in vec term'.
Proof.
  unfold weight_in, dict_get_default. simpl.
  unfold eq_dec, string_EqDec. now destruct (string_dec term' term).
Qed.

Lemma weight_in_absent (vec : vector R) term :
  ~ In term (keys vec) -> weight_in vec term = 0%R.
Proof.
  intros Hnin. unfold weight_in, dict_get_default.
  now rewrite (proj2 (dict_get_None term vec) Hnin).
Qed.

(** A new term of the second vector adds its product to the dot product. *)
Lemma dot_product_cons_r term x (vec1 vec2 : vector R) :
  NoDup (keys vec1) ->
  ~ In term (keys vec2) ->
  dot_product vec1 ((term, x) :: vec2)
  = (x * weight_in vec1 term + dot_product vec1 vec2)%R.
Proof.
  intros Hnd Hfresh. induction vec1 as [|[t y] vec1 IH].
  - unfold dot_product, weight_in, dict_get_default. simpl. lra.
  - simpl in Hnd. inversion Hnd as [|? ? Ht Hnd']; subst.
    rewrite !dot_product_cons, IH by assumption.
    rewrite !weight_in_cons.
    destruct (string_dec t term) as [->|Hne].
    + destruct (string_dec term term) as [_|]; [|contradiction].
      rewrite (weight_in_absent vec1 term Ht), (weight_in_absent vec2 term Hfresh). lra.
    + destruct (string_dec term t) as [->|_]; [contradiction|]. lra.
Qed.

Lemma dot_product_sym (vec1 vec2 : vector R) :
  NoDup (keys vec1) -> NoDup (keys vec2) ->
  dot_product vec1 vec2 = dot_product vec2 vec1.
Proof.
  intros Hnd1 Hnd2. induction vec2 as [|[term x] vec2 IH].
  - unfold dot_product at 2. simpl.
    induction vec1 as [|[t y] vec1 IH1]; [reflexivity|].
    inversion Hnd1; subst. rewrite dot_product_cons, IH1 by assumption.
    unfold weight_in, dict_get_default. simpl. lra.
  - simpl in Hnd2. inversion Hnd2 as [|? ? Hfresh Hnd2']; subst.
    rewrite dot_product_cons_r, dot_product_cons, IH by assumption. reflexivity.
Qed.

(** X13: the similarity is symmetric: with unique keys on both sides,
    [cosine_similarity(vec1, vec2)] and [cosine_similarity(vec2, vec1)]
    are the same value. *)
Theorem cosine_similarity_sym (vec1 vec2 : vector R) :
  NoDup (keys vec1) -> NoDup (keys vec2) ->
  cosine_similarity vec1 vec2 = cosine_similarity vec2 vec1.
Proof.
  intros Hnd1 Hnd2. rewrite !cosine_similarity_R. unfold truediv.
  rewrite (dot_product_sym vec1 vec2) by assumption.
  rewrite (orb_comm (Reqb (norm vec1) 0)).
  rewrite (Rmult_comm (norm vec1)).
  reflexivity.
Qed.

Lemma cosine_similarity_sym_witness :
  cosine_similarity [("cat", 1%R); ("dog", 2%R)] [("dog", 3%R)]
  = cosine_similarity [("dog", 3%R)] [("cat", 1%R); ("dog", 2%R)].
Proof.
  apply cosine_similarity_sym; repeat constructor; simpl; intuition discriminate.
Defined.

Lemma dot_product_ge_magnitudes (vec1 vec2 : vector R) :
  NoDup (keys vec1) ->
  (- (norm vec1 * norm vec2) <= dot_product vec1 vec2)%R.
Proof.
  intros Hnd. rewrite !norm_sqrt.
  destruct (dot_product_square_le vec1 vec2) as [Hpos Hcs].
  pose proof (matched_squares_le vec1 vec2 Hnd) as Hmatched.
  pose proof (sum_squares_pos vec1) as H1. pose proof (sum_squares_pos vec2) as H2.
  rewrite <- sqrt_mult by assumption.
  set (dot := dot_product vec1 vec2) in *.
  destruct (Rle_or_lt 0 dot) as [Hdot|Hneg].
  - pose proof (sqrt_pos (sum_squares vec1 * sum_squares vec2)). lra.
  - assert (Hle : (- dot <= R_sqrt.sqrt (sum_squares vec1 * sum_squares vec2))%R).
    { rewrite <- (sqrt_square (- dot)) by lra. apply sqrt_le_1_alt. nra. }
    lra.
Qed.

(** X14: in exact arithmetic [cosine_similarity] always returns, without
    dividing by zero, and its value lies in [-1, 1]. *)
Theorem cosine_similarity_range (vec1 vec2 : vector R) :
  NoDup (keys vec1) ->
  exists similarity,
    cosine_similarity vec1 vec2 = Ok similarity /\ (-1 <= similarity <= 1)%R.
Proof.
  intros Hnd.
  pose proof (dot_product_le_magnitudes vec1 vec2 Hnd) as Hle.
  pose proof (dot_product_ge_magnitudes vec1 vec2 Hnd) as Hge.
  rewrite cosine_similarity_R. unfold truediv.
  set (mag1 := norm vec1) in *. set (mag2 := norm vec2) in *.
  set (dot := dot_product vec1 vec2) in *.
  assert (Hm1 : (0 <= mag1)%R) by apply sqrt_pos.
  assert (Hm2 : (0 <= mag2)%R) by apply sqrt_pos.
  change (feqb mag1 fzero) with (Reqb mag1 0).
  change (feqb mag2 fzero) with (Reqb mag2 0).
  change (feqb (fmul mag1 mag2) fzero) with (Reqb (mag1 * mag2) 0).
  destruct (Req_dec_T mag1 0) as [Hz1|Hn1].
  { rewrite (Reqb_true mag1) by assumption. simpl. exists 0%R. split; [reflexivity | lra]. }
  destruct (Req_dec_T mag2 0) as [Hz2|Hn2].
  { rewrite (Reqb_true mag2) by assumption. rewrite orb_true_r.
    exists 0%R. split; [reflexivity | lra]. }
  rewrite (Reqb_false mag1), (Reqb_false mag2) by assumption. simpl.
  assert (Hprod : (0 < mag1 * mag2)%R) by (apply Rmult_lt_0_compat; lra).
  rewrite Reqb_false by lra.
  exists (dot / (mag1 * mag2))%R. split; [reflexivity|].
  assert (Hinv : (0 < / (mag1 * mag2))%R) by now apply Rinv_0_lt_compat.
  assert (Hone : (mag1 * mag2 * / (mag1 * mag2) = 1)%R) by (apply Rinv_r; lra).
  unfold Rdiv. split; nra.
Qed.

Lemma cosine_similarity_range_witness :
  exists similarity,
    cosine_similarity [("cat", 1%R); ("dog", (-2)%R)] [("dog", 3%R)] = Ok similarity
    /\ (-1 <= similarity <= 1)%R.
Proof.
  apply cosine_similarity_range. repeat constructor; simpl; intuition discriminate.
Defined.

(** ** The hits of a search *)

Lemma Permutation_insert_desc (h : hit R) sorted :
  Permutation (insert_desc h sorted) (h :: sorted).
Proof.
  induction sorted as [|h' rest IH]; simpl; [reflexivity|].
  destruct (Rltb (score h) (score h')); [|reflexivity].
  rewrite IH. apply perm_swap.
Qed.

Lemma Permutation_sort_desc (results : list (hit R)) :
  Permutation (sort_desc results) results.
Proof.
  induction results as [|h results IH]; simpl; [reflexivity|].
  rewrite Permutation_insert_desc. now constructor.
Qed.

Lemma In_firstn_of {A : Type} n (l : list A) x : In x (firstn n l) -> In x l.
Proof.
  revert n. induction l as [|y l IH]; intros [|n]; simpl; try tauto.
  intros [Heq|Hin]; [now left | right; eauto].
Qed.

Lemma NoDup_firstn_of {A : Type} n (l : list A) : NoDup l -> NoDup (firstn n l).
Proof.
  intros Hnd. revert n. induction Hnd as [|x l Hx Hnd IH]; intros [|n]; simpl;
    try constructor; auto.
  intros Hin. apply Hx. eapply In_firstn_of. exact Hin.
Qed.

(** Every kept hit is a document of the store, with its preview. *)
Lemma score_documents_stored self (query_vector : vector R) results :
  score_documents self query_vector = Ok results ->
  Forall (fun h => exists text,
            dict_get (hit_id h) (documents self) = Some text
            /\ hit_preview h = preview_of text) results.
Proof.
  unfold score_documents.
  apply (for_each_invariant
           (fun results : list (hit R) =>
              Forall (fun h => exists text,
                        dict_get (hit_id h) (documents self) = Some text
                        /\ hit_preview h = preview_of text) results));
    [|constructor].
  intros acc [doc_id concordance] acc' _ Hacc Hbody.
  destruct (create_tfidf_vector self concordance) as [doc_vector|]; [|discriminate].
  simpl in Hbody.
  destruct (cosine_similarity query_vector doc_vector) as [similarity|]; [|discriminate].
  simpl in Hbody.
  destruct (Rltb 0 similarity).
  - unfold dict_lookup in Hbody.
    destruct (dict_get doc_id (documents self)) as [text|] eqn:Hget; [|discriminate].
    simpl in Hbody. inversion Hbody; subst.
    apply Forall_app. split; [assumption|].
    constructor; [|constructor]. exists text. now split.
  - now inversion Hbody; subst.
Qed.

(** The kept hits follow the order of the index, one per document at most. *)
Lemma score_from_distinct self (query_vector : vector R) entries :
  forall acc results,
    for_each
      (fun results '(doc_id, concordance) =>
         (doc_vector <- create_tfidf_vector self concordance ;;
          similarity <- cosine_similarity query_vector doc_vector ;;
          if fltb fzero similarity
          then (text <- dict_lookup doc_id (documents self) ;;
                Ok (results ++ [(similarity, doc_id, preview_of text)]))
          else Ok results)%result)
      entries acc = Ok results ->
    NoDup (map hit_id acc ++ keys entries) ->
    NoDup (map hit_id results)
    /\ (List.length results <= List.length acc + List.length entries)%nat.
Proof.
  induction entries as [|[doc_id concordance] entries IH]; intros acc results Hrun Hnd.
  - simpl in *. inversion Hrun; subst. rewrite app_nil_r in Hnd. split; [assumption | lia].
  - cbn [for_each] in Hrun.
    destruct (create_tfidf_vector self concordance) as [doc_vector|]; [|discriminate].
    cbn [bind] in Hrun.
    destruct (cosine_similarity query_vector doc_vector) as [similarity|];
      [|discriminate].
    cbn [bind] in Hrun.
    destruct (fltb fzero similarity).
    + destruct (dict_lookup doc_id (documents self)) as [text|]; [|discriminate].
      cbn [bind] in Hrun. apply IH in Hrun.
      * rewrite length_app in Hrun. simpl in *. split; [tauto | lia].
      * rewrite map_app, <- app_assoc. exact Hnd.
    + cbn [bind] in Hrun. apply IH in Hrun.
      * simpl. split; [tauto | lia].
      * simpl in Hnd. now apply NoDup_remove_1 in Hnd.
Qed.

Lemma index_keys_NoDup self : reachable self -> NoDup (keys (index self)).
Proof.
  intros Hself. rewrite (index_keys self (reachable_consistent self Hself)).
  now apply documents_keys_NoDup.
Qed.

(** X15: every hit that [search] returns names a document of the store
    and carries the preview of its stored text; no document is returned
    twice, and there are never more hits than stored documents. *)
Theorem search_hits_are_documents self query max_results (returned : list (hit R)) :
  reachable self ->
  search self query max_results = Ok returned ->
  Forall (fun h => exists text,
            dict_get (hit_id h) (documents self) = Some text
            /\ hit_preview h = preview_of text) returned
  /\ NoDup (map hit_id returned)
  /\ Z.of_nat (List.length returned) <= total_documents self.
Proof.
  intros Hself Hsearch.
  pose proof (reachable_consistent self Hself) as Hcons.
  assert (Htotal : 0 <= total_documents self).
  { rewrite (total_is_len self Hcons). unfold len. lia. }
  apply search_returned in Hsearch as [->|[query_vector [results [Hscore ->]]]].
  { repeat split; [constructor | constructor | simpl; lia]. }
  destruct (slice_to_firstn max_results (sort_desc results)) as [n ->].
  destruct (score_from_distinct self query_vector (index self) [] results Hscore)
    as [Hnd Hlen].
  { simpl. now apply index_keys_NoDup. }
  split; [|split].
  - apply Forall_firstn_of, Forall_sort_desc.
    now apply (score_documents_stored self query_vector).
  - rewrite <- firstn_map. apply NoDup_firstn_of.
    eapply Permutation_NoDup; [|exact Hnd].
    apply Permutation_map. symmetry. apply Permutation_sort_desc.
  - rewrite (total_is_len self Hcons). unfold len.
    apply inj_le. rewrite length_firstn, length_sort_desc.
    simpl in Hlen.
    eapply Nat.le_trans; [apply Nat.le_min_r|].
    eapply Nat.le_trans; [exact Hlen|].
    apply Nat.eq_le_incl.
    rewrite <- (length_map fst (index self)), <- (length_map fst (documents self)).
    f_equal. apply (index_keys self Hcons).
Qed.

Lemma search_hits_are_documents_witness :
  exists returned : list (hit R),
    search cat_dog (PStr "cat bird") 10 = Ok returned
    /\ NoDup (map hit_id returned)
    /\ Z.of_nat (List.length returned) <= 2.
Proof.
  assert (Hself : reachable cat_dog) by apply reachable_add_documents, reachable_init.
  destruct (search_returns cat_dog "cat bird" 10 Hself eq_refl) as [returned Hsearch].
  exists returned. split; [exact Hsearch|].
  destruct (search_hits_are_documents cat_dog (PStr "cat bird") 10 returned Hself Hsearch)
    as [_ [Hnd Hlen]].
  split; [exact Hnd | exact Hlen].
Defined.

(** ** Truncation *)

(** Whatever [max_results] is, [search] ranks the same list and slices it. *)
Lemma search_slices {F : Type} `{Numeric F} self query :
  (exists e, forall max_results, search (F := F) self query max_results = Raise e)
  \/ (exists ranked, forall max_results,
        search (F := F) self query max_results = Ok (slice_to max_results ranked)).
Proof.
  unfold search.
  destruct query as [q| |]; try (left; eexists; intros; reflexivity).
  destruct (is_empty (strip q)); [left; eexists; intros; reflexivity|].
  destruct (documents self).
  { right. exists []. intros m. unfold slice_to.
    destruct (m <? 0); now rewrite firstn_nil. }
  destruct (create_concordance (PStr q)) as [concordance|e];
    [|left; eexists; intros; reflexivity].
  cbn [bind].
  destruct (query_vector_of self concordance) as [query_vector|e];
    [|left; eexists; intros; reflexivity].
  cbn [bind].
  destruct (score_documents self query_vector) as [results|e];
    [|left; eexists; intros; reflexivity].
  cbn [bind]. right. eexists. intros. reflexivity.
Qed.

(** X16: asking for fewer results gives a prefix: for
    [0 <= max_results <= max_results'], the list returned for
    [max_results] is made of the first [max_results] hits of the list
    returned for [max_results']; in particular [max_results = 0] returns
    nothing.  This holds in any arithmetic. *)
Theorem search_prefix {F : Type} `{Numeric F} self query max_results max_results'
    (returned returned' : list (hit F)) :
  0 <= max_results <= max_results' ->
  search self query max_results = Ok returned ->
  search self query max_results' = Ok returned' ->
  returned = firstn (Z.to_nat max_results) returned'.
Proof.
  intros Hle Hsearch Hsearch'.
  destruct (search_slices (F := F) self query) as [[e Hraise]|[ranked Hranked]].
  - rewrite Hraise in Hsearch. discriminate.
  - rewrite Hranked in Hsearch, Hsearch'.
    inversion Hsearch; inversion Hsearch'; subst. unfold slice_to.
    destruct (Z.ltb_spec max_results 0); [lia|].
    destruct (Z.ltb_spec max_results' 0); [lia|].
    rewrite firstn_firstn. f_equal. lia.
Qed.

Lemma search_prefix_witness :
  exists returned returned' : list (hit R),
    search cat_dog (PStr "cat bird") 1 = Ok returned
    /\ search cat_dog (PStr "cat bird") 10 = Ok returned'
    /\ returned = firstn 1 returned'.
Proof.
  assert (Hself : reachable cat_dog) by apply reachable_add_documents, reachable_init.
  destruct (search_returns cat_dog "cat bird" 1 Hself eq_refl) as [returned Hsearch].
  destruct (search_returns cat_dog "cat bird" 10 Hself eq_refl) as [returned' Hsearch'].
  exists returned, returned'. split; [exact Hsearch|]. split; [exact Hsearch'|].
  apply (search_prefix cat_dog (PStr "cat bird") 1 10 returned returned');
    [lia | exact Hsearch | exact Hsearch'].
Defined.

(** ** Case *)

Lemma tokens_of_lower text : tokens_of (lower text) = tokens_of text.
Proof.
  rewrite !tokens_of_split, !sub_punctuation_lower. f_equal.
  unfold lower. rewrite map_string_map_string.
  apply map_string_ext, normalize_lower_char.
Qed.

Lemma isspace_lower_char c : isspace (lower_char c) = isspace c.
Proof. destruct c as [[] [] [] [] [] [] [] []]; reflexivity. Qed.

Lemma is_empty_lower s : is_empty (lower s) = is_empty s.
Proof. now destruct s. Qed.

Lemma lstrip_lower s : lstrip (lower s) = lower (lstrip s).
Proof.
  induction s as [|c s IH]; simpl; [reflexivity|].
  rewrite isspace_lower_char. now destruct (isspace c).
Qed.

Lemma rstrip_lower s : rstrip (lower s) = lower (rstrip s).
Proof.
  induction s as [|c s IH]; simpl; [reflexivity|].
  fold (lower s). rewrite IH, isspace_lower_char, is_empty_lower.
  now destruct (isspace c && is_empty (rstrip s)).
Qed.

Lemma strip_lower s : strip (lower s) = lower (strip s).
Proof. unfold strip. now rewrite lstrip_lower, rstrip_lower. Qed.

(** X17: matching ignores case, in any arithmetic: a query and its
    lower-case form get the same answer from [search], and a text and its
    lower-case form leave the same term-frequency map and the same
    document frequencies when added. *)
Theorem matching_ignores_case {F : Type} `{Numeric F} self doc_id text max_results :
  search (F := F) self (PStr (lower text)) max_results
  = search self (PStr text) max_results
  /\ index (after (add_document doc_id (PStr (lower text))) self)
     = index (after (add_document doc_id (PStr text)) self)
  /\ document_frequencies (after (add_document doc_id (PStr (lower text))) self)
     = document_frequencies (after (add_document doc_id (PStr text)) self).
Proof.
  split; [|split].
  - unfold search. rewrite strip_lower, is_empty_lower.
    now rewrite !create_concordance_str, tokens_of_lower.
  - rewrite !after_add_document_str. simpl. now rewrite tokens_of_lower.
  - rewrite !after_add_document_str. simpl. now rewrite tokens_of_lower.
Qed.

(** ** Queries that cannot match *)

Lemma score_documents_empty_query self :
  1 <= total_documents self -> score_documents (F := R) self [] = Ok [].
Proof.
  intros Htotal. unfold score_documents. apply for_each_skips.
  intros [doc_id concordance] _.
  destruct (create_tfidf_vector_returns self concordance Htotal) as [doc_vector ->].
  simpl.
  rewrite (cosine_similarity_zero_norm [] doc_vector).
  - simpl. now rewrite Rltb_false by lra.
  - change (Reqb (norm []) 0
            || Reqb (norm doc_vector) 0 = true).
    rewrite norm_empty, Reqb_true by reflexivity. reflexivity.
Qed.

(** X18: a query none of whose terms occurs in the corpus is answered by
    the empty list: its terms are dropped from the query vector, and an
    empty query vector matches no document. *)
Theorem search_unknown_terms self query max_results :
  reachable self ->
  is_empty (strip query) = false ->
  (forall term, In term (tokens_of query) ->
     dict_mem term (document_frequencies self) = false) ->
  search (F := R) self (PStr query) max_results = Ok [].
Proof.
  intros Hself Hquery Hunknown. apply reachable_consistent in Hself.
  unfold search. rewrite Hquery.
  destruct (documents self) as [|d docs] eqn:Hdocs; [reflexivity|].
  assert (Htotal : 1 <= total_documents self).
  { apply total_documents_pos; [assumption | rewrite Hdocs; discriminate]. }
  rewrite create_concordance_str. cbn [bind].
  assert (Hvector :
    query_vector_of (F := R) self (Counter (tokens_of query)) = Ok []).
  { unfold query_vector_of. apply for_each_skips.
    intros [term freq] Hin. rewrite Hunknown; [reflexivity|].
    apply In_keys_Counter.
    change (In (fst (term, freq)) (map fst (Counter (tokens_of query)))).
    now apply in_map. }
  rewrite Hvector. cbn [bind].
  rewrite score_documents_empty_query by assumption. cbn [bind].
  unfold slice_to. simpl. destruct (max_results <? 0); now rewrite firstn_nil.
Qed.

Lemma search_unknown_terms_witness :
  search (F := R) cat_dog (PStr "fish, horse") 10 = Ok [].
Proof.
  apply search_unknown_terms.
  - apply reachable_add_documents, reachable_init.
  - reflexivity.
  - intros term [<-|[<-|[]]]; reflexivity.
Defined.

(** ** Documents made of common terms *)

Lemma search_returned_forall self query max_results (returned : list (hit R))
    (P : hit R -> Prop) :
  (forall query_vector results,
      score_documents self query_vector = Ok results -> Forall P results) ->
  search self query max_results = Ok returned ->
  Forall P returned.
Proof.
  intros Hscore Hsearch.
  apply search_returned in Hsearch as [->|[query_vector [results [Hresults ->]]]].
  - constructor.
  - destruct (slice_to_firstn max_results (sort_desc results)) as [n ->].
    apply Forall_firstn_of, Forall_sort_desc. eauto.
Qed.

Lemma calculate_tf_idf_common self term_freq doc_length doc_freq weight :
  doc_freq = total_documents self ->
  calculate_tf_idf (F := R) self term_freq doc_length doc_freq = Ok weight ->
  weight = 0%R.
Proof.
  intros Heq. unfold calculate_tf_idf.
  destruct (Z.eqb_spec doc_freq 0) as [_|Hnz]; [intros Hw; now inversion Hw|].
  destruct (if 0 <? doc_length then int_truediv (F := R) term_freq doc_length
            else Ok (of_int 0)) as [tf|]; [|discriminate].
  cbn [bind].
  destruct (Z.ltb_spec 0 doc_freq) as [Hpos|_].
  - rewrite <- Heq, int_truediv_R by assumption. cbn [bind].
    replace (IZR doc_freq / IZR doc_freq)%R with 1%R
      by (field; apply not_0_IZR; assumption).
    rewrite math_log_R by lra. cbn [bind]. intros Hw. inversion Hw.
    rewrite ln_1. simpl. lra.
  - cbn [bind]. intros Hw. inversion Hw. simpl. lra.
Qed.

Lemma create_tfidf_vector_common self concordance (doc_vector : vector R) :
  (forall term, In term (keys concordance) ->
     document_frequency self term = total_documents self) ->
  create_tfidf_vector self concordance = Ok doc_vector ->
  Forall (fun x => x = 0%R) (values doc_vector).
Proof.
  intros Hcommon. unfold create_tfidf_vector.
  apply (for_each_invariant
           (fun vec : vector R => Forall (fun x => x = 0%R) (values vec)));
    [|constructor].
  intros acc [term freq] acc' Hin Hacc Hbody.
  destruct (calculate_tf_idf self freq (sum (values concordance))
              (dict_get_default term 0 (document_frequencies self)))
    as [weight|] eqn:Hw; [|discriminate].
  simpl in Hbody. inversion Hbody; subst.
  apply Forall_values_dict_set; [|assumption].
  refine (calculate_tf_idf_common _ _ _ _ _ _ Hw).
  apply Hcommon. change (In (fst (term, freq)) (map fst concordance)). now apply in_map.
Qed.

Lemma score_documents_skips_common self doc_id concordance
    (query_vector : vector R) results :
  NoDup (keys (index self)) ->
  dict_get doc_id (index self) = Some concordance ->
  (forall term, In term (keys concordance) ->
     document_frequency self term = total_documents self) ->
  score_documents self query_vector = Ok results ->
  Forall (fun h => hit_id h <> doc_id) results.
Proof.
  intros Hnd Hget Hcommon. unfold score_documents.
  apply (for_each_invariant
           (fun results : list (hit R) => Forall (fun h => hit_id h <> doc_id) results));
    [|constructor].
  intros acc [doc_id' concordance'] acc' Hin Hacc Hbody.
  destruct (create_tfidf_vector self concordance') as [doc_vector|] eqn:Hvec;
    [|discriminate].
  simpl in Hbody.
  destruct (cosine_similarity query_vector doc_vector) as [similarity|] eqn:Hcos;
    [|discriminate].
  simpl in Hbody.
  destruct (Rltb 0 similarity) eqn:Hpos; [|now inversion Hbody; subst].
  destruct (dict_lookup doc_id' (documents self)) as [text|]; [|discriminate].
  simpl in Hbody. inversion Hbody; subst.
  apply Forall_app. split; [assumption|].
  constructor; [|constructor]. unfold hit_id. simpl. intros ->.
  rewrite (dict_get_In doc_id concordance' (index self) Hnd Hin) in Hget.
  inversion Hget; subst.
  pose proof (create_tfidf_vector_common self concordance doc_vector Hcommon Hvec)
    as Hzero.
  assert (Hmag : norm doc_vector = 0%R).
  { rewrite norm_sqrt. unfold sum_squares.
    rewrite sum_squares_zeros by assumption. apply sqrt_0. }
  rewrite (cosine_similarity_zero_norm query_vector doc_vector) in Hcos.
  - inversion Hcos; subst. apply Rltb_lt in Hpos. simpl in Hpos. lra.
  - change (Reqb (norm query_vector) 0
            || Reqb (norm doc_vector) 0 = true).
    rewrite (Reqb_true (norm doc_vector)) by assumption.
    apply orb_true_r.
Qed.

(** X19: a document all of whose terms occur in every counted document
    (document frequency equal to [total_documents]) has only zero weights
    and is never returned by [search], whatever the query. *)
Theorem search_never_returns_common self doc_id concordance query max_results
    (returned : list (hit R)) :
  reachable self ->
  dict_get doc_id (index self) = Some concordance ->
  (forall term, In term (keys concordance) ->
     document_frequency self term = total_documents self) ->
  search self query max_results = Ok returned ->
  ~ In doc_id (map hit_id returned).
Proof.
  intros Hself Hget Hcommon Hsearch.
  assert (Hall : Forall (fun h => hit_id h <> doc_id) returned).
  { apply (search_returned_forall self query max_results returned); [|assumption].
    intros query_vector results.
    apply (score_documents_skips_common self doc_id concordance);
      [now apply index_keys_NoDup | assumption | assumption]. }
  rewrite Forall_forall in Hall. intros Hin.
  apply in_map_iff in Hin as [h [Hid Hh]]. now apply (Hall h Hh).
Qed.

(** X20: with a single document in the engine, [search] returns the empty
    list for every query: the terms of the only document occur in every
    document, so all its weights are [ln(1/1) = 0]. *)
Theorem search_single_document doc_id text query max_results :
  is_empty (strip query) = false ->
  search (F := R) (add_documents [(doc_id, text)] init) (PStr query) max_results
  = Ok [].
Proof.
  intros Hquery. set (self := add_documents [(doc_id, text)] init).
  assert (Hself : reachable self) by apply reachable_add_documents, reachable_init.
  destruct (search_returns self query max_results Hself Hquery) as [returned Hsearch].
  rewrite Hsearch. f_equal.
  assert (Hother : Forall (fun h => hit_id h <> doc_id) returned).
  { apply (search_returned_forall self (PStr query) max_results returned);
      [|assumption].
    intros query_vector results.
    apply (score_documents_skips_common self doc_id (Counter (tokens_of text))).
    - now apply index_keys_NoDup.
    - unfold self. rewrite add_documents_cons.
      change (add_documents [] (indexed doc_id text init))
        with (indexed doc_id text init).
      rewrite indexed_get_index.
      destruct (doc_id_dec doc_id doc_id); [reflexivity | contradiction].
    - intros term Hterm. unfold self. rewrite add_documents_cons.
      change (add_documents [] (indexed doc_id text init))
        with (indexed doc_id text init).
      rewrite document_frequency_indexed.
      apply In_keys_Counter, mentions_In in Hterm. rewrite Hterm. reflexivity. }
  assert (Hstored : Forall (fun h => exists text',
                       dict_get (hit_id h) (documents self) = Some text'
                       /\ hit_preview h = preview_of text') returned).
  { apply (search_returned_forall self (PStr query) max_results returned);
      [|assumption].
    intros query_vector results. apply score_documents_stored. }
  destruct returned as [|h returned]; [reflexivity | exfalso].
  inversion Hother as [|? ? Hneq _]; inversion Hstored as [|? ? [text' [Hget _]] _];
    subst.
  unfold self in Hget. rewrite add_documents_cons in Hget.
  change (add_documents [] (indexed doc_id text init))
    with (indexed doc_id text init) in Hget.
  rewrite indexed_get_documents in Hget.
  destruct (doc_id_dec (hit_id h) doc_id); [contradiction | discriminate].
Qed.

Lemma search_single_document_witness :
  search (F := R) (add_documents [(IdInt 0, "hello world")] init) (PStr "hello") 10
  = Ok [].
Proof. apply search_single_document. reflexivity. Defined.

Lemma search_never_returns_common_witness :
  exists returned : list (hit R),
    search (add_documents [(IdInt 0, "hello world")] init) (PStr "hello") 10
    = Ok returned
    /\ ~ In (IdInt 0) (map hit_id returned).
Proof.
  assert (Hself : reachable (add_documents [(IdInt 0, "hello world")] init))
    by apply reachable_add_documents, reachable_init.
  destruct (search_returns _ "hello" 10 Hself eq_refl) as [returned Hsearch].
  exists returned. split; [exact Hsearch|].
  apply (search_never_returns_common _ (IdInt 0) [("hello", 1); ("world", 1)]
           (PStr "hello") 10 returned Hself).
  - reflexivity.
  - intros term [<-|[<-|[]]]; reflexivity.
  - exact Hsearch.
Defined.

(** ** The vocabulary *)

Lemma vocabulary_add_documents docs self term :
  NoDup (keys (document_frequencies self)) ->
  NoDup (keys (document_frequencies (add_documents docs self)))
  /\ (In term (keys (document_frequencies (add_documents docs self)))
      <-> In term (keys (document_frequencies self))
          \/ exists d, In d docs /\ mentions term (snd d) = true).
Proof.
  revert self. induction docs as [|[doc_id text] docs IH]; intros self Hnd.
  - simpl. split; [assumption|]. split; [tauto|].
    intros [Hin|[d [[] _]]]. exact Hin.
  - rewrite add_documents_cons.
    destruct (Counter_acc_keys (keys (Counter (tokens_of text)))
                (document_frequencies self)) as [Hnd' Hin'].
    destruct (IH (indexed doc_id text self)) as [IHnd IHin]; [now apply Hnd'|].
    split; [exact IHnd|]. rewrite IHin. simpl document_frequencies.
    unfold count_terms. rewrite Hin', In_keys_Counter, <- mentions_In.
    split.
    + intros [[Hold|Hnew]|[d [Hd Hm]]].
      * now left.
      * right. exists (doc_id, text). split; [now left | exact Hnew].
      * right. exists d. split; [now right | exact Hm].
    + intros [Hold|[d [[<-|Hd] Hm]]].
      * left. now left.
      * left. now right.
      * right. now exists d.
Qed.

(** X21: after any sequence of [add_document] calls on a fresh engine the
    document-frequency map has one key for each term that occurs in an
    added text, and no other key: [unique_terms] is the size of the
    vocabulary. *)
Theorem document_frequencies_vocabulary docs term :
  let self := add_documents docs init in
  NoDup (keys (document_frequencies self))
  /\ (In term (keys (document_frequencies self))
      <-> exists d, In d docs /\ mentions term (snd d) = true).
Proof.
  intros self.
  destruct (vocabulary_add_documents docs init term) as [Hnd Hin]; [constructor|].
  split; [exact Hnd|]. fold self in Hin. rewrite Hin. simpl. tauto.
Qed.

(** ** The shape of a document vector *)

Lemma create_tfidf_vector_items {F : Type} `{Numeric F} self
    (concordance items : dict string Z) :
  forall acc (doc_vector : vector F),
    for_each
      (fun tfidf_vector '(term, freq) =>
         let doc_freq := dict_get_default term 0 (document_frequencies self) in
         (weight <- calculate_tf_idf self freq (sum (values concordance)) doc_freq ;;
          Ok (dict_set term weight tfidf_vector))%result)
      items acc = Ok doc_vector ->
    NoDup (keys acc ++ keys items) ->
    exists weights,
      doc_vector = acc ++ weights
      /\ Forall2
           (fun '(term, freq) '(term', weight) =>
              term' = term
              /\ calculate_tf_idf self freq (sum (values concordance))
                   (document_frequency self term) = Ok weight)
           items weights.
Proof.
  induction items as [|[term freq] items IH]; intros acc doc_vector Hrun Hnd.
  - simpl in Hrun. inversion Hrun; subst. exists []. rewrite app_nil_r.
    split; [reflexivity | constructor].
  - cbn [for_each] in Hrun. cbv zeta in Hrun.
    destruct (calculate_tf_idf self freq (sum (values concordance))
                (dict_get_default term 0 (document_frequencies self)))
      as [weight|] eqn:Hw; [|discriminate].
    cbn [bind] in Hrun.
    assert (Hfresh : ~ In term (keys acc)).
    { simpl in Hnd. apply NoDup_remove_2 in Hnd. rewrite in_app_iff in Hnd. tauto. }
    rewrite dict_set_fresh in Hrun by assumption.
    apply IH in Hrun.
    + destruct Hrun as [weights [-> Hall]].
      exists ((term, weight) :: weights). rewrite <- app_assoc.
      split; [reflexivity|]. constructor; [|assumption]. now split.
    + unfold keys in *. rewrite map_app, <- app_assoc. exact Hnd.
Qed.

Lemma Forall2_items {V W : Type} (Q : string -> V -> W -> Prop)
    (items : dict string V) (weights : dict string W) :
  Forall2 (fun '(term, v) '(term', w) => term' = term /\ Q term v w) items weights ->
  keys weights = keys items
  /\ forall term v, In (term, v) items -> exists w, Q term v w /\ In (term, w) weights.
Proof.
  induction 1 as [|[t v] [t' w] items weights [-> Hq] _ [IHkeys IHin]]; simpl.
  - split; [reflexivity | contradiction].
  - split; [now rewrite IHkeys|].
    intros term v' [Heq|Hin].
    + inversion Heq; subst. exists w. split; [assumption | now left].
    + destruct (IHin term v' Hin) as [w' [Hq' Hin']]. exists w'.
      split; [assumption | now right].
Qed.

(** X22: when [create_tfidf_vector] returns, the vector has exactly the
    terms of the term-frequency map, in the same order, and the weight of
    each term is the value of [calculate_tf_idf] for its count, the sum of
    all counts and its document frequency.  This holds in any arithmetic. *)
Theorem create_tfidf_vector_shape {F : Type} `{Numeric F} self
    (concordance : dict string Z) (doc_vector : vector F) :
  NoDup (keys concordance) ->
  create_tfidf_vector self concordance = Ok doc_vector ->
  keys doc_vector = keys concordance
  /\ forall term freq,
       In (term, freq) concordance ->
       exists weight,
         calculate_tf_idf self freq (sum (values concordance))
           (document_frequency self term) = Ok weight
         /\ dict_get term doc_vector = Some weight.
Proof.
  intros Hnd Hrun. unfold create_tfidf_vector in Hrun.
  apply create_tfidf_vector_items in Hrun as [weights [-> Hall]]; [|exact Hnd].
  simpl.
  destruct (Forall2_items
              (fun term freq weight =>
                 calculate_tf_idf self freq (sum (values concordance))
                   (document_frequency self term) = Ok weight)
              concordance weights Hall) as [Hkeys Hin].
  split; [exact Hkeys|].
  intros term freq Hterm. destruct (Hin term freq Hterm) as [weight [Hcalc Hi]].
  exists weight. split; [exact Hcalc|].
  apply dict_get_In; [now rewrite Hkeys | exact Hi].
Qed.

Lemma create_tfidf_vector_shape_witness :
  keys [("cat", (2 / 3 * ln (2 / 1))%R); ("dog", (1 / 3 * ln (2 / 2))%R)]
  = ["cat"; "dog"].
Proof.
  refine (proj1 (create_tfidf_vector_shape (F := R) cat_dog [("cat", 2); ("dog", 1)]
                   _ _ cat_dog_vector_a)).
  repeat constructor; simpl; intuition discriminate.
Defined.

(** ** Sorting *)

(** Inserting a hit does not move it across a hit of the same score. *)
Lemma filter_insert_desc (s : R) (h : hit R) sorted :
  filter (fun h' => Reqb (score h') s) (insert_desc h sorted)
  = filter (fun h' => Reqb (score h') s) (h :: sorted).
Proof.
  induction sorted as [|h' rest IH]; [reflexivity|].
  cbn [insert_desc]. change (fltb (score h) (score h')) with (Rltb (score h) (score h')).
  unfold Rltb. destruct (Rlt_dec (score h) (score h')) as [Hlt|_]; [|reflexivity].
  cbn [filter] in *. rewrite IH.
  unfold Reqb. destruct (Req_dec_T (score h') s) as [Hs'|_];
    destruct (Req_dec_T (score h) s) as [Hs|_]; try reflexivity.
  exfalso. lra.
Qed.

(** The hits of one score, in the order of the list. *)
Lemma filter_sort_desc (s : R) (results : list (hit R)) :
  filter (fun h => Reqb (score h) s) (sort_desc results)
  = filter (fun h => Reqb (score h) s) results.
Proof.
  induction results as [|h results IH]; [reflexivity|].
  cbn [sort_desc fold_right]. rewrite filter_insert_desc.
  cbn [filter]. fold (sort_desc results). now rewrite IH.
Qed.

(** X23: the sort of the hits is stable.  It only reorders the hits, it
    puts them in non-increasing order of score, and the hits of any one
    score come out in the order in which they went in; so a list that is
    already in non-increasing order is left as it is. *)
Theorem sort_desc_stable (results : list (hit R)) :
  Permutation (sort_desc results) results
  /\ non_increasing (sort_desc results)
  /\ (forall s : R,
        filter (fun h => Reqb (score h) s) (sort_desc results)
        = filter (fun h => Reqb (score h) s) results)
  /\ (non_increasing results -> sort_desc results = results).
Proof.
  split; [apply Permutation_sort_desc|].
  split; [apply sort_desc_non_increasing|].
  split; [intros s; apply filter_sort_desc|].
  unfold non_increasing. induction 1 as [|h rest Hsorted IH Hh]; [reflexivity|].
  simpl. rewrite IH. destruct rest as [|h' rest]; [reflexivity|].
  inversion Hh; subst. simpl. now rewrite Rltb_false.
Qed.

(** A list out of order with two hits of score 1: by the theorem the
    sort keeps [a] before [c]; and a list in order is returned as it is. *)
Lemma sort_desc_stable_witness :
  filter (fun h => Reqb (score h) 1)
    (sort_desc [(1%R, IdStr "a", ""); (2%R, IdStr "b", ""); (1%R, IdStr "c", "")])
  = [(1%R, IdStr "a", ""); (1%R, IdStr "c", "")]
  /\ sort_desc [(2%R, IdStr "b", ""); (1%R, IdStr "a", ""); (1%R, IdStr "c", "")]
     = [(2%R, IdStr "b", ""); (1%R, IdStr "a", ""); (1%R, IdStr "c", "")].
Proof.
  split.
  - rewrite (proj1 (proj2 (proj2 (sort_desc_stable
               [(1%R, IdStr "a", ""); (2%R, IdStr "b", ""); (1%R, IdStr "c", "")]))) 1%R).
    cbn [filter score fst].
    rewrite (Reqb_true 1 1) by reflexivity. rewrite (Reqb_false 2 1) by lra.
    reflexivity.
  - refine (proj2 (proj2 (proj2 (sort_desc_stable
             [(2%R, IdStr "b", ""); (1%R, IdStr "a", ""); (1%R, IdStr "c", "")]))) _).
    unfold non_increasing.
    repeat (apply SSorted_cons || apply SSorted_nil || apply Forall_cons
            || apply Forall_nil); unfold score; simpl; lra.
Defined.

(** ** Previews *)

Lemma prefix_of_prefix n text :
  exists rest, text = (prefix_of n text ++ rest)%string.
Proof.
  unfold prefix_of. revert n. induction text as [|c text IH]; intros [|n]; simpl.
  - now exists EmptyString.
  - now exists EmptyString.
  - now exists (String c text).
  - destruct (IH n) as [rest Hrest]. exists rest. now rewrite <- Hrest.
Qed.

(** X24: the preview of a text of at most 100 characters is the text; the
    preview of a longer text is its first 100 characters followed by
    ["..."], 103 characters in all. *)
Theorem preview_of_text text :
  ((String.length text <= 100)%nat -> preview_of text = text)
  /\ ((100 < String.length text)%nat ->
      exists head rest,
        text = (head ++ rest)%string
        /\ String.length head = 100%nat
        /\ preview_of text = (head ++ "...")%string
        /\ String.length (preview_of text) = 103%nat).
Proof.
  destruct (preview_of_spec text) as [Hshort Hlong].
  split; [exact Hshort|]. intros Hlen.
  destruct (Hlong Hlen) as [Hpreview Hlength].
  destruct (prefix_of_prefix 100 text) as [rest Hrest].
  exists (prefix_of 100 text), rest.
  split; [exact Hrest|]. split; [apply prefix_of_length; lia|].
  split; assumption.
Qed.

Lemma preview_of_text_witness : preview_of "cat dog cat" = "cat dog cat".
Proof. apply (proj1 (preview_of_text "cat dog cat")). simpl. lia. Defined.

(** ** The documents that a search returns *)

(** The hits kept by the scoring loop: one for each entry whose vector has
    a positive similarity with the query vector. *)
Lemma score_loop_hits self (query_vector : vector R) entries :
  forall acc results,
    for_each
      (fun results '(doc_id, concordance) =>
         (doc_vector <- create_tfidf_vector self concordance ;;
          similarity <- cosine_similarity query_vector doc_vector ;;
          if fltb fzero similarity
          then (text <- dict_lookup doc_id (documents self) ;;
                Ok (results ++ [(similarity, doc_id, preview_of text)]))
          else Ok results)%result)
      entries acc = Ok results ->
    forall h,
      In h results
      <-> In h acc
          \/ exists doc_id concordance doc_vector similarity text,
               In (doc_id, concordance) entries
               /\ create_tfidf_vector self concordance = Ok doc_vector
               /\ cosine_similarity query_vector doc_vector = Ok similarity
               /\ (0 < similarity)%R
               /\ dict_get doc_id (documents self) = Some text
               /\ h = (similarity, doc_id, preview_of text).
Proof.
  induction entries as [|[doc_id concordance] entries IH]; intros acc results Hrun h.
  - simpl in Hrun. inversion Hrun; subst. split; [now left|].
    intros [Hin|[? [? [? [? [? [[] _]]]]]]]. exact Hin.
  - cbn [for_each] in Hrun.
    destruct (create_tfidf_vector self concordance) as [doc_vector|] eqn:Hvec;
      [|discriminate].
    cbn [bind] in Hrun.
    destruct (cosine_similarity query_vector doc_vector) as [similarity|] eqn:Hcos;
      [|discriminate].
    cbn [bind] in Hrun.
    change (fltb fzero similarity) with (Rltb 0 similarity) in Hrun.
    destruct (Rltb 0 similarity) eqn:Hpos.
    + unfold dict_lookup in Hrun.
      destruct (dict_get doc_id (documents self)) as [text|] eqn:Hget; [|discriminate].
      cbn [bind] in Hrun. rewrite (IH _ _ Hrun h), in_app_iff. simpl.
      apply Rltb_lt in Hpos. split.
      * intros [[Hacc|[<-|[]]]|[id [c [dv [s [t [Hin Hrest]]]]]]].
        -- now left.
        -- right. exists doc_id, concordance, doc_vector, similarity, text.
           repeat split; auto.
        -- right. exists id, c, dv, s, t. split; [now right | exact Hrest].
      * intros [Hacc|[id [c [dv [s [t [[Heq|Hin] Hrest]]]]]]].
        -- left. now left.
        -- inversion Heq; subst. destruct Hrest as [Hv [Hc [_ [Hg ->]]]].
           rewrite Hvec in Hv. inversion Hv; subst.
           rewrite Hcos in Hc. inversion Hc; subst.
           rewrite Hget in Hg. inversion Hg; subst.
           left. right. now left.
        -- right. exists id, c, dv, s, t. split; assumption.
    + cbn [bind] in Hrun. rewrite (IH _ _ Hrun h).
      apply Rltb_ge in Hpos. split.
      * intros [Hacc|[id [c [dv [s [t [Hin Hrest]]]]]]]; [now left|].
        right. exists id, c, dv, s, t. split; [now right | exact Hrest].
      * intros [Hacc|[id [c [dv [s [t [[Heq|Hin] Hrest]]]]]]]; [now left| |].
        -- inversion Heq; subst. destruct Hrest as [Hv [Hc [Hs _]]].
           rewrite Hvec in Hv. inversion Hv; subst.
           rewrite Hcos in Hc. inversion Hc; subst. lra.
        -- right. exists id, c, dv, s, t. split; assumption.
Qed.

Lemma slice_to_all {A : Type} stop (l : list A) :
  Z.of_nat (List.length l) <= stop -> slice_to stop l = l.
Proof.
  intros Hlen. unfold slice_to.
  destruct (Z.ltb_spec stop 0); [lia|].
  apply firstn_all2. lia.
Qed.

(** X25: when [max_results] is at least the number of documents, [search]
    returns exactly the indexed documents whose vector has a positive
    similarity with the query vector, each with that similarity as its
    score. *)
Theorem search_returns_positive_matches self query max_results
    (returned : list (hit R)) doc_id concordance :
  reachable self ->
  total_documents self <= max_results ->
  search self (PStr query) max_results = Ok returned ->
  In (doc_id, concordance) (index self) ->
  exists query_vector doc_vector similarity,
    query_vector_of self (Counter (tokens_of query)) = Ok query_vector
    /\ create_tfidf_vector self concordance = Ok doc_vector
    /\ cosine_similarity query_vector doc_vector = Ok similarity
    /\ (In doc_id (map hit_id returned) <-> (0 < similarity)%R)
    /\ (forall h, In h returned -> hit_id h = doc_id -> score h = similarity).
Proof.
  intros Hself Hmax Hsearch Hentry.
  pose proof (reachable_consistent self Hself) as Hcons.
  pose proof (index_keys_NoDup self Hself) as Hnd.
  assert (Hkey : In doc_id (keys (documents self))).
  { rewrite <- (index_keys self Hcons).
    change (In (fst (doc_id, concordance)) (map fst (index self))). now apply in_map. }
  assert (Hdocs : documents self <> []).
  { intros Hempty. rewrite Hempty in Hkey. contradiction. }
  pose proof (total_documents_pos self Hcons Hdocs) as Htotal.
  unfold search in Hsearch.
  destruct (is_empty (strip query)); [discriminate|].
  destruct (documents self) as [|d docs] eqn:Hstore; [contradiction|].
  rewrite <- Hstore in *. clear d docs Hstore.
  rewrite create_concordance_str in Hsearch. cbn [bind] in Hsearch.
  destruct (query_vector_of self (Counter (tokens_of query))) as [query_vector|] eqn:Hq;
    [|discriminate].
  cbn [bind] in Hsearch.
  destruct (score_documents self query_vector) as [results|] eqn:Hscore;
    [|discriminate].
  cbn [bind] in Hsearch. inversion Hsearch; subst. clear Hsearch.
  destruct (create_tfidf_vector_returns self concordance Htotal) as [doc_vector Hvec].
  destruct (cosine_similarity_returns query_vector doc_vector) as [similarity Hcos].
  exists query_vector, doc_vector, similarity.
  split; [reflexivity|]. split; [exact Hvec|]. split; [exact Hcos|].
  pose proof (score_loop_hits self query_vector (index self) [] results Hscore) as Hhits.
  destruct (score_from_distinct self query_vector (index self) [] results Hscore)
    as [_ Hlen]; [simpl; exact Hnd|].
  assert (Hall : slice_to max_results (sort_desc results) = sort_desc results).
  { apply slice_to_all. rewrite length_sort_desc.
    rewrite (total_is_len self Hcons) in Hmax. unfold len in Hmax.
    simpl in Hlen.
    assert (Hsame : List.length (index self) = List.length (documents self)).
    { rewrite <- (length_map fst (index self)), <- (length_map fst (documents self)).
      f_equal. apply (index_keys self Hcons). }
    apply Z.le_trans with (Z.of_nat (List.length (documents self))); [|exact Hmax].
    apply inj_le. rewrite <- Hsame. exact Hlen. }
  rewrite Hall.
  assert (Hin : forall h, In h (sort_desc results) <-> In h results).
  { intros h. split; apply Permutation_in;
      [apply Permutation_sort_desc | symmetry; apply Permutation_sort_desc]. }
  assert (Hmatch : forall h, In h results -> hit_id h = doc_id ->
                             score h = similarity /\ (0 < similarity)%R).
  { intros h Hh Hid. apply Hhits in Hh as [[]|[id [c [dv [s [t Hrest]]]]]].
    destruct Hrest as [Hc [Hv [Hs [Hpos [_ ->]]]]].
    unfold hit_id in Hid. simpl in Hid. subst id.
    pose proof (dict_get_In doc_id c (index self) Hnd Hc) as Hget.
    rewrite (dict_get_In doc_id concordance (index self) Hnd Hentry) in Hget.
    inversion Hget; subst.
    rewrite Hvec in Hv. inversion Hv; subst.
    rewrite Hcos in Hs. inversion Hs; subst. now split. }
  split; [split|].
  - intros Hreturned. apply in_map_iff in Hreturned as [h [Hid Hh]].
    apply Hin in Hh. now destruct (Hmatch h Hh Hid).
  - intros Hpos.
    destruct (dict_get doc_id (documents self)) as [text|] eqn:Hget.
    + apply in_map_iff. exists (similarity, doc_id, preview_of text).
      split; [reflexivity|]. apply Hin, Hhits. right.
      exists doc_id, concordance, doc_vector, similarity, text. repeat split; auto.
    + apply dict_get_None in Hget. contradiction.
  - intros h Hh Hid. apply Hin in Hh. now destruct (Hmatch h Hh Hid).
Qed.

Lemma search_returns_positive_matches_witness :
  exists (returned : list (hit R)) (query_vector doc_vector : vector R) similarity,
    search cat_dog (PStr "cat") 10 = Ok returned
    /\ cosine_similarity query_vector doc_vector = Ok similarity
    /\ (In (IdStr "b") (map hit_id returned) <-> (0 < similarity)%R).
Proof.
  assert (Hself : reachable cat_dog) by apply reachable_add_documents, reachable_init.
  destruct (search_returns cat_dog "cat" 10 Hself eq_refl) as [returned Hsearch].
  destruct (search_returns_positive_matches cat_dog "cat" 10 returned (IdStr "b")
              [("dog", 1); ("bird", 1)] Hself)
    as [query_vector [doc_vector [similarity [_ [_ [Hcos [Hiff _]]]]]]].
  - vm_compute. discriminate.
  - exact Hsearch.
  - right. now left.
  - exists returned, query_vector, doc_vector, similarity. auto.
Defined.

(** ** Scores without overwriting *)

Lemma search_returned_query self query max_results (returned : list (hit R)) :
  search self (PStr query) max_results = Ok returned ->
  returned = []
  \/ exists query_vector results,
       query_vector_of self (Counter (tokens_of query)) = Ok query_vector
       /\ score_documents self query_vector = Ok results
       /\ returned = slice_to max_results (sort_desc results).
Proof.
  unfold search. destruct (is_empty (strip query)); [discriminate|].
  destruct (documents self); [intros Hret; inversion Hret; now left|].
  rewrite create_concordance_str. cbn [bind].
  destruct (query_vector_of self (Counter (tokens_of query))) as [query_vector|];
    [|discriminate].
  cbn [bind].
  destruct (score_documents self query_vector) as [results|] eqn:Hscore;
    [|discriminate].
  cbn [bind]. intros Hret. inversion Hret; subst. right. eauto.
Qed.

Lemma score_documents_at_most_one self (query_vector : vector R) results :
  consistent self ->
  (forall term, 0 <= document_frequency self term <= total_documents self) ->
  NoDup (keys query_vector) ->
  Forall (fun x => 0 <= x)%R (values query_vector) ->
  score_documents self query_vector = Ok results ->
  Forall (fun h => (score h <= 1)%R) results.
Proof.
  intros Hcons Hdf Hnd Hpos. unfold score_documents.
  apply (for_each_invariant
           (fun results : list (hit R) => Forall (fun h => (score h <= 1)%R) results));
    [|constructor].
  intros acc [doc_id concordance] acc' Hin Hacc Hbody.
  destruct (create_tfidf_vector self concordance) as [doc_vector|] eqn:Hvec;
    [|discriminate].
  simpl in Hbody.
  destruct (cosine_similarity query_vector doc_vector) as [similarity|] eqn:Hcos;
    [|discriminate].
  simpl in Hbody.
  destruct (Rltb 0 similarity); [|now inversion Hbody; subst].
  destruct (dict_lookup doc_id (documents self)) as [text|]; [|discriminate].
  simpl in Hbody. inversion Hbody; subst.
  apply Forall_app. split; [assumption|].
  constructor; [|constructor]. unfold score. simpl.
  assert (Hdpos : Forall (fun x => 0 <= x)%R (values doc_vector)).
  { apply (create_tfidf_vector_nonneg self concordance); [|assumption|assumption].
    destruct (index_concordances self Hcons doc_id concordance Hin) as [text' ->].
    apply Counter_counts_pos. }
  destruct (cosine_similarity_bounds query_vector doc_vector Hnd Hpos Hdpos)
    as [similarity' [Hcos' Hbounds]].
  rewrite Hcos in Hcos'. inversion Hcos'; subst. lra.
Qed.

(** X26: when the documents were added under pairwise distinct
    identifiers, every score that [search] returns lies in (0, 1], in
    exact arithmetic. *)
Theorem search_scores_without_overwrite docs query max_results
    (returned : list (hit R)) :
  NoDup (map fst docs) ->
  search (add_documents docs init) (PStr query) max_results = Ok returned ->
  Forall (fun h => (0 < score h <= 1)%R) returned.
Proof.
  intros Hnd Hsearch. set (self := add_documents docs init) in *.
  assert (Hcons : consistent self).
  { apply reachable_consistent, reachable_add_documents, reachable_init. }
  apply search_returned_query in Hsearch
    as [->|[query_vector [results [Hq [Hscore ->]]]]]; [constructor|].
  destruct (query_vector_of_wf self _ _ Hq) as [Hqnd Hqpos].
  pose proof (score_documents_positive self query_vector results Hscore) as Hlow.
  assert (Hhigh : Forall (fun h => (score h <= 1)%R) results).
  { apply (score_documents_at_most_one self query_vector); try assumption.
    intros term. now apply document_frequency_le_total. }
  destruct (slice_to_firstn max_results (sort_desc results)) as [n ->].
  apply Forall_firstn_of, Forall_sort_desc.
  rewrite Forall_forall in *. intros h Hh. split; [now apply Hlow | now apply Hhigh].
Qed.

Lemma search_scores_without_overwrite_witness :
  exists returned : list (hit R),
    search cat_dog (PStr "cat bird") 10 = Ok returned
    /\ Forall (fun h => (0 < score h <= 1)%R) returned.
Proof.
  assert (Hself : reachable cat_dog) by apply reachable_add_documents, reachable_init.
  destruct (search_returns cat_dog "cat bird" 10 Hself eq_refl) as [returned Hsearch].
  exists returned. split; [exact Hsearch|].
  apply (search_scores_without_overwrite
           [(IdStr "a", "cat dog cat"); (IdStr "b", "dog bird")] "cat bird" 10).
  - repeat constructor; simpl; intuition discriminate.
  - exact Hsearch.
Defined.
